(** * Anaglyph 3D video player: the per-frame stereo-to-anaglyph pipeline

    A shallow embedding of [script.js]: the luminosity grayscale, the table of
    anaglyph presets, the in-place conversion loop over the canvas pixel
    buffer, the frame cycle [processFrame] and the play/pause scheduling
    around it, seeking, the size of the canvas on screen and the full-window
    view.

    JavaScript numbers are IEEE-754 binary64 values; they are modelled with
    the Standard Library's executable specification of floating-point
    arithmetic ([SpecFloat], precision 53, [emax] 1024).  Pixel buffers are
    the [Uint8ClampedArray]s of canvas [ImageData]: lists of integers, read
    by index and written through the [ToUint8Clamp] conversion. *)

From Stdlib Require Import ZArith QArith Qround Qabs Lia Bool.
From Stdlib Require Import SpecFloat.
From stdpp Require Import base list gmap strings.

Local Open Scope Z_scope.

(** ** JavaScript numbers *)

Module Num.

Definition prec : Z := 53.
Definition emax : Z := 1024.

Abbreviation Number := spec_float.

(** An integer-valued number: a typed-array element, an array element or
    an integer literal. *)
Definition of_Z (z : Z) : Number := binary_normalize prec emax z 0 false.

(** [undefined] (an out-of-range array read) used as an operand. *)
Definition NaN : Number := S754_nan.

Definition mul : Number -> Number -> Number := SFmul prec emax.
Definition add : Number -> Number -> Number := SFadd prec emax.
Definition leb : Number -> Number -> bool := SFleb.

(** The decimal literals of the source, as the binary64 values nearest to
    them. *)
Definition lit_0_3 : Number := S754_finite false 5404319552844595 (-54).
Definition lit_0_59 : Number := S754_finite false 5314247560297185 (-53).
Definition lit_0_11 : Number := S754_finite false 7926335344172073 (-56).

(** [ToUint8Clamp] of ECMAScript, the conversion applied by every store
    into a [Uint8ClampedArray]: NaN becomes 0, the value is clamped to
    [0, 255] and rounded to the nearest integer, ties to even. *)
Definition round_half_even (m : Z) (n : Z) : Z :=
  let f := m / 2 ^ n in
  match (2 * (m mod 2 ^ n)) ?= 2 ^ n with
  | Lt => f
  | Eq => if Z.even f then f else f + 1
  | Gt => f + 1
  end.

Definition ToUint8Clamp (x : Number) : Z :=
  match x with
  | S754_nan => 0
  | S754_zero _ => 0
  | S754_infinity s => if s then 0 else 255
  | S754_finite true _ _ => 0
  | S754_finite false m e =>
      if 0 <=? e then
        (if 8 <=? e then 255 else Z.min 255 (Z.pos m * 2 ^ e))
      else if 255 * 2 ^ (- e) <=? Z.pos m then 255
      else round_half_even (Z.pos m) (- e)
  end.

(** Rounding of a nonnegative integer to 53 significant bits, ties to
    even: what a binary64 addition does to the exact sum of its operands,
    once both are counted in a common unit. *)
Definition round53 (N : Z) : Z :=
  let n := Z.log2 N + 1 - prec in
  if n <=? 0 then N else round_half_even N n * 2 ^ n.

(** The value of a number counted in units of 2^-56. *)
Definition units (x : Number) : Z :=
  match x with
  | S754_finite false m e => Z.pos m * 2 ^ (e + 56)
  | _ => 0
  end.

(** The numbers the pixel arithmetic stays in: +0 and the normalised
    binary64 values from 2^-4 up to (excluding) 256. *)
Definition in_channel_range (x : Number) : bool :=
  match x with
  | S754_zero false => true
  | S754_finite false m e =>
      (Z.pos (digits2_pos m) =? prec) && (-56 <=? e) && (e <=? -45)
  | _ => false
  end.

(** An 8-bit channel intensity. *)
Definition is_u8 (v : Z) : bool := (0 <=? v) && (v <=? 255).

End Num.

Import Num.

(** ** The luminosity grayscale *)

Definition getGrayscale (r g b : Number) : Number :=
  add (add (mul r lit_0_3) (mul g lit_0_59)) (mul b lit_0_11).

(** ** Anaglyph presets *)

(** A preset: one 0/1 mask per eye, components ordered red, green, blue. *)
Record Mode : Type := { left : list Z; right : list Z }.

(** The object literal: its own three properties, keyed by the [data-mode]
    identifiers. *)
Definition ANAGLYPH_MODES : gmap string Mode :=
  <["red_cyan" := {| left := [1; 0; 0]; right := [0; 1; 1] |}]>
  (<["green_magenta" := {| left := [0; 1; 0]; right := [1; 0; 1] |}]>
  (<["blue_yellow" := {| left := [0; 0; 1]; right := [1; 1; 0] |}]> ∅)).

(** The names a plain object inherits from [Object.prototype]: eleven
    functions and the accessor [__proto__], which gives the prototype
    itself. *)
Definition Object_prototype : list string :=
  ["constructor"; "hasOwnProperty"; "isPrototypeOf"; "propertyIsEnumerable";
   "toLocaleString"; "toString"; "valueOf"; "__proto__";
   "__defineGetter__"; "__defineSetter__"; "__lookupGetter__"; "__lookupSetter__"].

(** What [ANAGLYPH_MODES[id]] evaluates to: a preset of the table; a member
    of the prototype, an object that has no [left] and no [right]; or
    [undefined]. Only the last is falsy. *)
Inductive Lookup : Type :=
  | preset (mode : Mode)
  | inherited
  | undefined.

Definition ANAGLYPH_MODES_get (id : string) : Lookup :=
  match ANAGLYPH_MODES !! id with
  | Some mode => preset mode
  | None => if existsb (String.eqb id) Object_prototype then inherited else undefined
  end.

(** ** Array reads *)

(** [a[i]] used as a number: the element, or [undefined] (NaN in
    arithmetic) out of range. *)
Definition get (a : list Z) (i : nat) : Number :=
  match a !! i with
  | Some v => of_Z v
  | None => NaN
  end.

(** [a[i] === 1] *)
Definition is_one (a : list Z) (i : nat) : bool :=
  match a !! i with
  | Some v => v =? 1
  | None => false
  end.

(** ** The anaglyph conversion loop *)

(** The arithmetic of one iteration of the loop body: the three output
    channels, before they are stored. *)
Definition anaglyph_pixel (mode : Mode) (R_L G_L B_L R_R G_R B_R : Number)
  : Number * Number * Number :=
  let R_L_Gray := getGrayscale R_L G_L B_L in
  let G_L_Gray := getGrayscale R_L G_L B_L in
  let B_L_Gray := getGrayscale R_L G_L B_L in
  let R_R_Gray := getGrayscale R_R G_R B_R in
  let G_R_Gray := getGrayscale R_R G_R B_R in
  let B_R_Gray := getGrayscale R_R G_R B_R in
  let R_out :=
    add (mul (if is_one (left mode) 0 then R_L else R_L_Gray) (get (left mode) 0))
        (mul (if is_one (right mode) 0 then R_R_Gray else of_Z 0) (get (right mode) 0)) in
  let G_out :=
    add (mul (if is_one (left mode) 1 then G_L else G_L_Gray) (get (left mode) 1))
        (mul (if is_one (right mode) 1 then G_R_Gray else of_Z 0) (get (right mode) 1)) in
  let B_out :=
    add (mul (if is_one (left mode) 2 then B_L else B_L_Gray) (get (left mode) 2))
        (mul (if is_one (right mode) 2 then B_R_Gray else of_Z 0) (get (right mode) 2)) in
  (R_out, G_out, B_out).

(** One iteration of the loop body at offset [i]: the reads, the arithmetic
    and the three stores. A store into a typed array converts with
    [ToUint8Clamp] and is ignored out of range. *)
Definition convert_pixel (mode : Mode) (i : nat) (leftPixels rightPixels : list Z)
  : list Z :=
  let R_L := get leftPixels i in
  let G_L := get leftPixels (i + 1) in
  let B_L := get leftPixels (i + 2) in
  let R_R := get rightPixels i in
  let G_R := get rightPixels (i + 1) in
  let B_R := get rightPixels (i + 2) in
  let '(R_out, G_out, B_out) := anaglyph_pixel mode R_L G_L B_L R_R G_R B_R in
  <[(i + 2)%nat := ToUint8Clamp B_out]>
    (<[(i + 1)%nat := ToUint8Clamp G_out]>
       (<[i := ToUint8Clamp R_out]> leftPixels)).

(** [for (let i = 0; i < leftPixels.length; i += 4) { ... }], continued from
    offset [i]. The guard ends the loop; [fuel] only bounds the recursion. *)
Fixpoint conversion_loop (fuel : nat) (mode : Mode) (i : nat)
    (leftPixels rightPixels : list Z) : list Z :=
  if (i <? length leftPixels)%nat then
    match fuel with
    | O => leftPixels
    | S fuel' =>
        conversion_loop fuel' mode (i + 4)
          (convert_pixel mode i leftPixels rightPixels) rightPixels
    end
  else leftPixels.

(** The whole loop: the buffer length is more fuel than the loop can use. *)
Definition anaglyph_conversion (mode : Mode) (leftPixels rightPixels : list Z)
  : list Z :=
  conversion_loop (length leftPixels) mode 0 leftPixels rightPixels.

(** ** The transform as the specification words it *)

(** The rational a finite number stands for (0 for the others). *)
Definition value (x : Number) : Q :=
  match x with
  | S754_finite s m e =>
      let n := cond_Zopp s (Z.pos m) in
      if 0 <=? e then inject_Z (n * 2 ^ e) else n # (2 ^ Z.to_pos (- e))
  | _ => 0%Q
  end.

(** "grayscale(R,G,B) = 0.3R + 0.59G + 0.11B", over the rationals. *)
Definition spec_grayscale_exact (R G B : Z) : Q :=
  ((3 # 10) * inject_Z R + (59 # 100) * inject_Z G + (11 # 100) * inject_Z B)%Q.

(** The same weighted sum evaluated in the arithmetic of the language, the
    three products first. *)
Definition spec_grayscale (R G B : Number) : Number :=
  add (add (mul lit_0_3 R) (mul lit_0_59 G)) (mul lit_0_11 B).

(** Channel [c] of a pixel given as its (red, green, blue) values. *)
Definition channel (c : nat) (px : Number * Number * Number) : Number :=
  match c with
  | O => px.1.1
  | S O => px.1.2
  | _ => px.2
  end.

(** Steps 1 to 5 of the per-pixel transform for output channel [c], before
    the storage: [grayL] and [grayR] are the weighted sums of the two
    pixels. *)
Definition spec_output (mode : Mode) (c : nat) (L R : Number * Number * Number)
  : Number :=
  let grayL := spec_grayscale L.1.1 L.1.2 L.2 in
  let grayR := spec_grayscale R.1.1 R.1.2 R.2 in
  let leftContribution :=
    mul (if is_one (left mode) c then channel c L else grayL) (get (left mode) c) in
  let rightContribution :=
    mul (if is_one (right mode) c then grayR else of_Z 0) (get (right mode) c) in
  add leftContribution rightContribution.

(** "clamped to [0,255]" *)
Definition clamp (q : Q) : Q :=
  if Qle_bool q 0 then 0%Q else if Qle_bool 255 q then 255%Q else q.

(** "rounded to an integer": to the nearest one, to the even one of two
    equally near. *)
Definition round_to_integer (q : Q) : Z :=
  let f := Qfloor q in
  match (q - inject_Z f ?= 1 # 2)%Q with
  | Lt => f
  | Eq => if Z.even f then f else f + 1
  | Gt => f + 1
  end.

(** Step 5's storage of a sum: its value clamped and rounded; an infinite
    sum is clamped to the nearer end, and one that is not a number is
    stored as 0. *)
Definition spec_store (x : Number) : Z :=
  match x with
  | S754_nan => 0
  | S754_infinity s => if s then 0 else 255
  | _ => round_to_integer (clamp (value x))
  end.

(** The pixel at position [p] of an RGBA buffer, as numbers. *)
Definition pixel_at (a : list Z) (p : nat) : Number * Number * Number :=
  (get a (4 * p), get a (4 * p + 1), get a (4 * p + 2)).

(** ** The page state the frame cycle reads and writes *)

(** Calls into the platform that the cycle makes, recorded in order. *)
Inductive Call : Type :=
  | DrawImage (sx sy sw sh : Q) (dx dy dw dh : Z)
  | GetImageData (sx sy sw sh : Z)
  | PutImageData (dx dy : Z)
  | RequestAnimationFrame (handle : positive)
  | CancelAnimationFrame (handle : positive).

(** The script's own variables. A request handle is a positive integer, so
    [!animationFrameId] holds exactly when the variable is [null]. *)
Record Script : Type := {
  animationFrameId : option positive;
  isVideoPlaying : bool;
  anaglyphMode : string
}.

(** The [sourceVideo] media element, with the frame it currently shows. *)
Record Video (Frame : Type) : Type := {
  src : bool;
  paused : bool;
  ended : bool;
  videoWidth : Z;
  videoHeight : Z;
  frame : Frame
}.
Arguments src {Frame}.
Arguments paused {Frame}.
Arguments ended {Frame}.
Arguments videoWidth {Frame}.
Arguments videoHeight {Frame}.
Arguments frame {Frame}.

(** The [outputCanvas] element with its RGBA bitmap. *)
Record Canvas : Type := {
  width : Z;
  height : Z;
  pixels : list Z
}.

(** The part of the event loop the script depends on: the animation-frame
    callbacks waiting for the next refresh (every one of them is
    [processFrame]), the next handle to give out, and the promises of
    [play()] not yet settled ([true]: will be fulfilled). *)
Record EventLoop : Type := {
  callbacks : list positive;
  next_handle : positive;
  promises : list bool
}.

Record World (Frame : Type) : Type := {
  script : Script;
  sourceVideo : Video Frame;
  outputCanvas : Canvas;
  eventLoop : EventLoop;
  log : list Call
}.
Arguments script {Frame}.
Arguments sourceVideo {Frame}.
Arguments outputCanvas {Frame}.
Arguments eventLoop {Frame}.
Arguments log {Frame}.

Section Cycle.

Variable Frame : Type.

(** The platform's sampling of a source rectangle of a video frame at a
    destination size, as RGBA bytes. *)
Variable render : Frame -> Q -> Q -> Q -> Q -> Z -> Z -> list Z.

Abbreviation World := (World Frame).

Definition with_script (s : Script) (w : World) : World :=
  {| script := s; sourceVideo := sourceVideo w; outputCanvas := outputCanvas w;
     eventLoop := eventLoop w; log := log w |}.
Definition with_video (v : Video Frame) (w : World) : World :=
  {| script := script w; sourceVideo := v; outputCanvas := outputCanvas w;
     eventLoop := eventLoop w; log := log w |}.
Definition with_canvas (c : Canvas) (w : World) : World :=
  {| script := script w; sourceVideo := sourceVideo w; outputCanvas := c;
     eventLoop := eventLoop w; log := log w |}.
Definition with_eventLoop (l : EventLoop) (w : World) : World :=
  {| script := script w; sourceVideo := sourceVideo w; outputCanvas := outputCanvas w;
     eventLoop := l; log := log w |}.
Definition logged (c : Call) (w : World) : World :=
  {| script := script w; sourceVideo := sourceVideo w; outputCanvas := outputCanvas w;
     eventLoop := eventLoop w; log := log w ++ [c] |}.

Definition set_animationFrameId (id : option positive) (w : World) : World :=
  with_script {| animationFrameId := id; isVideoPlaying := isVideoPlaying (script w);
                 anaglyphMode := anaglyphMode (script w) |} w.
Definition set_isVideoPlaying (b : bool) (w : World) : World :=
  with_script {| animationFrameId := animationFrameId (script w); isVideoPlaying := b;
                 anaglyphMode := anaglyphMode (script w) |} w.
Definition set_anaglyphMode (m : string) (w : World) : World :=
  with_script {| animationFrameId := animationFrameId (script w);
                 isVideoPlaying := isVideoPlaying (script w); anaglyphMode := m |} w.
Definition set_pixels (p : list Z) (w : World) : World :=
  with_canvas {| width := width (outputCanvas w); height := height (outputCanvas w);
                 pixels := p |} w.

(** [requestAnimationFrame(processFrame)]: a fresh handle, one more
    callback waiting. *)
Definition requestAnimationFrame (w : World) : World * positive :=
  let l := eventLoop w in
  let handle := next_handle l in
  (logged (RequestAnimationFrame handle)
     (with_eventLoop {| callbacks := callbacks l ++ [handle];
                        next_handle := Pos.succ handle;
                        promises := promises l |} w),
   handle).

(** [cancelAnimationFrame(handle)]: the callback, if still waiting, is
    removed. *)
Definition cancelAnimationFrame (handle : positive) (w : World) : World :=
  let l := eventLoop w in
  logged (CancelAnimationFrame handle)
    (with_eventLoop {| callbacks := filter (fun h => h <> handle) (callbacks l);
                       next_handle := next_handle l;
                       promises := promises l |} w).

(** [ctx.drawImage(sourceVideo, sx, sy, sw, sh, 0, 0, width, height)] onto
    the whole canvas; nothing is drawn from an empty source rectangle. *)
Definition drawImage (sx sy sw sh : Q) (dx dy dw dh : Z) (w : World) : World :=
  let w' := logged (DrawImage sx sy sw sh dx dy dw dh) w in
  if Qeq_bool sw 0 || Qeq_bool sh 0 then w'
  else set_pixels (render (frame (sourceVideo w)) sx sy sw sh dw dh) w'.

(** [ctx.getImageData(0, 0, width, height)]: a copy of the bitmap. *)
Definition getImageData (sx sy sw sh : Z) (w : World) : World * list Z :=
  (logged (GetImageData sx sy sw sh) w, pixels (outputCanvas w)).

(** [ctx.putImageData(data, 0, 0)] *)
Definition putImageData (data : list Z) (dx dy : Z) (w : World) : World :=
  set_pixels data (logged (PutImageData dx dy) w).

(** ** The frame cycle *)

(** How a call of a handler ends: it returns, or a [TypeError] escapes
    it. *)
Inductive Completion : Type := Returned | TypeError.

(** The end of a full iteration: the buffer is put back and the next frame
    requested. *)
Definition put_and_reschedule (leftPixels : list Z) (w : World) : World :=
  let w := putImageData leftPixels 0 0 w in
  let '(w, id) := requestAnimationFrame w in
  set_animationFrameId (Some id) w.

(** A call of [processFrame]: the page it leaves and how it ends. With a
    member of the prototype for [mode], the guard [!mode] lets the call
    through and the first iteration of the loop throws at [mode.left[0]],
    [mode.left] being [undefined]: nothing is stored, put back or requested.
    The status line and the button icon, which the handlers below also
    update, are left out: nothing reads them. *)
Definition processFrame_call (w : World) : World * Completion :=
  if paused (sourceVideo w) || ended (sourceVideo w) then
    (set_animationFrameId None w, Returned)
  else
    let width := width (outputCanvas w) in
    let height := height (outputCanvas w) in
    let sourceWidth := videoWidth (sourceVideo w) in
    let mode := ANAGLYPH_MODES_get (anaglyphMode (script w)) in
    if match mode with undefined => true | _ => false end
       || (width =? 0) || (height =? 0) then
      let '(w, id) := requestAnimationFrame w in
      (set_animationFrameId (Some id) w, Returned)
    else
      let w := drawImage 0 0 (inject_Z sourceWidth / 2) (inject_Z height)
                         0 0 width height w in
      let '(w, leftPixels) := getImageData 0 0 width height w in
      let w := drawImage (inject_Z sourceWidth / 2) 0
                         (inject_Z sourceWidth / 2) (inject_Z height)
                         0 0 width height w in
      let '(w, rightPixels) := getImageData 0 0 width height w in
      match mode with
      | preset mode =>
          let leftPixels := anaglyph_conversion mode leftPixels rightPixels in
          (put_and_reschedule leftPixels w, Returned)
      | inherited | undefined =>
          match leftPixels with
          | [] => (put_and_reschedule leftPixels w, Returned)
          | _ :: _ => (w, TypeError)
          end
      end.

(** The page after the call, however it ended. *)
Definition processFrame (w : World) : World := (processFrame_call w).1.

(** ** Playback control *)

(** [sourceVideo.play()]: when the platform allows it the element stops
    being paused (and restarts if it had ended); the returned promise
    settles later. *)
Definition play (allowed : bool) (w : World) : World :=
  let v := sourceVideo w in
  let l := eventLoop w in
  let w := with_eventLoop {| callbacks := callbacks l; next_handle := next_handle l;
                             promises := promises l ++ [allowed] |} w in
  if allowed then
    with_video {| src := src v; paused := false; ended := false;
                  videoWidth := videoWidth v; videoHeight := videoHeight v;
                  frame := frame v |} w
  else w.

(** [sourceVideo.pause()]: the element is paused and the promises of
    [play()] still waiting are rejected. *)
Definition pause (w : World) : World :=
  let v := sourceVideo w in
  let l := eventLoop w in
  with_video {| src := src v; paused := true; ended := ended v;
                videoWidth := videoWidth v; videoHeight := videoHeight v;
                frame := frame v |}
    (with_eventLoop {| callbacks := callbacks l; next_handle := next_handle l;
                       promises := map (fun _ => false) (promises l) |} w).

(** [attemptPlayback()] up to the call of [play()]; its two callbacks
    follow. *)
Definition attemptPlayback (allowed : bool) (w : World) : World := play allowed w.

(** [.then(() => { ... })] *)
Definition attemptPlayback_then (w : World) : World :=
  let w := set_isVideoPlaying true w in
  match animationFrameId (script w) with
  | None =>
      let '(w, id) := requestAnimationFrame w in
      set_animationFrameId (Some id) w
  | Some _ => w
  end.

(** [.catch(e => { ... })] *)
Definition attemptPlayback_catch (w : World) : World := set_isVideoPlaying false w.

Definition togglePlayback (allowed : bool) (w : World) : World :=
  if negb (src (sourceVideo w)) then w
  else if paused (sourceVideo w) then attemptPlayback allowed w
  else set_isVideoPlaying false (pause w).

(** The [change] handler of the file input, for a chosen file: the waiting
    frame request is cancelled and the new source loaded. *)
Definition videoInput_change (w : World) : World :=
  let w := match animationFrameId (script w) with
           | Some id => cancelAnimationFrame id w
           | None => w
           end in
  let v := sourceVideo w in
  let l := eventLoop w in
  with_video {| src := true; paused := true; ended := false;
                videoWidth := 0; videoHeight := 0; frame := frame v |}
    (with_eventLoop {| callbacks := callbacks l; next_handle := next_handle l;
                       promises := map (fun _ => false) (promises l) |} w).

(** [sourceVideo.onloadedmetadata]: the canvas takes one eye's size (a
    fractional width is truncated by the [width] attribute) and is
    cleared. *)
Definition onloadedmetadata (originalWidth originalHeight : Z) (f : Frame) (w : World)
  : World :=
  let v := sourceVideo w in
  with_canvas {| width := originalWidth / 2; height := originalHeight;
                 pixels := replicate (Z.to_nat (4 * (originalWidth / 2) * originalHeight)) 0 |}
    (with_video {| src := src v; paused := paused v; ended := ended v;
                   videoWidth := originalWidth; videoHeight := originalHeight;
                   frame := f |} w).

(** ** Events *)

(** What can happen to the page: the user's actions, the media element's
    notifications, the settlement of the oldest waiting [play()] promise and
    the display refresh.  [allowed] is the platform's answer, should the
    handler call [play()]. The two media handlers exist once a file has been
    chosen. *)
Inductive Event : Type :=
  | FileChosen
  | LoadedMetadata (originalWidth originalHeight : Z) (f : Frame)
  | CanPlay (allowed : bool)
  | PlayPauseClick (allowed : bool)
  | PromiseSettled
  | AnimationFrame
  | FrameDecoded (f : Frame)
  | PlaybackEnded
  | ModeClick (mode : string).

Definition step (w : World) (e : Event) : World :=
  match e with
  | FileChosen => videoInput_change w
  | LoadedMetadata ow oh f =>
      if src (sourceVideo w) then onloadedmetadata ow oh f w else w
  | CanPlay allowed =>
      if src (sourceVideo w) then attemptPlayback allowed w else w
  | PlayPauseClick allowed => togglePlayback allowed w
  | PromiseSettled =>
      let l := eventLoop w in
      match promises l with
      | [] => w
      | fulfilled :: rest =>
          let w := with_eventLoop {| callbacks := callbacks l;
                                     next_handle := next_handle l;
                                     promises := rest |} w in
          if fulfilled then attemptPlayback_then w else attemptPlayback_catch w
      end
  | AnimationFrame =>
      let l := eventLoop w in
      let due := callbacks l in
      let w := with_eventLoop {| callbacks := []; next_handle := next_handle l;
                                 promises := promises l |} w in
      (* an exception that escapes a callback is reported; the callbacks
         after it still run *)
      foldl (fun w _ => processFrame w) w due
  | FrameDecoded f =>
      (* playback advances: the element shows another frame *)
      let v := sourceVideo w in
      with_video {| src := src v; paused := paused v; ended := ended v;
                    videoWidth := videoWidth v; videoHeight := videoHeight v;
                    frame := f |} w
  | PlaybackEnded =>
      (* the end of the stream is reached while playing: the element
         becomes ended and paused *)
      let v := sourceVideo w in
      if paused v then w
      else pause (with_video {| src := src v; paused := paused v; ended := true;
                                videoWidth := videoWidth v; videoHeight := videoHeight v;
                                frame := frame v |} w)
  | ModeClick m => set_anaglyphMode m w
  end.

Definition run (w : World) (events : list Event) : World := foldl step w events.

(** The page once loaded ([window.onload] has painted the canvas
    [#1a1a2e]): nothing playing, the Red/Cyan preset selected, no request
    waiting. *)
Definition initial (f : Frame) (canvasWidth canvasHeight : Z) : World :=
  {| script := {| animationFrameId := None; isVideoPlaying := false;
                  anaglyphMode := "red_cyan" |};
     sourceVideo := {| src := false; paused := true; ended := false;
                       videoWidth := 0; videoHeight := 0; frame := f |};
     outputCanvas := {| width := canvasWidth; height := canvasHeight;
                        pixels := concat (replicate (Z.to_nat (canvasWidth * canvasHeight))
                                                    [26; 26; 46; 255]) |};
     eventLoop := {| callbacks := []; next_handle := 1; promises := [] |};
     log := [] |}.

(** The requests for a frame callback that are outstanding. *)
Definition outstanding (w : World) : nat := length (callbacks (eventLoop w)).

End Cycle.

Arguments processFrame_call {Frame} render w.
Arguments processFrame {Frame} render w.
Arguments put_and_reschedule {Frame} leftPixels w.
Arguments drawImage {Frame} render sx sy sw sh dx dy dw dh w.
Arguments getImageData {Frame} sx sy sw sh w.
Arguments step {Frame} render w e.
Arguments run {Frame} render w events.
Arguments initial {Frame} f canvasWidth canvasHeight.
Arguments outstanding {Frame} w.
Arguments set_animationFrameId {Frame} id w.
Arguments set_isVideoPlaying {Frame} b w.
Arguments requestAnimationFrame {Frame} w.
Arguments cancelAnimationFrame {Frame} handle w.
Arguments attemptPlayback {Frame} allowed w.
Arguments attemptPlayback_then {Frame} w.
Arguments attemptPlayback_catch {Frame} w.
Arguments togglePlayback {Frame} allowed w.
Arguments videoInput_change {Frame} w.
Arguments FileChosen {Frame}.
Arguments LoadedMetadata {Frame} originalWidth originalHeight f.
Arguments CanPlay {Frame} allowed.
Arguments PlayPauseClick {Frame} allowed.
Arguments PromiseSettled {Frame}.
Arguments AnimationFrame {Frame}.
Arguments FrameDecoded {Frame} f.
Arguments PlaybackEnded {Frame}.
Arguments ModeClick {Frame} mode.

(** [z/2] as a number, for the half-integers of the examples. *)
Definition half (z : Z) : Number := binary_normalize prec emax z (-1) false.

(** [x] lies within 1/2 of [twice/2]. *)
Definition near (x : Number) (twice : Z) : bool :=
  leb (half (twice - 1)) x && leb x (half (twice + 1)).

(** The nearest integer, ties to even, of a nonnegative number: the
    rounding of [ToUint8Clamp] without its clamping. *)
Definition nearest_integer (x : Number) : Z :=
  match x with
  | S754_finite false m e =>
      if 0 <=? e then Z.pos m * 2 ^ e else round_half_even (Z.pos m) (- e)
  | _ => 0
  end.

(** The outputs of the loop body at offset [i] of a buffer. *)
Definition outputs_at (mode : Mode) (rightPixels a : list Z) (i : nat)
  : Number * Number * Number :=
  anaglyph_pixel mode (get a i) (get a (i + 1)) (get a (i + 2))
    (get rightPixels i) (get rightPixels (i + 1)) (get rightPixels (i + 2)).

(** ** Auxiliary notions for the proofs *)

(** Channel [c] of what the loop body computes, in one expression. *)
Definition channel_output (mode : Mode) (c : nat) (L R : Number * Number * Number)
  : Number :=
  let grayL := getGrayscale L.1.1 L.1.2 L.2 in
  let grayR := getGrayscale R.1.1 R.1.2 R.2 in
  add (mul (if is_one (left mode) c then channel c L else grayL) (get (left mode) c))
      (mul (if is_one (right mode) c then grayR else of_Z 0) (get (right mode) c)).

(** What [k] right shifts of the rounding record have made of [M]: the
    quotient, the round bit and the sticky bit. *)
Definition shr_inv (M k : Z) (mrs : shr_record) : Prop :=
  0 <= shr_m mrs /\
  exists t, 2 * M = 2 ^ (k + 1) * shr_m mrs + 2 ^ k * Z.b2z (shr_r mrs) + t
            /\ 0 <= t < 2 ^ k /\ (shr_s mrs = false <-> t = 0).

(** For a weight [w], every product of an 8-bit value with it stays in
    range and below the product of 255. *)
Definition product_table_ok (w : Number) : bool :=
  forallb (fun v => in_channel_range (mul (of_Z v) w)
                    && (units (mul (of_Z v) w) <=? units (mul (of_Z 255) w)))
          (seqZ 0 256).

(** For a weight [w] that stands for [k]/100, every such product is within
    2^-45 of the exact one. *)
Definition product_error_ok (w : Number) (k : Z) : bool :=
  forallb (fun v => Z.abs (100 * units (mul (of_Z v) w) - k * v * 2 ^ 56) <=? 100 * 2 ^ 11)
          (seqZ 0 256).

(** The grayscale formula as the specification words it: the function
    returns exactly the weighted sum. *)
Definition C3_as_stated : Prop :=
  forall r g b : Z,
    is_u8 r = true -> is_u8 g = true -> is_u8 b = true ->
    (value (getGrayscale (of_Z r) (of_Z g) (of_Z b)) == spec_grayscale_exact r g b)%Q.

(** The Red/Cyan example of the specification as it is worded: the green
    and blue outputs are the right pixel's grayscale, "approximately 147.5". *)
Definition C4_as_stated : Prop :=
  exists mode,
    ANAGLYPH_MODES !! "red_cyan" = Some mode
    /\ anaglyph_pixel mode (of_Z 200) (of_Z 50) (of_Z 50) (of_Z 50) (of_Z 200) (of_Z 50)
       = (of_Z 200,
          getGrayscale (of_Z 50) (of_Z 200) (of_Z 50),
          getGrayscale (of_Z 50) (of_Z 200) (of_Z 50))
    /\ near (getGrayscale (of_Z 50) (of_Z 200) (of_Z 50)) 295 = true.

(** ** Scheduling states *)

(** Every waiting callback is the one the script remembers. *)
Definition scheduled_once {Frame : Type} (w : World Frame) : Prop :=
  callbacks (eventLoop w) = []
  \/ exists h, callbacks (eventLoop w) = [h] /\ animationFrameId (script w) = Some h.

(** The script's variable tells exactly which callback waits. *)
Definition tracked {Frame : Type} (w : World Frame) : Prop :=
  callbacks (eventLoop w)
  = match animationFrameId (script w) with
    | Some h => [h]
    | None => []
    end.

(** The events under which the variable stays accurate: no new file, and
    no preset identifier that names a member of the prototype. *)
Definition keeps_track {Frame : Type} (e : Event Frame) : Prop :=
  match e with
  | FileChosen => False
  | ModeClick id => ANAGLYPH_MODES_get id <> inherited
  | _ => True
  end.

(** A platform stub for the examples: every sampled pixel is mid-grey and
    opaque. *)
Definition flat_render (f : unit) (sx sy sw sh : Q) (dw dh : Z) : list Z :=
  concat (replicate (Z.to_nat (dw * dh)) [128; 128; 128; 255]).

(** A video of 4x1 pixels plays; a click on a preset button whose
    [data-mode] is ["constructor"] follows. *)
Definition inherited_name_selected : list (Event unit) :=
  [ FileChosen; LoadedMetadata 4 1 tt; CanPlay true; PromiseSettled;
    ModeClick "constructor" ].

(** A second file chosen while the cycle runs, then a pause and a resume. *)
Definition second_file_then_resume : list (Event unit) :=
  [ FileChosen; LoadedMetadata 4 1 tt; CanPlay true; PromiseSettled;
    AnimationFrame;
    FileChosen; LoadedMetadata 4 1 tt; CanPlay true; PromiseSettled;
    PlayPauseClick true; PlayPauseClick true; PromiseSettled ].

(** ** Seeking *)

(** [Math.max] of two numbers: NaN if either is, and +0 above -0. *)
Definition Math_max (x y : Number) : Number :=
  match SFcompare x y with
  | None => NaN
  | Some Lt => y
  | Some Gt => x
  | Some Eq =>
      match x, y with
      | S754_zero true, S754_zero false => y
      | _, _ => x
      end
  end.

(** [skipVideo(seconds)]: what it assigns to [sourceVideo.currentTime],
    if anything, given whether a source is set and the time read. *)
Definition skipVideo (seconds : Z) (src : bool) (currentTime : Number) : option Number :=
  if src then Some (Math_max (of_Z 0) (add currentTime (of_Z seconds)))
  else None.

(** The [dblclick] handler of the canvas: the right half skips forward, the
    rest backward. [left] and [width] are those of the bounding rectangle. *)
Definition outputCanvas_dblclick (clientX rect_left rect_width : Number)
    (src : bool) (currentTime : Number) : option Number :=
  let clickX := SFsub prec emax clientX rect_left in
  let halfWidth := SFdiv prec emax rect_width (of_Z 2) in
  if SFltb halfWidth clickX then skipVideo 10 src currentTime
  else skipVideo (-10) src currentTime.

(** ** The size of the canvas on screen *)

(** [Math.min] of two numbers: NaN if either is, and -0 below +0. *)
Definition Math_min (x y : Number) : Number :=
  match SFcompare x y with
  | None => NaN
  | Some Lt => x
  | Some Gt => y
  | Some Eq =>
      match x, y with
      | S754_zero false, S754_zero true => y
      | _, _ => x
      end
  end.

Definition lit_0_9 : Number := S754_finite false 8106479329266893 (-53).
Definition lit_0_7 : Number := S754_finite false 6305039478318694 (-53).

(** The two numbers to which [onloadedmetadata] appends ['px'] for the
    stored sizes, given the window's inner size and the native size of the
    stream. The canvas attributes read back as the integers they were set
    to. *)
Definition canvas_css_size (innerWidth innerHeight : Number)
    (originalWidth originalHeight : Z) : Number * Number :=
  let width := of_Z (originalWidth / 2) in
  let height := of_Z originalHeight in
  let maxWidth := mul innerWidth lit_0_9 in
  let maxHeight := mul innerHeight lit_0_7 in
  let ratio := Math_min (SFdiv prec emax maxWidth width)
                        (SFdiv prec emax maxHeight height) in
  (mul width ratio, mul height ratio).

(** ** The full-window view *)

(** What the full-screen handlers read and write: whether the document has
    a full-screen element, the script's flag and stored sizes, and the
    canvas class and inline size. *)
Record View : Type := {
  fullscreenElement : bool;
  isFullscreenSimulated : bool;
  initialCanvasWidthStyle : string;
  initialCanvasHeightStyle : string;
  fullscreen_active : bool;
  style_width : string;
  style_height : string;
  statusText : string
}.

Inductive ViewEvent : Type :=
  | FullscreenClick
  | FullscreenChange (element : bool)
  | MetadataLoaded (widthStyle heightStyle : string).

(** The view when the script starts. *)
Definition view_initial : View :=
  {| fullscreenElement := false; isFullscreenSimulated := false;
     initialCanvasWidthStyle := ""; initialCanvasHeightStyle := "";
     fullscreen_active := false; style_width := ""; style_height := "";
     statusText := "Ready. Please select a video file." |}.

Section View_handlers.

(** Whether the platform's parser takes a string computed by the script
    (a number followed by ['px']) as a length: it does not for ["NaNpx"],
    for one. *)
Variable accepts : string -> bool.

(** The values an assignment to [style.width] or [style.height] takes: the
    empty string, which removes the declaration; the two viewport lengths
    of the source; and what the parser accepts. *)
Definition settable (value : string) : bool :=
  String.eqb value "" || String.eqb value "100vw" || String.eqb value "100vh"
  || accepts value.

(** [outputCanvas.style.width = value] (or [height]) on an inline size
    [current]: a value that does not parse is ignored. *)
Definition style_set (value current : string) : string :=
  if settable value then value else current.

Definition toggleSimulatedFullscreen (enable : bool) (v : View) : View :=
  if enable then
    {| fullscreenElement := fullscreenElement v;
       isFullscreenSimulated := enable;
       initialCanvasWidthStyle := initialCanvasWidthStyle v;
       initialCanvasHeightStyle := initialCanvasHeightStyle v;
       fullscreen_active := true;
       style_width := style_set "100vw" (style_width v);
       style_height := style_set "100vh" (style_height v);
       statusText := statusText v |}
  else
    {| fullscreenElement := fullscreenElement v;
       isFullscreenSimulated := enable;
       initialCanvasWidthStyle := initialCanvasWidthStyle v;
       initialCanvasHeightStyle := initialCanvasHeightStyle v;
       fullscreen_active := false;
       style_width := style_set (initialCanvasWidthStyle v) (style_width v);
       style_height := style_set (initialCanvasHeightStyle v) (style_height v);
       statusText := statusText v |}.

Definition set_statusText (s : string) (v : View) : View :=
  {| fullscreenElement := fullscreenElement v;
     isFullscreenSimulated := isFullscreenSimulated v;
     initialCanvasWidthStyle := initialCanvasWidthStyle v;
     initialCanvasHeightStyle := initialCanvasHeightStyle v;
     fullscreen_active := fullscreen_active v;
     style_width := style_width v; style_height := style_height v;
     statusText := s |}.

(** The [click] handler of the full-screen button. [exitFullscreen()] and
    [requestFullscreen()] only ask the platform, which answers, if it does,
    with a [fullscreenchange] event. *)
Definition fullscreenToggle_click (v : View) : View :=
  if fullscreenElement v then v
  else if isFullscreenSimulated v then
    set_statusText "Exited full-window view." (toggleSimulatedFullscreen false v)
  else
    set_statusText
      "Full-window view active. (Native fullscreen may be blocked by environment)"
      (toggleSimulatedFullscreen true v).

(** The [fullscreenchange] handler of the document. *)
Definition document_fullscreenchange (v : View) : View :=
  if negb (fullscreenElement v) && isFullscreenSimulated v then
    set_statusText "Exited full-window view." (toggleSimulatedFullscreen false v)
  else v.

(** The part of [onloadedmetadata] that sizes the canvas on screen: the two
    computed strings are stored in the variables and assigned to the inline
    size. *)
Definition onloadedmetadata_styles (widthStyle heightStyle : string) (v : View) : View :=
  {| fullscreenElement := fullscreenElement v;
     isFullscreenSimulated := isFullscreenSimulated v;
     initialCanvasWidthStyle := widthStyle;
     initialCanvasHeightStyle := heightStyle;
     fullscreen_active := fullscreen_active v;
     style_width := style_set widthStyle (style_width v);
     style_height := style_set heightStyle (style_height v);
     statusText := "Video loaded. Click the Play button or canvas to start." |}.

(** The platform sets [document.fullscreenElement] before it fires
    [fullscreenchange]. *)
Definition view_step (v : View) (e : ViewEvent) : View :=
  match e with
  | FullscreenClick => fullscreenToggle_click v
  | FullscreenChange element =>
      document_fullscreenchange
        {| fullscreenElement := element;
           isFullscreenSimulated := isFullscreenSimulated v;
           initialCanvasWidthStyle := initialCanvasWidthStyle v;
           initialCanvasHeightStyle := initialCanvasHeightStyle v;
           fullscreen_active := fullscreen_active v;
           style_width := style_width v; style_height := style_height v;
           statusText := statusText v |}
  | MetadataLoaded ws hs => onloadedmetadata_styles ws hs v
  end.

Definition view_run (v : View) (events : list ViewEvent) : View :=
  foldl view_step v events.

(** The windowed layout: no class, and the stored sizes applied, that is,
    taken by the setter and held by the canvas. *)
Definition windowed (v : View) : Prop :=
  isFullscreenSimulated v = false /\ fullscreen_active v = false
  /\ settable (initialCanvasWidthStyle v) = true
  /\ settable (initialCanvasHeightStyle v) = true
  /\ style_width v = initialCanvasWidthStyle v
  /\ style_height v = initialCanvasHeightStyle v.

(** What the handlers keep: the flag tells whether the class is set; the
    canvas holds only sizes the setter takes; and outside the full-window
    view a stored size that the setter takes is the one applied. *)
Definition view_invariant (v : View) : Prop :=
  isFullscreenSimulated v = fullscreen_active v
  /\ settable (style_width v) = true
  /\ settable (style_height v) = true
  /\ (isFullscreenSimulated v = false ->
      (settable (initialCanvasWidthStyle v) = true ->
       style_width v = initialCanvasWidthStyle v)
      /\ (settable (initialCanvasHeightStyle v) = true ->
          style_height v = initialCanvasHeightStyle v)).

End View_handlers.

(** ** Notions for further properties *)

(** A number that is neither NaN nor infinite. *)
Definition is_finite (x : Number) : bool :=
  match x with
  | S754_zero _ | S754_finite _ _ _ => true
  | _ => false
  end.

(** Products with a weight grow with the 8-bit value. *)
Definition product_monotone_ok (w : Number) : bool :=
  forallb (fun v => units (mul (of_Z v) w) <=? units (mul (of_Z (v + 1)) w))
          (seqZ 0 255).

(** Every pixel of an RGBA buffer has its three colour channels equal. *)
Definition gray_image (a : list Z) : Prop :=
  forall (p c : nat) (v : Z),
    (c < 3)%nat -> a !! (4 * p + c)%nat = Some v -> a !! (4 * p)%nat = Some v.

(** A playing page for the examples: one 1x1 eye, the cycle running. *)
Definition playing_page : World unit :=
  {| script := {| animationFrameId := Some 1%positive; isVideoPlaying := true;
                  anaglyphMode := "red_cyan" |};
     sourceVideo := {| src := true; paused := false; ended := false;
                       videoWidth := 2; videoHeight := 1; frame := tt |};
     outputCanvas := {| width := 1; height := 1; pixels := [0; 0; 0; 0] |};
     eventLoop := {| callbacks := [1%positive]; next_handle := 2; promises := [] |};
     log := [] |}.

(** * Properties *)

(** ** Binary64 rounding

    [SpecFloat] computes; it states nothing about what it computes. The
    lemmas of this module relate its rounding of a positive mantissa to
    integer division, and from there give the meaning of the additions and
    multiplications the pixel arithmetic performs. *)

Module Binary64.

Ltac pow2_pos := apply Z.pow_pos_nonneg; lia.
Ltac computed := vm_compute; reflexivity.

(** The literals are the correctly rounded quotients 3/10, 59/100 and
    11/100. *)
Lemma literals_nearest :
  lit_0_3 = SFdiv prec emax (of_Z 3) (of_Z 10)
  /\ lit_0_59 = SFdiv prec emax (of_Z 59) (of_Z 100)
  /\ lit_0_11 = SFdiv prec emax (of_Z 11) (of_Z 100).
Proof. repeat split; computed. Qed.

(** *** Digits *)

Lemma digits2_pos_size p : digits2_pos p = Pos.size p.
Proof. induction p; simpl; congruence. Qed.

Lemma digits2_pos_bounds p :
  2 ^ (Z.pos (digits2_pos p) - 1) <= Z.pos p < 2 ^ Z.pos (digits2_pos p).
Proof.
  rewrite digits2_pos_size. split.
  - pose proof (Pos.size_le p) as H.
    assert (E : 2 ^ Z.pos (Pos.size p) = 2 * 2 ^ (Z.pos (Pos.size p) - 1)).
    { rewrite <- Z.pow_succ_r by lia. f_equal. lia. }
    assert (H' : 2 ^ Z.pos (Pos.size p) <= 2 * Z.pos p).
    { change 2 with (Z.pos 2) at 1. rewrite <- Pos2Z.inj_pow.
      change (2 * Z.pos p) with (Z.pos (p~0)). apply Pos2Z.pos_le_pos. exact H. }
    lia.
  - pose proof (Pos.size_gt p) as H.
    change 2 with (Z.pos 2). rewrite <- Pos2Z.inj_pow. apply Pos2Z.pos_lt_pos. exact H.
Qed.

Lemma digits2_pos_unique p k :
  2 ^ (k - 1) <= Z.pos p < 2 ^ k -> Z.pos (digits2_pos p) = k.
Proof.
  intros [Hl Hu]. pose proof (digits2_pos_bounds p) as [Dl Du].
  set (d := Z.pos (digits2_pos p)) in *.
  assert (0 < k).
  { destruct (Z.lt_trichotomy 0 k) as [Hk|[<-|Hk]]; [assumption| |].
    - rewrite Z.pow_0_r in Hu. lia.
    - rewrite Z.pow_neg_r in Hu by lia. lia. }
  destruct (Z.lt_trichotomy d k) as [Hlt|[Heq|Hgt]]; [|exact Heq|].
  - assert (2 ^ d <= 2 ^ (k - 1)) by (apply Z.pow_le_mono_r; lia). lia.
  - assert (2 ^ k <= 2 ^ (d - 1)) by (apply Z.pow_le_mono_r; lia). lia.
Qed.

(** *** Right shifts of the rounding record *)

Lemma shr_1_inv M k mrs : 0 <= k -> shr_inv M k mrs -> shr_inv M (k + 1) (shr_1 mrs).
Proof.
  intros Hk (Hm & t & E & Ht & Hs).
  assert (P2 : 2 ^ (k + 1) = 2 * 2 ^ k) by (rewrite Z.pow_add_r by lia; lia).
  assert (P4 : 2 ^ (k + 1 + 1) = 4 * 2 ^ k) by (rewrite !Z.pow_add_r by lia; lia).
  assert (P0 : 0 < 2 ^ k) by pow2_pos.
  destruct mrs as [m r s]; simpl in *.
  rewrite P2 in E.
  destruct m as [|[p|p|]|p]; try lia; unfold shr_inv; simpl; (split; [lia|]);
    exists (2 ^ k * Z.b2z r + t); rewrite P2, P4;
    destruct r, s; simpl in *; repeat split; try lia;
    try (intros _; destruct Hs as [Hs _]; specialize (Hs eq_refl); lia);
    try (intros; assert (t = 0) by lia; tauto).
Qed.

Lemma iter_pos_shr_1_inv M p : forall k mrs,
  0 <= k -> shr_inv M k mrs -> shr_inv M (k + Z.pos p) (SpecFloat.iter_pos shr_1 p mrs).
Proof.
  induction p as [p IH|p IH|]; intros k mrs Hk H; simpl.
  - replace (k + Z.pos p~1) with (k + 1 + Z.pos p + Z.pos p) by lia.
    apply IH; [lia|]. apply IH; [lia|]. apply shr_1_inv; assumption.
  - replace (k + Z.pos p~0) with (k + Z.pos p + Z.pos p) by lia.
    apply IH; [lia|]. apply IH; assumption.
  - apply shr_1_inv; assumption.
Qed.

Lemma shr_exact_inv M e n :
  0 <= M -> 0 <= n ->
  shr_inv M n (fst (shr (shr_record_of_loc M loc_Exact) e n))
  /\ snd (shr (shr_record_of_loc M loc_Exact) e n) = e + n.
Proof.
  intros HM Hn.
  assert (I0 : shr_inv M 0 (shr_record_of_loc M loc_Exact)).
  { split; [exact HM|]. exists 0. simpl. repeat split; lia. }
  destruct n as [|p|p]; simpl; try lia.
  - split; [exact I0 | lia].
  - split; [|reflexivity].
    apply (iter_pos_shr_1_inv M p 0 _ (Z.le_refl 0) I0).
Qed.

Lemma round_of_shr_inv M n mrs :
  0 <= n -> shr_inv M n mrs ->
  round_nearest_even (shr_m mrs) (loc_of_shr_record mrs) = round_half_even M n.
Proof.
  intros Hn (Hm & t & E & Ht & Hs).
  assert (P2 : 2 ^ (n + 1) = 2 * 2 ^ n) by (rewrite Z.pow_add_r by lia; lia).
  assert (P0 : 0 < 2 ^ n) by pow2_pos.
  rewrite P2 in E.
  destruct mrs as [m r s]; simpl in *.
  assert (Hr : 0 <= 2 ^ n * Z.b2z r + t < 2 * 2 ^ n) by (destruct r; simpl; lia).
  pose proof (Z.div_mod M (2 ^ n) ltac:(lia)) as D.
  pose proof (Z.mod_pos_bound M (2 ^ n) P0) as B.
  assert (Q : M / 2 ^ n = m) by nia.
  assert (R : 2 * (M mod 2 ^ n) = 2 ^ n * Z.b2z r + t) by (rewrite Q in D; lia).
  unfold round_half_even. rewrite Q, R.
  destruct r, s; simpl Z.b2z; simpl.
  - assert (t <> 0) by (intros ->; destruct Hs as [_ Hs]; specialize (Hs eq_refl); discriminate).
    replace (2 ^ n * 1 + t ?= 2 ^ n) with Gt by (symmetry; apply Z.compare_gt_iff; lia). reflexivity.
  - assert (t = 0) by tauto. subst t.
    replace (2 ^ n * 1 + 0 ?= 2 ^ n) with Eq by (symmetry; apply Z.compare_eq_iff; lia). reflexivity.
  - replace (2 ^ n * 0 + t ?= 2 ^ n) with Lt by (symmetry; apply Z.compare_lt_iff; lia). reflexivity.
  - replace (2 ^ n * 0 + t ?= 2 ^ n) with Lt by (symmetry; apply Z.compare_lt_iff; lia). reflexivity.
Qed.

(** *** Rounding to the nearest, ties to even, on integers *)

Lemma round_half_even_0 N : round_half_even N 0 = N.
Proof.
  unfold round_half_even. rewrite Z.pow_0_r, Z.div_1_r, Z.mod_1_r. reflexivity.
Qed.

Lemma round_half_even_bounds N n :
  N / 2 ^ n <= round_half_even N n <= N / 2 ^ n + 1.
Proof.
  unfold round_half_even.
  destruct (2 * (N mod 2 ^ n) ?= 2 ^ n); [destruct (Z.even _)|..]; lia.
Qed.

Lemma round_half_even_mono N N' n :
  0 <= n -> N <= N' -> round_half_even N n <= round_half_even N' n.
Proof.
  intros Hn HN.
  assert (P0 : 0 < 2 ^ n) by pow2_pos.
  pose proof (Z.div_le_mono N N' (2 ^ n) P0 HN) as Hq.
  destruct (Z.eq_dec (N / 2 ^ n) (N' / 2 ^ n)) as [Eq|Ne].
  - pose proof (Z.div_mod N (2 ^ n) ltac:(lia)) as D.
    pose proof (Z.div_mod N' (2 ^ n) ltac:(lia)) as D'.
    unfold round_half_even. rewrite <- Eq in *.
    destruct (Z.compare_spec (2 * (N mod 2 ^ n)) (2 ^ n));
    destruct (Z.compare_spec (2 * (N' mod 2 ^ n)) (2 ^ n));
    destruct (Z.even (N / 2 ^ n)); lia.
  - pose proof (round_half_even_bounds N n). pose proof (round_half_even_bounds N' n). lia.
Qed.

Lemma round_half_even_shift N n k :
  0 <= n -> 0 <= k -> round_half_even (N * 2 ^ k) (n + k) = round_half_even N n.
Proof.
  intros Hn Hk.
  assert (P0 : 0 < 2 ^ n) by pow2_pos.
  assert (K0 : 0 < 2 ^ k) by pow2_pos.
  unfold round_half_even. rewrite Z.pow_add_r by lia.
  rewrite Z.div_mul_cancel_r by lia.
  rewrite Z.mul_mod_distr_r by lia.
  rewrite Z.mul_assoc.
  rewrite <- (Zmult_compare_compat_r (2 * (N mod 2 ^ n)) (2 ^ n) (2 ^ k)) by lia.
  reflexivity.
Qed.

Lemma quotient_bounds N n :
  0 < N -> n = Z.log2 N + 1 - prec -> 0 <= n ->
  2 ^ 52 <= N / 2 ^ n < 2 ^ 53.
Proof.
  intros HN -> Hn. unfold prec in *.
  pose proof (Z.log2_spec N HN) as [Hl Hu].
  set (n := Z.log2 N + 1 - 53) in *.
  assert (P0 : 0 < 2 ^ n) by pow2_pos.
  replace (Z.log2 N) with (52 + n) in Hl by lia.
  replace (Z.succ (Z.log2 N)) with (53 + n) in Hu by lia.
  rewrite Z.pow_add_r in Hl, Hu by lia.
  split.
  - apply Z.div_le_lower_bound; lia.
  - apply Z.div_lt_upper_bound; lia.
Qed.

Lemma round53_eq N :
  0 <= Z.log2 N + 1 - prec ->
  round53 N = round_half_even N (Z.log2 N + 1 - prec) * 2 ^ (Z.log2 N + 1 - prec).
Proof.
  intros Hn. unfold round53. cbv zeta.
  destruct (Z.leb_spec (Z.log2 N + 1 - prec) 0) as [H|H]; [|reflexivity].
  replace (Z.log2 N + 1 - prec) with 0 by lia.
  rewrite round_half_even_0. lia.
Qed.

(** Rounding to 53 bits is monotone. *)
Lemma round53_mono N N' : 0 <= N <= N' -> round53 N <= round53 N'.
Proof.
  intros [H0 HN].
  destruct (Z.eq_dec N 0) as [->|NZ].
  { destruct (Z.eq_dec N' 0) as [->|NZ']; [lia|].
    change (round53 0) with 0. unfold round53. cbv zeta.
    destruct (Z.leb_spec (Z.log2 N' + 1 - prec) 0); [lia|].
    pose proof (round_half_even_bounds N' (Z.log2 N' + 1 - prec)).
    assert (0 <= N' / 2 ^ (Z.log2 N' + 1 - prec)) by (apply Z.div_pos; [lia|apply Z.pow_pos_nonneg; lia]).
    assert (0 < 2 ^ (Z.log2 N' + 1 - prec)) by pow2_pos. nia. }
  assert (HN0 : 0 < N) by lia. assert (HN0' : 0 < N') by lia.
  pose proof (Z.log2_le_mono N N' HN) as Hlog.
  pose proof (Z.log2_spec N HN0) as [Hl Hu].
  pose proof (Z.log2_spec N' HN0') as [Hl' Hu'].
  remember (Z.log2 N + 1 - prec) as n eqn:En.
  remember (Z.log2 N' + 1 - prec) as n' eqn:En'.
  destruct (Z.le_gt_cases n' 0) as [Hn'|Hn'].
  { unfold round53. cbv zeta. rewrite <- En, <- En'.
    destruct (Z.leb_spec n 0); destruct (Z.leb_spec n' 0); lia. }
  pose proof (quotient_bounds N' n' HN0' En' ltac:(lia)) as [Q1' Q2'].
  pose proof (round_half_even_bounds N' n') as [B1' B2'].
  assert (P0' : 0 < 2 ^ n') by pow2_pos.
  assert (Low' : 2 ^ (Z.log2 N') <= round53 N').
  { rewrite round53_eq by lia. rewrite <- En'.
    replace (Z.log2 N') with (52 + n') by (unfold prec in *; lia).
    rewrite Z.pow_add_r by lia. nia. }
  destruct (Z.le_gt_cases n 0) as [Hn|Hn].
  { assert (round53 N = N) as ->.
    { unfold round53. cbv zeta. rewrite <- En. destruct (Z.leb_spec n 0); lia. }
    assert (2 ^ (Z.succ (Z.log2 N)) <= 2 ^ (Z.log2 N')) by (apply Z.pow_le_mono_r; unfold prec in *; lia).
    lia. }
  pose proof (quotient_bounds N n HN0 En ltac:(lia)) as [Q1 Q2].
  pose proof (round_half_even_bounds N n) as [B1 B2].
  assert (P0 : 0 < 2 ^ n) by pow2_pos.
  destruct (Z.eq_dec n n') as [E|NE].
  - rewrite !round53_eq by lia. rewrite <- En, <- En', <- E.
    apply Z.mul_le_mono_nonneg_r; [lia|].
    apply round_half_even_mono; lia.
  - assert (Up : round53 N <= 2 ^ (Z.succ (Z.log2 N))).
    { rewrite round53_eq by lia. rewrite <- En.
      replace (Z.succ (Z.log2 N)) with (53 + n) by (unfold prec in *; lia).
      rewrite Z.pow_add_r by lia. nia. }
    assert (2 ^ (Z.succ (Z.log2 N)) <= 2 ^ (Z.log2 N')) by (apply Z.pow_le_mono_r; lia).
    lia.
Qed.

Lemma round53_shift N k :
  0 < N -> prec <= Z.log2 N + 1 -> 0 <= k -> round53 (N * 2 ^ k) = round53 N * 2 ^ k.
Proof.
  intros HN Hd Hk.
  assert (L : Z.log2 (N * 2 ^ k) = k + Z.log2 N) by (apply Z.log2_mul_pow2; lia).
  rewrite !round53_eq by lia. rewrite L.
  replace (k + Z.log2 N + 1 - prec) with ((Z.log2 N + 1 - prec) + k) by lia.
  rewrite round_half_even_shift by lia.
  rewrite Z.pow_add_r by lia. ring.
Qed.

Lemma round53_exact N : Z.log2 N + 1 <= prec -> round53 N = N.
Proof.
  intros H. unfold round53. cbv zeta.
  destruct (Z.leb_spec (Z.log2 N + 1 - prec) 0); [reflexivity|lia].
Qed.

Lemma round53_range N :
  0 < N -> 0 <= Z.log2 N + 1 - prec ->
  let n := Z.log2 N + 1 - prec in
  2 ^ 52 <= round_half_even N n <= 2 ^ 53.
Proof.
  intros HN Hn n.
  pose proof (quotient_bounds N n HN eq_refl Hn).
  pose proof (round_half_even_bounds N n). lia.
Qed.

(** Below 2^64 it moves a value by at most 2^10. *)
Lemma round53_error N : 0 <= N < 2 ^ 64 -> Z.abs (round53 N - N) <= 2 ^ 10.
Proof.
  intros [H0 H64]. unfold round53. cbv zeta.
  destruct (Z.leb_spec (Z.log2 N + 1 - prec) 0) as [Hn|Hn].
  { rewrite Z.sub_diag. vm_compute. discriminate. }
  assert (HN : 0 < N).
  { destruct (Z.eq_dec N 0) as [->|]; [|lia]. vm_compute in Hn. discriminate. }
  assert (Hlog : Z.log2 N < 64) by (apply Z.log2_lt_pow2; assumption).
  set (n := Z.log2 N + 1 - prec) in *.
  assert (Hn11 : n - 1 <= 10) by (unfold n, prec in *; lia).
  assert (P : 0 < 2 ^ (n - 1)) by pow2_pos.
  assert (P2 : 2 ^ n = 2 * 2 ^ (n - 1)).
  { rewrite <- Z.pow_succ_r by lia. f_equal. lia. }
  assert (Pm : 2 ^ (n - 1) <= 2 ^ 10) by (apply Z.pow_le_mono_r; lia).
  pose proof (Z.div_mod N (2 ^ n) ltac:(lia)) as D.
  pose proof (Z.mod_pos_bound N (2 ^ n) ltac:(lia)) as B.
  unfold round_half_even.
  destruct (Z.compare_spec (2 * (N mod 2 ^ n)) (2 ^ n)) as [E|E|E];
    [destruct (Z.even (N / 2 ^ n))|..]; lia.
Qed.

(** *** What [binary_round_aux] returns *)

Lemma fexp_normal d e :
  prec <= d -> -1074 <= e -> fexp prec emax (d + e) - e = d - prec.
Proof. unfold fexp, SpecFloat.emin, emax, prec. lia. Qed.

(** On a mantissa of at least 53 bits, away from the exponent limits, the
    result is the normalised number whose value is the rounded mantissa. *)
Lemma binary_round_aux_exact p e :
  let d := Z.pos (digits2_pos p) in
  prec <= d -> -1074 <= e -> e + (d - prec) + 1 <= emax - prec ->
  exists m' e',
    binary_round_aux prec emax false (Z.pos p) e loc_Exact = S754_finite false m' e'
    /\ Z.pos (digits2_pos m') = prec /\ e <= e'
    /\ Z.pos m' * 2 ^ (e' - e) = round53 (Z.pos p).
Proof.
  intros d Hd He Hmax.
  pose proof (digits2_pos_bounds p) as Hb. fold d in Hb.
  assert (Hlog : Z.log2 (Z.pos p) + 1 = d).
  { unfold d. rewrite digits2_pos_size. destruct p; simpl; lia. }
  set (n := d - prec).
  assert (Hn : 0 <= n) by (unfold n; lia).
  unfold binary_round_aux, shr_fexp.
  replace (fexp prec emax (Zdigits2 (Z.pos p) + e) - e) with n
    by (symmetry; apply fexp_normal; assumption).
  destruct (shr_exact_inv (Z.pos p) e n ltac:(lia) Hn) as [I1 E1].
  destruct (shr (shr_record_of_loc (Z.pos p) loc_Exact) e n) as [mrs1 e1].
  simpl in I1, E1. subst e1.
  rewrite (round_of_shr_inv (Z.pos p) n mrs1 Hn I1).
  pose proof (round53_range (Z.pos p) ltac:(lia) ltac:(lia)) as Hr. cbv zeta in Hr.
  rewrite Hlog in Hr. fold n in Hr.
  assert (R53 : round53 (Z.pos p) = round_half_even (Z.pos p) n * 2 ^ n).
  { rewrite round53_eq by lia. rewrite Hlog. reflexivity. }
  set (q := round_half_even (Z.pos p) n) in *.
  destruct (Z.eq_dec q (2 ^ 53)) as [Eq|Ne].
  - rewrite Eq. exists (2 ^ 52)%positive, (e + n + 1).
    change (Zdigits2 (2 ^ 53)) with 54.
    replace (fexp prec emax (54 + (e + n)) - (e + n)) with 1
      by (unfold fexp, SpecFloat.emin, emax, prec in *; lia).
    simpl shr. cbn [shr_m].
    destruct (Z.leb_spec (e + n + 1) (emax - prec)) as [_|H]; [|unfold n in H; lia].
    repeat split; try reflexivity; try lia.
    rewrite R53, Eq. replace (e + n + 1 - e) with (n + 1) by lia.
    rewrite Z.pow_add_r by lia. change (Z.pos (2 ^ 52)) with (2 ^ 52).
    change (2 ^ 53) with (2 ^ 52 * 2 ^ 1). ring.
  - destruct q as [|q'|q'] eqn:Eq'; try (exfalso; lia).
    assert (Dq : Z.pos (digits2_pos q') = prec) by (apply digits2_pos_unique; unfold prec; lia).
    exists q', (e + n).
    cbn [Zdigits2]. rewrite Dq.
    replace (fexp prec emax (prec + (e + n)) - (e + n)) with 0
      by (unfold fexp, SpecFloat.emin, emax, prec in *; lia).
    simpl shr. cbn [shr_m].
    destruct (Z.leb_spec (e + n) (emax - prec)) as [_|H]; [|unfold n in H; lia].
    repeat split; try reflexivity; try lia.
    rewrite R53. f_equal. f_equal. lia.
Qed.

Lemma pos_iter_xO m d : Z.pos (Pos.iter xO m d) = Z.pos m * 2 ^ Z.pos d.
Proof.
  induction d as [|d IH] using Pos.peano_ind.
  - simpl. lia.
  - rewrite Pos.iter_succ, Pos2Z.inj_xO, IH, Pos2Z.inj_succ, Z.pow_succ_r by lia. ring.
Qed.

Lemma shl_align_value m e e' :
  e' <= e -> Z.pos (fst (shl_align m e e')) = Z.pos m * 2 ^ (e - e').
Proof.
  intros H. unfold shl_align.
  destruct (e' - e) as [|d|d] eqn:E; try lia; simpl fst.
  - replace (e - e') with 0 by lia. lia.
  - rewrite pos_iter_xO. f_equal. f_equal. lia.
Qed.

(** *** Numbers in the channel range *)

Lemma in_channel_range_inv x :
  in_channel_range x = true ->
  x = S754_zero false \/
  exists m e, x = S754_finite false m e /\ Z.pos (digits2_pos m) = prec /\ -56 <= e <= -45.
Proof.
  destruct x as [[|]|[|]| |[|] m e]; unfold in_channel_range; try discriminate; auto.
  intros H. right. exists m, e.
  apply andb_prop in H as [H H3]. apply andb_prop in H as [H1 H2].
  apply Z.eqb_eq in H1. apply Z.leb_le in H2, H3. auto.
Qed.

Lemma in_channel_range_finite m e :
  Z.pos (digits2_pos m) = prec -> -56 <= e <= -45 ->
  in_channel_range (S754_finite false m e) = true.
Proof.
  intros H1 [H2 H3]. unfold in_channel_range. rewrite H1, Z.eqb_refl. rewrite andb_true_l.
  apply andb_true_intro; split; apply Z.leb_le; assumption.
Qed.

Lemma mantissa_bounds m : Z.pos (digits2_pos m) = prec -> 2 ^ 52 <= Z.pos m < 2 ^ 53.
Proof. intros H. pose proof (digits2_pos_bounds m) as B. rewrite H in B. exact B. Qed.

Lemma mantissa_log2 m : Z.pos (digits2_pos m) = prec -> Z.log2 (Z.pos m) = 52.
Proof.
  intros H. apply mantissa_bounds in H. apply Z.log2_unique; [lia|].
  change (2 ^ (52 + 1)) with (2 ^ 53). lia.
Qed.

Lemma mantissa_unique m1 e1 m2 e2 :
  Z.pos (digits2_pos m1) = prec -> Z.pos (digits2_pos m2) = prec ->
  0 <= e1 -> 0 <= e2 -> Z.pos m1 * 2 ^ e1 = Z.pos m2 * 2 ^ e2 -> m1 = m2 /\ e1 = e2.
Proof.
  intros D1 D2 H1 H2 E.
  apply mantissa_bounds in D1, D2.
  assert (e1 = e2).
  { destruct (Z.lt_trichotomy e1 e2) as [Hlt|[Heq|Hgt]]; [exfalso|exact Heq|exfalso].
    - replace e2 with (e1 + (e2 - e1)) in E by lia. rewrite Z.pow_add_r in E by lia.
      assert (0 < 2 ^ e1) by pow2_pos.
      assert (2 ^ 1 <= 2 ^ (e2 - e1)) by (apply Z.pow_le_mono_r; lia).
      assert (Z.pos m1 = Z.pos m2 * 2 ^ (e2 - e1)) by (apply (Z.mul_reg_r _ _ (2 ^ e1)); lia).
      change (2 ^ 1) with 2 in *. change (2^53) with (2 * 2 ^ 52) in *. nia.
    - replace e1 with (e2 + (e1 - e2)) in E by lia. rewrite Z.pow_add_r in E by lia.
      assert (0 < 2 ^ e2) by pow2_pos.
      assert (2 ^ 1 <= 2 ^ (e1 - e2)) by (apply Z.pow_le_mono_r; lia).
      assert (Z.pos m2 = Z.pos m1 * 2 ^ (e1 - e2)) by (apply (Z.mul_reg_r _ _ (2 ^ e2)); lia).
      change (2 ^ 1) with 2 in *. change (2^53) with (2 * 2 ^ 52) in *. nia. }
  subst e2. split; [|reflexivity].
  assert (0 < 2 ^ e1) by pow2_pos.
  apply Pos2Z.inj. apply (Z.mul_reg_r _ _ (2 ^ e1)); lia.
Qed.

Lemma units_exact m e :
  Z.pos (digits2_pos m) = prec -> -56 <= e ->
  round53 (Z.pos m * 2 ^ (e + 56)) = Z.pos m * 2 ^ (e + 56).
Proof.
  intros H He. pose proof (mantissa_log2 m H) as L.
  rewrite round53_shift by (unfold prec; lia).
  rewrite round53_exact by (unfold prec; lia). reflexivity.
Qed.

Lemma exponent_from_units m e :
  Z.pos (digits2_pos m) = prec -> Z.pos m * 2 ^ (e + 56) < 2 ^ 64 -> e <= -45.
Proof.
  intros H Hv. apply mantissa_bounds in H.
  destruct (Z.le_gt_cases e (-45)) as [|Hgt]; [assumption|exfalso].
  assert (2 ^ 12 <= 2 ^ (e + 56)) by (apply Z.pow_le_mono_r; lia).
  change (2 ^ 64) with (2 ^ 52 * 2 ^ 12) in Hv. nia.
Qed.

Lemma units_nonneg x : 0 <= units x.
Proof.
  destruct x as [| | |[|] m e]; simpl; lia.
Qed.

(** Addition: the sum of two numbers in the channel range is the exact sum
    of their values, rounded to 53 bits. *)
Lemma add_units x y :
  in_channel_range x = true -> in_channel_range y = true ->
  units x + units y <= 2 ^ 64 - 2 ^ 11 ->
  in_channel_range (add x y) = true /\ units (add x y) = round53 (units x + units y).
Proof.
  intros Hx Hy Hsum.
  apply in_channel_range_inv in Hx as [->|(mx & ex & -> & Dx & Ex)];
  apply in_channel_range_inv in Hy as [->|(my & ey & -> & Dy & Ey)].
  - split; reflexivity.
  - split; [apply in_channel_range_finite; assumption|].
    simpl. symmetry. apply units_exact; lia.
  - split; [apply in_channel_range_finite; assumption|].
    simpl. rewrite Z.add_0_r. symmetry. apply units_exact; lia.
  - cbn [units] in Hsum |- *.
    pose proof (mantissa_bounds mx Dx) as Bx. pose proof (mantissa_bounds my Dy) as By.
    unfold add, SFadd. cbv zeta.
    set (ez := Z.min ex ey).
    assert (Hez : -56 <= ez <= -45) by (unfold ez; lia).
    set (a := fst (shl_align mx ex ez)). set (b := fst (shl_align my ey ez)).
    assert (Ha : Z.pos a = Z.pos mx * 2 ^ (ex - ez)) by (apply shl_align_value; unfold ez; lia).
    assert (Hb : Z.pos b = Z.pos my * 2 ^ (ey - ez)) by (apply shl_align_value; unfold ez; lia).
    assert (Sx : 2 ^ (ex + 56) = 2 ^ (ex - ez) * 2 ^ (ez + 56))
      by (rewrite <- Z.pow_add_r by (unfold ez; lia); f_equal; lia).
    assert (Sy : 2 ^ (ey + 56) = 2 ^ (ey - ez) * 2 ^ (ez + 56))
      by (rewrite <- Z.pow_add_r by (unfold ez; lia); f_equal; lia).
    assert (Hval : Z.pos mx * 2 ^ (ex + 56) + Z.pos my * 2 ^ (ey + 56)
                   = Z.pos (a + b) * 2 ^ (ez + 56)).
    { rewrite Pos2Z.inj_add, Ha, Hb, Sx, Sy. ring. }
    assert (P1 : 1 <= 2 ^ (ez + 56)) by (apply (Z.pow_le_mono_r 2 0); lia).
    assert (Px : 1 <= 2 ^ (ex - ez)) by (apply (Z.pow_le_mono_r 2 0); unfold ez; lia).
    cbn [cond_Zopp Z.add binary_normalize]. fold a b.
    change (Z.pos a + Z.pos b) with (Z.pos (a + b)). cbn [binary_normalize].
    unfold binary_round.
    assert (Blo : 2 ^ 52 <= Z.pos (a + b)) by (rewrite Pos2Z.inj_add, Ha; nia).
    assert (Bhi : Z.pos (a + b) < 2 ^ 64) by nia.
    pose proof (digits2_pos_bounds (a + b)) as Bd.
    set (d := Z.pos (digits2_pos (a + b))) in *.
    assert (Hd : prec <= d <= 64).
    { split.
      - destruct (Z.le_gt_cases prec d); [assumption|exfalso].
        assert (2 ^ d <= 2 ^ 52) by (apply Z.pow_le_mono_r; unfold prec in *; lia). lia.
      - destruct (Z.le_gt_cases d 64); [assumption|exfalso].
        assert (2 ^ 64 <= 2 ^ (d - 1)) by (apply Z.pow_le_mono_r; lia). lia. }
    assert (Hsh : shl_align (a + b) ez (fexp prec emax (d + ez)) = ((a + b)%positive, ez)).
    { unfold shl_align.
      replace (fexp prec emax (d + ez) - ez) with (d - prec) by (symmetry; apply fexp_normal; lia).
      destruct (d - prec) eqn:E; try reflexivity. lia. }
    rewrite Hsh.
    destruct (binary_round_aux_exact (a + b) ez) as (m' & e' & -> & Dm & Le & V).
    { fold d. lia. } { lia. } { fold d. unfold emax, prec in *. lia. }
    assert (Hlog : prec <= Z.log2 (Z.pos (a + b)) + 1).
    { assert (52 <= Z.log2 (Z.pos (a + b))); [|unfold prec; lia].
      apply Z.log2_le_pow2; lia. }
    assert (Vu : Z.pos m' * 2 ^ (e' + 56) = round53 (Z.pos mx * 2 ^ (ex + 56) + Z.pos my * 2 ^ (ey + 56))).
    { rewrite Hval, round53_shift by lia. rewrite <- V.
      rewrite <- Z.mul_assoc, <- Z.pow_add_r by lia. f_equal. f_equal. lia. }
    split; [|exact Vu].
    apply in_channel_range_finite; [exact Dm|]. split; [lia|].
    apply (exponent_from_units m' e' Dm). rewrite Vu.
    apply Z.le_lt_trans with (round53 (2 ^ 64 - 2 ^ 11)).
    + apply round53_mono. split; [|exact Hsum]. lia.
    + vm_compute. reflexivity.
Qed.

(** Multiplication by 1 is exact. *)
Lemma mul_one x : in_channel_range x = true -> mul x (of_Z 1) = x.
Proof.
  intros Hx. apply in_channel_range_inv in Hx as [->|(m & e & -> & D & E)]; [reflexivity|].
  change (of_Z 1) with (S754_finite false (2 ^ 52) (-52)).
  unfold mul, SFmul. cbn [xorb].
  pose proof (mantissa_bounds m D) as B.
  assert (Hp : Z.pos (m * 2 ^ 52) = Z.pos m * 2 ^ 52) by reflexivity.
  assert (Dp : Z.pos (digits2_pos (m * 2 ^ 52)) = 105).
  { apply digits2_pos_unique. rewrite Hp.
    change (2 ^ (105 - 1)) with (2 ^ 52 * 2 ^ 52). change (2 ^ 105) with (2 ^ 53 * 2 ^ 52). lia. }
  destruct (binary_round_aux_exact (m * 2 ^ 52) (e + -52)) as (m' & e' & -> & Dm & Le & V).
  { rewrite Dp. unfold prec. lia. } { lia. } { rewrite Dp. unfold emax, prec. lia. }
  rewrite Hp in V.
  rewrite round53_shift in V by (rewrite ?(mantissa_log2 m D); unfold prec; lia).
  rewrite round53_exact in V by (rewrite (mantissa_log2 m D); unfold prec; lia).
  apply mantissa_unique in V as [-> He]; try assumption; try lia.
  f_equal. lia.
Qed.

Lemma mul_zero x : in_channel_range x = true -> mul x (of_Z 0) = S754_zero false.
Proof.
  intros Hx. apply in_channel_range_inv in Hx as [->|(m & e & -> & _)]; reflexivity.
Qed.

Lemma mul_zero_zero : mul (of_Z 0) (of_Z 0) = S754_zero false.
Proof. computed. Qed.

Lemma add_zero_l x : in_channel_range x = true -> add (S754_zero false) x = x.
Proof.
  intros Hx. apply in_channel_range_inv in Hx as [->|(m & e & -> & _)]; reflexivity.
Qed.

Lemma add_zero_r x : in_channel_range x = true -> add x (S754_zero false) = x.
Proof.
  intros Hx. apply in_channel_range_inv in Hx as [->|(m & e & -> & _)]; reflexivity.
Qed.

Lemma mul_comm x y : mul x y = mul y x.
Proof.
  destruct x as [sx|sx| |sx mx ex], y as [sy|sy| |sy my ey]; unfold mul, SFmul;
    try reflexivity; try (rewrite (xorb_comm sx sy); reflexivity).
  rewrite (xorb_comm sx sy), (Pos.mul_comm mx my), (Z.add_comm ex ey). reflexivity.
Qed.

(** *** Comparison with the ends of the channel range *)

Lemma leb_zero x : in_channel_range x = true -> leb (of_Z 0) x = true.
Proof.
  intros H. apply in_channel_range_inv in H as [->|(m & e & -> & _)]; reflexivity.
Qed.

Lemma of_Z_255 : of_Z 255 = S754_finite false 8972014882652160 (-45).
Proof. computed. Qed.

Lemma leb_255 x :
  in_channel_range x = true -> units x <= 255 * 2 ^ 56 -> leb x (of_Z 255) = true.
Proof.
  intros H U. rewrite of_Z_255.
  apply in_channel_range_inv in H as [->|(m & e & -> & D & E)]; [reflexivity|].
  unfold leb, SFleb, SFcompare. cbn [units] in U.
  destruct (Z.lt_trichotomy e (-45)) as [Hlt|[->|Hgt]]; [| |clear U; lia].
  - rewrite (proj2 (Z.compare_lt_iff e (-45)) Hlt). reflexivity.
  - rewrite Z.compare_refl.
    destruct (Pos.compare_cont Eq m 8972014882652160) eqn:Hc; [reflexivity|reflexivity|].
    exfalso. apply (Pos.compare_gt_iff m 8972014882652160) in Hc.
    apply Pos2Z.pos_lt_pos in Hc.
    assert (K : 255 * 2 ^ 56 = 8972014882652160 * 2 ^ (-45 + 56)) by computed.
    rewrite K in U.
    apply Z.mul_le_mono_pos_r in U; [lia|vm_compute; reflexivity].
Qed.

(** *** The conversion of a store *)

Lemma ToUint8Clamp_range x : 0 <= ToUint8Clamp x <= 255.
Proof.
  destruct x as [s|s| |s m e]; simpl; try lia.
  - destruct s; lia.
  - destruct s; [lia|].
    destruct (Z.leb_spec 0 e).
    + destruct (Z.leb_spec 8 e); [lia|].
      assert (0 < 2 ^ e) by pow2_pos. nia.
    + destruct (Z.leb_spec (255 * 2 ^ (- e)) (Z.pos m)); [lia|].
      assert (0 < 2 ^ (- e)) by pow2_pos.
      pose proof (round_half_even_bounds (Z.pos m) (- e)).
      assert (Z.pos m / 2 ^ (- e) < 255) by (apply Z.div_lt_upper_bound; lia).
      assert (0 <= Z.pos m / 2 ^ (- e)) by (apply Z.div_pos; lia).
      lia.
Qed.

Lemma ToUint8Clamp_u8 x : is_u8 (ToUint8Clamp x) = true.
Proof.
  pose proof (ToUint8Clamp_range x). unfold is_u8.
  apply andb_true_intro; split; apply Z.leb_le; lia.
Qed.

Lemma nearest_integer_clamp x :
  in_channel_range x = true -> units x <= 255 * 2 ^ 56 ->
  ToUint8Clamp x = nearest_integer x.
Proof.
  intros H U. apply in_channel_range_inv in H as [->|(m & e & -> & D & E)]; [reflexivity|].
  cbn [units] in U. unfold ToUint8Clamp, nearest_integer.
  destruct (Z.leb_spec 0 e); [lia|].
  destruct (Z.leb_spec (255 * 2 ^ (- e)) (Z.pos m)) as [Hge | ]; [ | reflexivity].
  assert (P : 0 < 2 ^ (e + 56)) by pow2_pos.
  assert (S : 2 ^ 56 = 2 ^ (- e) * 2 ^ (e + 56))
    by (rewrite <- Z.pow_add_r by lia; f_equal; lia).
  assert (Hm : Z.pos m = 255 * 2 ^ (- e)).
  { apply Z.le_antisymm; [|exact Hge]. rewrite S, Z.mul_assoc in U.
    apply Z.mul_le_mono_pos_r in U; assumption. }
  rewrite Hm. unfold round_half_even.
  assert (P' : 0 < 2 ^ (- e)) by pow2_pos.
  rewrite Z.div_mul, Z.mod_mul by lia.
  replace (2 * 0 ?= 2 ^ (- e)) with Lt by (symmetry; apply Z.compare_lt_iff; lia).
  reflexivity.
Qed.

End Binary64.

Import Binary64.

(** ** The grayscale of 8-bit channels *)

Lemma forall_u8 (P : Z -> bool) :
  forallb P (seqZ 0 256) = true -> forall v, is_u8 v = true -> P v = true.
Proof.
  intros H v Hv. rewrite forallb_forall in H. apply H.
  apply list_elem_of_In, elem_of_seqZ.
  unfold is_u8 in Hv. apply andb_prop in Hv as [H1 H2].
  apply Z.leb_le in H1, H2. lia.
Qed.

Lemma product_table w v :
  product_table_ok w = true -> is_u8 v = true ->
  in_channel_range (mul (of_Z v) w) = true
  /\ units (mul (of_Z v) w) <= units (mul (of_Z 255) w).
Proof.
  intros Hw Hv. apply (forall_u8 _ Hw) in Hv.
  apply andb_prop in Hv as [H1 H2]. apply Z.leb_le in H2. auto.
Qed.

Lemma product_table_0_3 : product_table_ok lit_0_3 = true.
Proof. computed. Qed.

Lemma product_table_0_59 : product_table_ok lit_0_59 = true.
Proof. computed. Qed.

Lemma product_table_0_11 : product_table_ok lit_0_11 = true.
Proof. computed. Qed.

Lemma of_Z_u8 v :
  is_u8 v = true ->
  in_channel_range (of_Z v) = true /\ units (of_Z v) = v * 2 ^ 56
  /\ ToUint8Clamp (of_Z v) = v.
Proof.
  intros Hv.
  apply (forall_u8 (fun v => in_channel_range (of_Z v) && (units (of_Z v) =? v * 2 ^ 56)
                             && (ToUint8Clamp (of_Z v) =? v))) in Hv.
  - apply andb_prop in Hv as [H H3]. apply andb_prop in H as [H1 H2].
    apply Z.eqb_eq in H2, H3. auto.
  - vm_compute. reflexivity.
Qed.

(** The grayscale of 8-bit channels is a number of the channel range, at
    most 255: each product is below the product of 255, and rounding is
    monotone. *)
Lemma getGrayscale_range r g b :
  is_u8 r = true -> is_u8 g = true -> is_u8 b = true ->
  in_channel_range (getGrayscale (of_Z r) (of_Z g) (of_Z b)) = true
  /\ units (getGrayscale (of_Z r) (of_Z g) (of_Z b)) <= 255 * 2 ^ 56.
Proof.
  intros Hr Hg Hb. unfold getGrayscale.
  destruct (product_table _ r product_table_0_3 Hr) as [GA UA].
  destruct (product_table _ g product_table_0_59 Hg) as [GB UB].
  destruct (product_table _ b product_table_0_11 Hb) as [GC UC].
  set (A := mul (of_Z r) lit_0_3) in *.
  set (B := mul (of_Z g) lit_0_59) in *.
  set (C := mul (of_Z b) lit_0_11) in *.
  set (A' := units (mul (of_Z 255) lit_0_3)) in *.
  set (B' := units (mul (of_Z 255) lit_0_59)) in *.
  set (C' := units (mul (of_Z 255) lit_0_11)) in *.
  pose proof (units_nonneg A) as HA.
  pose proof (units_nonneg B) as HB.
  pose proof (units_nonneg C) as HC.
  assert (E1 : A' + B' <= 2 ^ 64 - 2 ^ 11) by (vm_compute; discriminate).
  destruct (add_units A B GA GB ltac:(lia)) as [GS US].
  assert (LS : units (add A B) <= round53 (A' + B')).
  { rewrite US. apply round53_mono. lia. }
  assert (E2 : round53 (A' + B') + C' <= 2 ^ 64 - 2 ^ 11) by (vm_compute; discriminate).
  pose proof (units_nonneg (add A B)) as HS.
  destruct (add_units (add A B) C GS GC ltac:(lia)) as [GT UT].
  split; [exact GT|].
  rewrite UT.
  apply Z.le_trans with (round53 (round53 (A' + B') + C')).
  - apply round53_mono. lia.
  - vm_compute. discriminate.
Qed.

Lemma product_error w k v :
  product_error_ok w k = true -> is_u8 v = true ->
  Z.abs (100 * units (mul (of_Z v) w) - k * v * 2 ^ 56) <= 100 * 2 ^ 11.
Proof.
  intros Hw Hv. apply (forall_u8 _ Hw) in Hv. apply Z.leb_le in Hv. exact Hv.
Qed.

Lemma product_error_0_3 : product_error_ok lit_0_3 30 = true.
Proof. computed. Qed.

Lemma product_error_0_59 : product_error_ok lit_0_59 59 = true.
Proof. computed. Qed.

Lemma product_error_0_11 : product_error_ok lit_0_11 11 = true.
Proof. computed. Qed.

(** Against the weighted sum over the reals, the computed grayscale of 8-bit
    channels is off by rounding only: by at most 2^-43. *)
Lemma getGrayscale_accuracy r g b :
  is_u8 r = true -> is_u8 g = true -> is_u8 b = true ->
  Z.abs (100 * units (getGrayscale (of_Z r) (of_Z g) (of_Z b))
         - (30 * r + 59 * g + 11 * b) * 2 ^ 56) <= 100 * 2 ^ 13.
Proof.
  intros Hr Hg Hb. unfold getGrayscale.
  destruct (product_table _ r product_table_0_3 Hr) as [GA UA].
  destruct (product_table _ g product_table_0_59 Hg) as [GB UB].
  destruct (product_table _ b product_table_0_11 Hb) as [GC UC].
  pose proof (product_error _ _ r product_error_0_3 Hr) as EA.
  pose proof (product_error _ _ g product_error_0_59 Hg) as EB.
  pose proof (product_error _ _ b product_error_0_11 Hb) as EC.
  set (A := mul (of_Z r) lit_0_3) in *.
  set (B := mul (of_Z g) lit_0_59) in *.
  set (C := mul (of_Z b) lit_0_11) in *.
  set (A' := units (mul (of_Z 255) lit_0_3)) in *.
  set (B' := units (mul (of_Z 255) lit_0_59)) in *.
  set (C' := units (mul (of_Z 255) lit_0_11)) in *.
  pose proof (units_nonneg A) as HA.
  pose proof (units_nonneg B) as HB.
  pose proof (units_nonneg C) as HC.
  assert (E1 : A' + B' <= 2 ^ 64 - 2 ^ 11) by (vm_compute; discriminate).
  destruct (add_units A B GA GB ltac:(lia)) as [GS US].
  assert (LS : units (add A B) <= round53 (A' + B')).
  { rewrite US. apply round53_mono. lia. }
  assert (E2 : round53 (A' + B') + C' <= 2 ^ 64 - 2 ^ 11) by (vm_compute; discriminate).
  pose proof (units_nonneg (add A B)) as HS.
  destruct (add_units (add A B) C GS GC ltac:(lia)) as [GT UT].
  assert (K : 2 ^ 64 - 2 ^ 11 < 2 ^ 64) by computed.
  pose proof (round53_error (units A + units B) ltac:(lia)) as R1.
  pose proof (round53_error (units (add A B) + units C) ltac:(lia)) as R2.
  rewrite <- US in R1. rewrite <- UT in R2.
  change (2 ^ 10) with 1024 in *. change (2 ^ 11) with 2048 in *.
  change (2 ^ 13) with 8192.
  set (T := units (add (add A B) C)) in *.
  set (S := units (add A B)) in *.
  set (P := 2 ^ 56) in *.
  clearbody T S P A' B' C'. clear -EA EB EC R1 R2.
  lia.
Qed.

(** ** The conversion loop *)

Section loop_facts.
Variable mode : Mode.
Variable rightPixels : list Z.

Lemma convert_pixel_length i a : length (convert_pixel mode i a rightPixels) = length a.
Proof.
  unfold convert_pixel. destruct (anaglyph_pixel _ _ _ _ _ _ _) as [[? ?] ?].
  rewrite !length_insert. reflexivity.
Qed.

Lemma convert_pixel_other i a k :
  (k < i \/ i + 3 <= k)%nat -> convert_pixel mode i a rightPixels !! k = a !! k.
Proof.
  intros H. unfold convert_pixel. destruct (anaglyph_pixel _ _ _ _ _ _ _) as [[? ?] ?].
  rewrite !list_lookup_insert_ne by lia. reflexivity.
Qed.

Lemma convert_pixel_channel i a c :
  (c < 3)%nat -> (i + c < length a)%nat ->
  convert_pixel mode i a rightPixels !! (i + c)%nat
  = Some (ToUint8Clamp (channel c (outputs_at mode rightPixels a i))).
Proof.
  intros Hc Hi. unfold convert_pixel, outputs_at.
  destruct (anaglyph_pixel _ _ _ _ _ _ _) as [[Ro Go] Bo].
  destruct c as [|[|[|c]]]; try lia; cbn [channel fst snd].
  - rewrite Nat.add_0_r in *. rewrite !list_lookup_insert_ne by lia.
    apply list_lookup_insert_eq. assumption.
  - rewrite list_lookup_insert_ne by lia.
    apply list_lookup_insert_eq. rewrite length_insert. assumption.
  - apply list_lookup_insert_eq. rewrite !length_insert. assumption.
Qed.

Lemma get_ext a b i : a !! i = b !! i -> get a i = get b i.
Proof. unfold get. intros ->. reflexivity. Qed.

Lemma conversion_loop_length fuel : forall i a,
  length (conversion_loop fuel mode i a rightPixels) = length a.
Proof.
  induction fuel as [|fuel IH]; intros i a; simpl;
    destruct (i <? length a)%nat; try reflexivity.
  rewrite IH. apply convert_pixel_length.
Qed.

Lemma conversion_loop_step fuel i a :
  (i < length a)%nat ->
  conversion_loop (S fuel) mode i a rightPixels
  = conversion_loop fuel mode (i + 4) (convert_pixel mode i a rightPixels) rightPixels.
Proof.
  intros H. simpl. destruct (Nat.ltb_spec i (length a)); [reflexivity|lia].
Qed.

Lemma conversion_loop_before fuel : forall i a k,
  (k < i)%nat -> conversion_loop fuel mode i a rightPixels !! k = a !! k.
Proof.
  induction fuel as [|fuel IH]; intros i a k Hk; simpl;
    destruct (i <? length a)%nat; try reflexivity.
  rewrite IH by lia. apply convert_pixel_other. lia.
Qed.

Lemma conversion_loop_alpha fuel : forall i a k,
  (i mod 4 = 0)%nat -> (k mod 4 = 3)%nat ->
  conversion_loop fuel mode i a rightPixels !! k = a !! k.
Proof.
  induction fuel as [|fuel IH]; intros i a k Hi Hk; simpl;
    destruct (i <? length a)%nat; try reflexivity.
  assert (Hi' : ((i + 4) mod 4 = 0)%nat).
  { replace (i + 4)%nat with (i + 1 * 4)%nat by lia. rewrite Nat.Div0.mod_add. exact Hi. }
  rewrite IH by assumption.
  apply convert_pixel_other.
  pose proof (Nat.div_mod_eq i 4). pose proof (Nat.div_mod_eq k 4). lia.
Qed.

Lemma conversion_loop_channel fuel : forall i a j c,
  (length a - i <= fuel)%nat -> (c < 3)%nat -> (i + 4 * j + c < length a)%nat ->
  conversion_loop fuel mode i a rightPixels !! (i + 4 * j + c)%nat
  = Some (ToUint8Clamp (channel c (outputs_at mode rightPixels a (i + 4 * j)))).
Proof.
  induction fuel as [|fuel IH]; intros i a j c Hf Hc Hi; [lia|].
  rewrite conversion_loop_step by lia.
  destruct j as [|j].
  - rewrite Nat.mul_0_r, Nat.add_0_r in *.
    rewrite conversion_loop_before by lia.
    apply convert_pixel_channel; assumption.
  - replace (i + 4 * S j)%nat with (i + 4 + 4 * j)%nat by lia.
    rewrite IH; rewrite ?convert_pixel_length; try lia.
    unfold outputs_at.
    rewrite !(get_ext (convert_pixel mode i a rightPixels) a)
      by (apply convert_pixel_other; lia).
    reflexivity.
Qed.

Lemma conversion_loop_fuel fuel1 : forall fuel2 i a,
  (length a - i <= fuel1)%nat -> (length a - i <= fuel2)%nat ->
  conversion_loop fuel1 mode i a rightPixels = conversion_loop fuel2 mode i a rightPixels.
Proof.
  induction fuel1 as [|fuel1 IH]; intros fuel2 i a H1 H2.
  - destruct fuel2; simpl; destruct (Nat.ltb_spec i (length a)); try reflexivity; lia.
  - destruct fuel2; simpl; destruct (Nat.ltb_spec i (length a)); try reflexivity; try lia.
    apply IH; rewrite convert_pixel_length; lia.
Qed.

End loop_facts.

(** The grayscale is the specification's weighted sum in the arithmetic of
    the language, whatever the operands. *)
Lemma getGrayscale_spec (R G B : Number) : getGrayscale R G B = spec_grayscale R G B.
Proof.
  unfold getGrayscale, spec_grayscale.
  rewrite (mul_comm R), (mul_comm G), (mul_comm B). reflexivity.
Qed.

Lemma channel_output_spec mode c L R : channel_output mode c L R = spec_output mode c L R.
Proof. unfold channel_output, spec_output. rewrite !getGrayscale_spec. reflexivity. Qed.

(** *** The storage *)

Lemma pow_to_pos k : 0 < k -> Z.pos (2 ^ Z.to_pos k) = 2 ^ k.
Proof.
  intros Hk. rewrite Pos2Z.inj_pow, Z2Pos.id by lia. reflexivity.
Qed.

Lemma round_to_integer_Z n : round_to_integer (inject_Z n) = n.
Proof.
  unfold round_to_integer. rewrite Qfloor_Z.
  replace (inject_Z n - inject_Z n ?= 1 # 2)%Q with Lt; [reflexivity|].
  symmetry. unfold Qcompare, Qminus, Qplus, Qopp, inject_Z. cbn [Qnum Qden].
  apply Z.compare_lt_iff. lia.
Qed.

Lemma round_to_integer_fraction m k :
  0 < k -> round_to_integer (Z.pos m # 2 ^ Z.to_pos k) = round_half_even (Z.pos m) k.
Proof.
  intros Hk. unfold round_to_integer, round_half_even, Qfloor.
  rewrite (pow_to_pos k Hk).
  assert (P : 0 < 2 ^ k) by pow2_pos.
  set (D := 2 ^ k) in *. set (f := Z.pos m / D).
  assert (E : ((Z.pos m # 2 ^ Z.to_pos k) - inject_Z f ?= 1 # 2)%Q
              = (2 * (Z.pos m mod D) ?= D)).
  { unfold Qcompare, Qminus, Qplus, Qopp, inject_Z. cbn [Qnum Qden].
    rewrite Pos.mul_1_r, (pow_to_pos k Hk). fold D.
    rewrite (Z.mod_eq (Z.pos m) D) by lia. fold f.
    f_equal; lia. }
  rewrite E. reflexivity.
Qed.

Lemma clamp_inside q : (0 < q)%Q -> (q < 255)%Q -> clamp q = q.
Proof.
  intros H0 H1. unfold clamp.
  destruct (Qle_bool q 0) eqn:A.
  { apply Qle_bool_iff in A. exfalso. apply (Qlt_not_le _ _ H0 A). }
  destruct (Qle_bool 255 q) eqn:B; [|reflexivity].
  apply Qle_bool_iff in B. exfalso. apply (Qlt_not_le _ _ H1 B).
Qed.

Lemma clamp_below q : (q <= 0)%Q -> clamp q = 0%Q.
Proof. intros H. unfold clamp. apply Qle_bool_iff in H. rewrite H. reflexivity. Qed.

Lemma clamp_above q : (255 <= q)%Q -> clamp q = 255%Q.
Proof.
  intros H. unfold clamp.
  destruct (Qle_bool q 0) eqn:A.
  { apply Qle_bool_iff in A. exfalso.
    assert (K : (255 <= 0)%Q) by (eapply Qle_trans; eassumption).
    revert K. unfold Qle. cbn. lia. }
  apply Qle_bool_iff in H. rewrite H. reflexivity.
Qed.

(** The conversion of a store is the clamping and rounding of the
    specification. *)
Lemma ToUint8Clamp_spec_store x : ToUint8Clamp x = spec_store x.
Proof.
  destruct x as [s | s | | [|] m e]; try reflexivity.
  - (* negative *)
    unfold spec_store. rewrite clamp_below; [reflexivity|].
    unfold value. cbn [cond_Zopp].
    destruct (0 <=? e) eqn:He.
    + unfold Qle, inject_Z. cbn [Qnum Qden]. apply Z.leb_le in He.
      assert (0 < 2 ^ e) by pow2_pos. nia.
    + unfold Qle. cbn [Qnum Qden]. lia.
  - (* positive *)
    unfold ToUint8Clamp, spec_store, value. cbn [cond_Zopp].
    destruct (Z.leb_spec 0 e) as [He | He].
    + assert (P : 0 < 2 ^ e) by pow2_pos.
      destruct (Z.leb_spec 8 e) as [H8 | H8].
      * rewrite clamp_above; [reflexivity|].
        unfold Qle, inject_Z. cbn [Qnum Qden].
        assert (2 ^ 8 <= 2 ^ e) by (apply Z.pow_le_mono_r; lia).
        change (2 ^ 8) with 256 in *. nia.
      * destruct (Z_le_gt_dec 255 (Z.pos m * 2 ^ e)) as [Hb | Hs].
        -- rewrite clamp_above by (unfold Qle, inject_Z; cbn [Qnum Qden]; lia).
           rewrite Z.min_l by lia. reflexivity.
        -- rewrite clamp_inside, round_to_integer_Z;
             [ rewrite Z.min_r by lia; reflexivity
             | unfold Qlt, inject_Z; cbn [Qnum Qden]; nia
             | unfold Qlt, inject_Z; cbn [Qnum Qden]; lia ].
    + assert (Hk : 0 < - e) by lia.
      assert (P : 0 < 2 ^ (- e)) by pow2_pos.
      destruct (Z.leb_spec (255 * 2 ^ (- e)) (Z.pos m)) as [Hb | Hs].
      * rewrite clamp_above; [reflexivity|].
        unfold Qle. cbn [Qnum Qden]. rewrite (pow_to_pos _ Hk). lia.
      * rewrite clamp_inside;
          [ apply eq_sym, round_to_integer_fraction; exact Hk
          | unfold Qlt; cbn [Qnum Qden]; lia
          | unfold Qlt; cbn [Qnum Qden]; rewrite (pow_to_pos _ Hk); lia ].
Qed.

Lemma channel_anaglyph_pixel mode c L R :
  (c < 3)%nat ->
  channel c (anaglyph_pixel mode L.1.1 L.1.2 L.2 R.1.1 R.1.2 R.2) = channel_output mode c L R.
Proof.
  intros Hc. destruct c as [|[|[|c]]]; try lia; reflexivity.
Qed.

Lemma get_lookup (a : list Z) i v : a !! i = Some v -> get a i = of_Z v.
Proof. unfold get. intros ->. reflexivity. Qed.

Lemma anaglyph_conversion_channel mode L R p c :
  (c < 3)%nat -> (4 * p + c < length L)%nat ->
  anaglyph_conversion mode L R !! (4 * p + c)%nat
  = Some (ToUint8Clamp (channel_output mode c (pixel_at L p) (pixel_at R p))).
Proof.
  intros Hc Hi. unfold anaglyph_conversion.
  change (4 * p + c)%nat with (0 + 4 * p + c)%nat.
  rewrite conversion_loop_channel by lia.
  unfold outputs_at. rewrite <- channel_anaglyph_pixel by assumption. reflexivity.
Qed.

Lemma anaglyph_conversion_length mode L R :
  length (anaglyph_conversion mode L R) = length L.
Proof. apply conversion_loop_length. Qed.

Lemma anaglyph_conversion_alpha mode L R p :
  anaglyph_conversion mode L R !! (4 * p + 3)%nat = L !! (4 * p + 3)%nat.
Proof.
  apply conversion_loop_alpha; [reflexivity|].
  rewrite Nat.add_comm, Nat.mul_comm, Nat.Div0.mod_add. reflexivity.
Qed.

(** The fuel given by [anaglyph_conversion] is never what stops the loop. *)
Lemma anaglyph_conversion_fuel mode L R fuel :
  (length L <= fuel)%nat ->
  conversion_loop fuel mode 0 L R = anaglyph_conversion mode L R.
Proof. intros H. apply conversion_loop_fuel; lia. Qed.

Lemma anaglyph_conversion_u8 mode L R :
  Forall (fun v => is_u8 v = true) L ->
  Forall (fun v => is_u8 v = true) (anaglyph_conversion mode L R).
Proof.
  intros HL. rewrite Forall_lookup. intros k v Hk.
  assert (Hlt : (k < length L)%nat).
  { apply lookup_lt_Some in Hk. rewrite anaglyph_conversion_length in Hk. exact Hk. }
  pose proof (Nat.div_mod_eq k 4) as Dk.
  pose proof (Nat.mod_upper_bound k 4 ltac:(lia)) as Bk.
  destruct (decide (k mod 4 = 3)%nat) as [E3|N3].
  - rewrite Dk, E3, anaglyph_conversion_alpha in Hk.
    rewrite Forall_lookup in HL. exact (HL _ _ Hk).
  - rewrite Dk, anaglyph_conversion_channel in Hk by lia.
    injection Hk as <-. apply ToUint8Clamp_u8.
Qed.

Lemma pixel_at_u8 (a : list Z) p :
  Forall (fun v => is_u8 v = true) a -> (4 * p + 2 < length a)%nat ->
  exists x0 x1 x2,
    pixel_at a p = (of_Z x0, of_Z x1, of_Z x2)
    /\ a !! (4 * p)%nat = Some x0 /\ a !! (4 * p + 1)%nat = Some x1
    /\ a !! (4 * p + 2)%nat = Some x2
    /\ is_u8 x0 = true /\ is_u8 x1 = true /\ is_u8 x2 = true.
Proof.
  intros Ha Hp. rewrite Forall_lookup in Ha.
  destruct (lookup_lt_is_Some_2 a (4 * p)) as [x0 E0]; [lia|].
  destruct (lookup_lt_is_Some_2 a (4 * p + 1)) as [x1 E1]; [lia|].
  destruct (lookup_lt_is_Some_2 a (4 * p + 2)) as [x2 E2]; [lia|].
  exists x0, x1, x2. unfold pixel_at.
  rewrite (get_lookup _ _ _ E0), (get_lookup _ _ _ E1), (get_lookup _ _ _ E2).
  repeat split; eauto.
Qed.

(** ** Presets *)

Lemma preset_cases id mode :
  ANAGLYPH_MODES !! id = Some mode ->
  mode = {| left := [1; 0; 0]; right := [0; 1; 1] |}
  \/ mode = {| left := [0; 1; 0]; right := [1; 0; 1] |}
  \/ mode = {| left := [0; 0; 1]; right := [1; 1; 0] |}.
Proof.
  unfold ANAGLYPH_MODES. rewrite !lookup_insert_Some, lookup_empty.
  intros [[_ <-]|[_ [[_ <-]|[_ [[_ <-]|[_ H]]]]]]; auto. discriminate.
Qed.

(** The three presets are all there. *)
Lemma presets_present :
  is_Some (ANAGLYPH_MODES !! "red_cyan")
  /\ is_Some (ANAGLYPH_MODES !! "green_magenta")
  /\ is_Some (ANAGLYPH_MODES !! "blue_yellow").
Proof. repeat split; vm_compute; eauto. Qed.

Lemma preset_masks id mode c :
  ANAGLYPH_MODES !! id = Some mode -> (c < 3)%nat ->
  (is_one (left mode) c = true /\ get (left mode) c = of_Z 1
   /\ is_one (right mode) c = false /\ get (right mode) c = of_Z 0)
  \/ (is_one (left mode) c = false /\ get (left mode) c = of_Z 0
      /\ is_one (right mode) c = true /\ get (right mode) c = of_Z 1).
Proof.
  intros H Hc.
  destruct (preset_cases id mode H) as [-> | [-> | ->]];
    destruct c as [|[|[|c]]]; try lia;
    solve [left; vm_compute; auto | right; vm_compute; auto].
Qed.

Lemma channel_output_left mode c L R :
  is_one (left mode) c = true -> get (left mode) c = of_Z 1 ->
  is_one (right mode) c = false -> get (right mode) c = of_Z 0 ->
  in_channel_range (channel c L) = true ->
  channel_output mode c L R = channel c L.
Proof.
  intros H1 H2 H3 H4 HL. unfold channel_output. cbv zeta.
  rewrite H1, H2, H3, H4, mul_zero_zero, (mul_one _ HL).
  apply add_zero_r. exact HL.
Qed.

Lemma channel_output_right mode c L R :
  is_one (left mode) c = false -> get (left mode) c = of_Z 0 ->
  is_one (right mode) c = true -> get (right mode) c = of_Z 1 ->
  in_channel_range (getGrayscale L.1.1 L.1.2 L.2) = true ->
  channel_output mode c L R
  = add (S754_zero false) (mul (getGrayscale R.1.1 R.1.2 R.2) (of_Z 1)).
Proof.
  intros H1 H2 H3 H4 HL. unfold channel_output. cbv zeta.
  rewrite H1, H2, H3, H4, (mul_zero _ HL). reflexivity.
Qed.

Lemma channel_of_Z c (x0 x1 x2 : Z) :
  channel c (of_Z x0, of_Z x1, of_Z x2)
  = of_Z (match c with O => x0 | S O => x1 | _ => x2 end).
Proof. destruct c as [|[|c]]; reflexivity. Qed.

Lemma channel_u8 c (x0 x1 x2 : Z) :
  is_u8 x0 = true -> is_u8 x1 = true -> is_u8 x2 = true ->
  is_u8 (match c with O => x0 | S O => x1 | _ => x2 end) = true.
Proof. intros; destruct c as [|[|c]]; assumption. Qed.

(** What a preset makes of a pixel whose left channels are 8-bit values:
    the channel its left mask selects passes through, every other channel
    is the right pixel's grayscale. *)
Lemma channel_output_preset id mode c (x0 x1 x2 : Z) R :
  ANAGLYPH_MODES !! id = Some mode -> (c < 3)%nat ->
  is_u8 x0 = true -> is_u8 x1 = true -> is_u8 x2 = true ->
  channel_output mode c (of_Z x0, of_Z x1, of_Z x2) R
  = if is_one (left mode) c
    then of_Z (match c with O => x0 | S O => x1 | _ => x2 end)
    else add (S754_zero false) (mul (getGrayscale R.1.1 R.1.2 R.2) (of_Z 1)).
Proof.
  intros Hm Hc H0 H1 H2.
  destruct (preset_masks id mode c Hm Hc) as [(L1 & L2 & R1 & R2)|(L1 & L2 & R1 & R2)].
  - rewrite channel_output_left by
      (try assumption; rewrite channel_of_Z; apply of_Z_u8, channel_u8; assumption).
    rewrite L1. apply channel_of_Z.
  - rewrite channel_output_right by
      (try assumption; apply getGrayscale_range; assumption).
    rewrite L1. reflexivity.
Qed.

(** ** Main results on the transform *)

(** C1. For every supported preset, every output channel c and every pair of
    left/right input pixels, the value the conversion loop stores in channel
    c of a pixel is leftContribution + rightContribution, clamped to [0,255]
    and rounded to an integer, where leftContribution is (the left pixel's
    raw channel c if left-mask[c] = 1, else the left pixel's luminosity
    grayscale) times left-mask[c] and rightContribution is (the right
    pixel's luminosity grayscale if right-mask[c] = 1, else 0) times
    right-mask[c]. The grayscale is the sum with the weights 0.3, 0.59 and
    0.11 in the arithmetic of the language. *)
Theorem C1_per_pixel_transform id mode (leftPixels rightPixels : list Z) (p c : nat) :
  ANAGLYPH_MODES !! id = Some mode ->
  (c < 3)%nat -> (4 * p + c < length leftPixels)%nat ->
  let stored :=
    spec_store (spec_output mode c (pixel_at leftPixels p) (pixel_at rightPixels p)) in
  anaglyph_conversion mode leftPixels rightPixels !! (4 * p + c)%nat = Some stored
  /\ 0 <= stored <= 255.
Proof.
  intros _ Hc Hi stored. unfold stored.
  rewrite <- channel_output_spec, <- ToUint8Clamp_spec_store. split.
  - apply anaglyph_conversion_channel; assumption.
  - apply ToUint8Clamp_range.
Qed.

Lemma C1_per_pixel_transform_witness :
  let mode := {| left := [1; 0; 0]; right := [0; 1; 1] |} in
  let L := [200; 50; 50; 255] in
  let R := [50; 200; 50; 255] in
  ANAGLYPH_MODES !! "red_cyan" = Some mode
  /\ (1 < 3)%nat /\ (4 * 0 + 1 < length L)%nat
  /\ anaglyph_conversion mode L R !! (4 * 0 + 1)%nat
     = Some (spec_store (spec_output mode 1 (pixel_at L 0) (pixel_at R 0)))
  /\ 0 <= spec_store (spec_output mode 1 (pixel_at L 0) (pixel_at R 0)) <= 255.
Proof.
  intros mode L R.
  assert (H1 : ANAGLYPH_MODES !! "red_cyan" = Some mode) by computed.
  assert (H2 : (1 < 3)%nat) by lia.
  assert (H3 : (4 * 0 + 1 < length L)%nat) by (simpl; lia).
  split; [exact H1|]. split; [exact H2|]. split; [exact H3|].
  exact (C1_per_pixel_transform "red_cyan" mode L R 0 1 H1 H2 H3).
Defined.

(** C2. For all three built-in presets (Red/Cyan, Green/Magenta,
    Blue/Yellow) and every output channel index c, left-mask[c] +
    right-mask[c] = 1: exactly one of the two masks is 1 at each channel. *)
Theorem C2_masks_complementary id mode (c : nat) :
  ANAGLYPH_MODES !! id = Some mode -> (c < 3)%nat ->
  (id = "red_cyan" \/ id = "green_magenta" \/ id = "blue_yellow")
  /\ exists l r : Z,
       left mode !! c = Some l /\ right mode !! c = Some r
       /\ l + r = 1 /\ (l = 0 \/ l = 1) /\ (r = 0 \/ r = 1).
Proof.
  intros H Hc. split.
  - unfold ANAGLYPH_MODES in H. rewrite !lookup_insert_Some, lookup_empty in H.
    destruct H as [[<- _]|[_ [[<- _]|[_ [[<- _]|[_ H]]]]]]; auto. discriminate.
  - destruct (preset_cases id mode H) as [-> | [-> | ->]];
      destruct c as [|[|[|c]]]; try lia;
      cbn [left right lookup list_lookup]; eexists _, _;
      (split; [reflexivity|]); (split; [reflexivity|]); lia.
Qed.

Lemma C2_masks_complementary_witness :
  let mode := {| left := [0; 1; 0]; right := [1; 0; 1] |} in
  ANAGLYPH_MODES !! "green_magenta" = Some mode /\ (2 < 3)%nat
  /\ ("green_magenta" = "red_cyan" \/ "green_magenta" = "green_magenta"
      \/ "green_magenta" = "blue_yellow")
  /\ exists l r : Z,
       left mode !! 2%nat = Some l /\ right mode !! 2%nat = Some r
       /\ l + r = 1 /\ (l = 0 \/ l = 1) /\ (r = 0 \/ r = 1).
Proof.
  intros mode.
  assert (H1 : ANAGLYPH_MODES !! "green_magenta" = Some mode) by computed.
  assert (H2 : (2 < 3)%nat) by lia.
  split; [exact H1|]. split; [exact H2|].
  exact (C2_masks_complementary "green_magenta" mode 2 H1 H2).
Defined.

(** The rational value of a number in the channel range, against its count
    in units of 2^-56. *)
Lemma value_within x (S : Z) :
  in_channel_range x = true ->
  Z.abs (100 * units x - S * 2 ^ 56) <= 100 * 2 ^ 13 ->
  (Qabs (value x - (S # 100)) <= 1 # 2 ^ 43)%Q.
Proof.
  intros Hx H. apply Qabs_Qle_condition.
  apply in_channel_range_inv in Hx as [-> | (m & e & -> & D & E)].
  - cbn [units] in H. unfold value.
    change (2 ^ 56) with 72057594037927936 in H.
    change (2 ^ 13) with 8192 in H.
    split; unfold Qle, Qminus, Qplus, Qopp; cbn [Qnum Qden]; lia.
  - cbn [units] in H. unfold value. cbn [cond_Zopp].
    destruct (Z.leb_spec 0 e) as [K | _]; [lia|].
    assert (Hk : 0 < - e) by lia.
    pose proof (pow_to_pos _ Hk) as Hd.
    set (d := (2 ^ Z.to_pos (- e))%positive) in *.
    assert (Ht : Z.pos d * 2 ^ (e + 56) = 2 ^ 56).
    { rewrite Hd, <- Z.pow_add_r by lia. f_equal. lia. }
    assert (Pt : 0 < 2 ^ (e + 56)) by pow2_pos.
    set (t := 2 ^ (e + 56)) in *.
    change (2 ^ 56) with 72057594037927936 in *.
    change (2 ^ 13) with 8192 in H.
    change (Z.pos (2 ^ 43)) with 8796093022208.
    split; unfold Qle, Qminus, Qplus, Qopp; cbn [Qnum Qden];
      rewrite Pos2Z.inj_mul; clearbody t d; clear Hd Hk D E; nia.
Qed.

(** C3, as stated, fails: grayscale(1,1,1) is 0.9999999999999999, not 1. *)
Lemma C3_counterexample : ~ C3_as_stated.
Proof.
  intros H. specialize (H 1 1 1 eq_refl eq_refl eq_refl).
  revert H. vm_compute. discriminate.
Qed.

(** C3, amended. For every (R,G,B) triple with each component in [0,255],
    the grayscale function returns 0.3 R + 0.59 G + 0.11 B up to the
    rounding of binary64 arithmetic: the value returned differs from that
    sum by at most 2^-43. In particular grayscale(255,255,255) = 255 and
    grayscale(0,0,0) = 0, exactly. *)
Theorem C3_grayscale_within_rounding (r g b : Z) :
  is_u8 r = true -> is_u8 g = true -> is_u8 b = true ->
  (Qabs (value (getGrayscale (of_Z r) (of_Z g) (of_Z b)) - spec_grayscale_exact r g b)
   <= 1 # 2 ^ 43)%Q
  /\ getGrayscale (of_Z 255) (of_Z 255) (of_Z 255) = of_Z 255
  /\ getGrayscale (of_Z 0) (of_Z 0) (of_Z 0) = of_Z 0.
Proof.
  intros Hr Hg Hb. split; [|split; computed].
  destruct (getGrayscale_range r g b Hr Hg Hb) as [G _].
  pose proof (value_within _ _ G (getGrayscale_accuracy r g b Hr Hg Hb)) as K.
  assert (E : (spec_grayscale_exact r g b == (30 * r + 59 * g + 11 * b) # 100)%Q).
  { unfold spec_grayscale_exact, Qeq, Qplus, Qmult, inject_Z. cbn [Qnum Qden]. lia. }
  rewrite E. exact K.
Qed.

Lemma C3_grayscale_within_rounding_witness :
  is_u8 1 = true
  /\ (Qabs (value (getGrayscale (of_Z 1) (of_Z 1) (of_Z 1)) - spec_grayscale_exact 1 1 1)
      <= 1 # 2 ^ 43)%Q
  /\ getGrayscale (of_Z 255) (of_Z 255) (of_Z 255) = of_Z 255
  /\ getGrayscale (of_Z 0) (of_Z 0) (of_Z 0) = of_Z 0.
Proof.
  assert (H : is_u8 1 = true) by reflexivity.
  split; [exact H|].
  exact (C3_grayscale_within_rounding 1 1 1 H H H).
Defined.

(** C4, as stated, fails: grayscale(50,200,50) is 138.5, not about 147.5. *)
Lemma C4_counterexample : ~ C4_as_stated.
Proof.
  intros (mode & _ & _ & H). revert H. vm_compute. discriminate.
Qed.

(** C4, amended. For the left pixel (200,50,50) and the right pixel
    (50,200,50) under the Red/Cyan preset, the output red channel is 200 and
    the output green and blue channels are each grayscale(50,200,50), which
    is 138.5 before integer storage (and is stored as 138). *)
Theorem C4_red_cyan_example :
  exists mode,
    ANAGLYPH_MODES !! "red_cyan" = Some mode
    /\ anaglyph_pixel mode (of_Z 200) (of_Z 50) (of_Z 50) (of_Z 50) (of_Z 200) (of_Z 50)
       = (of_Z 200,
          getGrayscale (of_Z 50) (of_Z 200) (of_Z 50),
          getGrayscale (of_Z 50) (of_Z 200) (of_Z 50))
    /\ getGrayscale (of_Z 50) (of_Z 200) (of_Z 50) = half 277
    /\ near (getGrayscale (of_Z 50) (of_Z 200) (of_Z 50)) 277 = true
    /\ anaglyph_conversion mode [200; 50; 50; 255] [50; 200; 50; 255]
       = [200; 138; 138; 255].
Proof.
  exists {| left := [1; 0; 0]; right := [0; 1; 1] |}.
  repeat split; vm_compute; reflexivity.
Qed.

(** C8. The per-frame transform is a function of the left/right pair and the
    preset alone, and running it again changes nothing: applied a second
    time with the same right image, even to the buffer the first run wrote
    its composite into, it yields the identical composite frame. *)
Theorem C8_transform_idempotent id mode (leftPixels rightPixels : list Z) (n : nat) :
  ANAGLYPH_MODES !! id = Some mode ->
  Forall (fun v => is_u8 v = true) leftPixels ->
  length leftPixels = (4 * n)%nat ->
  anaglyph_conversion mode (anaglyph_conversion mode leftPixels rightPixels) rightPixels
  = anaglyph_conversion mode leftPixels rightPixels.
Proof.
  intros Hm HL Hlen.
  set (out1 := anaglyph_conversion mode leftPixels rightPixels).
  assert (Hlen1 : length out1 = length leftPixels) by apply anaglyph_conversion_length.
  assert (Hu1 : Forall (fun v => is_u8 v = true) out1) by (apply anaglyph_conversion_u8; exact HL).
  apply list_eq. intros k.
  destruct (decide (k < length leftPixels)%nat) as [Hlt|Hge].
  2: { rewrite !lookup_ge_None_2; [reflexivity| |]; rewrite ?anaglyph_conversion_length; lia. }
  pose proof (Nat.div_mod_eq k 4) as Dk.
  pose proof (Nat.mod_upper_bound k 4 ltac:(lia)) as Bk.
  set (p := (k / 4)%nat) in *. set (c := (k mod 4)%nat) in *.
  rewrite Dk.
  destruct (decide (c = 3)%nat) as [E3|N3].
  { rewrite E3. apply anaglyph_conversion_alpha. }
  assert (Hc : (c < 3)%nat) by lia.
  rewrite (anaglyph_conversion_channel mode out1 rightPixels p c Hc) by lia.
  unfold out1 at 2.
  rewrite (anaglyph_conversion_channel mode leftPixels rightPixels p c Hc) by lia.
  f_equal. f_equal.
  destruct (pixel_at_u8 leftPixels p HL ltac:(lia)) as (x0 & x1 & x2 & EL & _ & _ & _ & U0 & U1 & U2).
  destruct (pixel_at_u8 out1 p Hu1 ltac:(lia)) as (y0 & y1 & y2 & E1 & Y0 & Y1 & Y2 & V0 & V1 & V2).
  rewrite EL, E1.
  rewrite (channel_output_preset id mode c y0 y1 y2 _ Hm Hc V0 V1 V2).
  rewrite (channel_output_preset id mode c x0 x1 x2 _ Hm Hc U0 U1 U2).
  destruct (is_one (left mode) c) eqn:Own; [|reflexivity].
  f_equal.
  assert (Own' : forall j, (j < 3)%nat -> is_one (left mode) j = true ->
             out1 !! (4 * p + j)%nat
             = Some (match j with O => x0 | S O => x1 | _ => x2 end)).
  { intros j Hj Oj. unfold out1.
    rewrite (anaglyph_conversion_channel mode leftPixels rightPixels p j Hj) by lia.
    rewrite EL, (channel_output_preset id mode j x0 x1 x2 _ Hm Hj U0 U1 U2), Oj.
    f_equal. apply of_Z_u8, channel_u8; assumption. }
  specialize (Own' c Hc Own).
  destruct c as [|[|[|c]]]; try lia.
  - rewrite Nat.add_0_r in Own'. congruence.
  - congruence.
  - congruence.
Qed.

Lemma C8_transform_idempotent_witness :
  let mode := {| left := [1; 0; 0]; right := [0; 1; 1] |} in
  let L := [200; 50; 50; 255; 1; 2; 3; 4] in
  let R := [50; 200; 50; 255; 9; 9; 9; 9] in
  ANAGLYPH_MODES !! "red_cyan" = Some mode
  /\ Forall (fun v => is_u8 v = true) L
  /\ length L = (4 * 2)%nat
  /\ anaglyph_conversion mode (anaglyph_conversion mode L R) R
     = anaglyph_conversion mode L R.
Proof.
  intros mode L R.
  assert (H1 : ANAGLYPH_MODES !! "red_cyan" = Some mode) by computed.
  assert (H2 : Forall (fun v => is_u8 v = true) L) by (repeat constructor).
  assert (H3 : length L = (4 * 2)%nat) by reflexivity.
  split; [exact H1|]. split; [exact H2|]. split; [exact H3|].
  exact (C8_transform_idempotent "red_cyan" mode L R 2 H1 H2 H3).
Defined.

(** C9. For every pixel position, the conversion loop leaves the
    alpha value of the buffer unchanged: it writes the red, green and blue
    entries only (and never changes the length of the buffer). *)
Theorem C9_alpha_untouched mode (leftPixels rightPixels : list Z) (p : nat) :
  anaglyph_conversion mode leftPixels rightPixels !! (4 * p + 3)%nat
  = leftPixels !! (4 * p + 3)%nat
  /\ length (anaglyph_conversion mode leftPixels rightPixels) = length leftPixels.
Proof.
  split; [apply anaglyph_conversion_alpha | apply anaglyph_conversion_length].
Qed.

(** C10. For every supported preset and every left/right input pixel whose
    channel values all lie in [0,255], each output channel computed by the
    transform already lies in [0,255] before it is stored: exactly one eye
    contributes to it, either a raw channel value or the grayscale of
    in-range channels, so the clamping of the store never changes a value
    and only its rounding to the nearest integer acts. *)
Theorem C10_outputs_in_range id mode (rL gL bL rR gR bR : Z) (c : nat) :
  ANAGLYPH_MODES !! id = Some mode ->
  is_u8 rL = true -> is_u8 gL = true -> is_u8 bL = true ->
  is_u8 rR = true -> is_u8 gR = true -> is_u8 bR = true ->
  (c < 3)%nat ->
  let out :=
    channel c (anaglyph_pixel mode (of_Z rL) (of_Z gL) (of_Z bL)
                                   (of_Z rR) (of_Z gR) (of_Z bR)) in
  leb (of_Z 0) out = true /\ leb out (of_Z 255) = true
  /\ ToUint8Clamp out = nearest_integer out
  /\ (out = channel c (of_Z rL, of_Z gL, of_Z bL)
      \/ out = getGrayscale (of_Z rR) (of_Z gR) (of_Z bR)).
Proof.
  intros Hm HrL HgL HbL HrR HgR HbR Hc out.
  assert (E : out = channel_output mode c (of_Z rL, of_Z gL, of_Z bL) (of_Z rR, of_Z gR, of_Z bR)).
  { unfold out.
    apply (channel_anaglyph_pixel mode c (of_Z rL, of_Z gL, of_Z bL)
                                         (of_Z rR, of_Z gR, of_Z bR) Hc). }
  rewrite (channel_output_preset id mode c rL gL bL _ Hm Hc HrL HgL HbL) in E.
  cbn [fst snd] in E.
  destruct (getGrayscale_range rR gR bR HrR HgR HbR) as [GR UR].
  rewrite (mul_one _ GR), (add_zero_l _ GR) in E.
  assert (R : in_channel_range out = true /\ units out <= 255 * 2 ^ 56).
  { rewrite E. destruct (is_one (left mode) c).
    - destruct (of_Z_u8 _ (channel_u8 c rL gL bL HrL HgL HbL)) as (G & U & _).
      split; [exact G|]. rewrite U.
      pose proof (channel_u8 c rL gL bL HrL HgL HbL) as B. unfold is_u8 in B.
      apply andb_prop in B as [_ B]. apply Z.leb_le in B.
      apply Z.mul_le_mono_nonneg_r; [apply Z.pow_nonneg; lia|exact B].
    - split; assumption. }
  destruct R as [G U].
  split; [apply leb_zero; exact G|].
  split; [apply leb_255; assumption|].
  split; [apply nearest_integer_clamp; assumption|].
  rewrite E. destruct (is_one (left mode) c); [left|right; reflexivity].
  symmetry. apply channel_of_Z.
Qed.

Lemma C10_outputs_in_range_witness :
  let mode := {| left := [0; 0; 1]; right := [1; 1; 0] |} in
  let out := channel 0 (anaglyph_pixel mode (of_Z 255) (of_Z 255) (of_Z 255)
                                            (of_Z 255) (of_Z 255) (of_Z 255)) in
  ANAGLYPH_MODES !! "blue_yellow" = Some mode
  /\ is_u8 255 = true /\ (0 < 3)%nat
  /\ leb (of_Z 0) out = true /\ leb out (of_Z 255) = true
  /\ ToUint8Clamp out = nearest_integer out
  /\ (out = channel 0 (of_Z 255, of_Z 255, of_Z 255)
      \/ out = getGrayscale (of_Z 255) (of_Z 255) (of_Z 255)).
Proof.
  intros mode out.
  assert (H1 : ANAGLYPH_MODES !! "blue_yellow" = Some mode) by computed.
  assert (H2 : is_u8 255 = true) by reflexivity.
  assert (H3 : (0 < 3)%nat) by lia.
  split; [exact H1|]. split; [exact H2|]. split; [exact H3|].
  exact (C10_outputs_in_range "blue_yellow" mode 255 255 255 255 255 255 0
           H1 H2 H2 H2 H2 H2 H2 H3).
Defined.

(** ** The frame cycle *)

(** *** The lookup *)

Lemma get_preset id mode :
  ANAGLYPH_MODES !! id = Some mode -> ANAGLYPH_MODES_get id = preset mode.
Proof. unfold ANAGLYPH_MODES_get. intros ->. reflexivity. Qed.

Lemma get_preset_inv id mode :
  ANAGLYPH_MODES_get id = preset mode -> ANAGLYPH_MODES !! id = Some mode.
Proof.
  unfold ANAGLYPH_MODES_get. destruct (ANAGLYPH_MODES !! id) as [m|].
  - intros [= ->]. reflexivity.
  - destruct (existsb _ _); discriminate.
Qed.

Lemma get_undefined id : ANAGLYPH_MODES_get id = undefined -> ANAGLYPH_MODES !! id = None.
Proof.
  unfold ANAGLYPH_MODES_get. destruct (ANAGLYPH_MODES !! id) as [m|]; [discriminate|reflexivity].
Qed.

Lemma get_inherited id :
  ANAGLYPH_MODES_get id = inherited
  <-> ANAGLYPH_MODES !! id = None /\ In id Object_prototype.
Proof.
  unfold ANAGLYPH_MODES_get. split.
  - destruct (ANAGLYPH_MODES !! id) as [m|]; [discriminate|].
    destruct (existsb (String.eqb id) Object_prototype) eqn:E; [|discriminate].
    intros _. split; [reflexivity|].
    apply existsb_exists in E as (x & Hx & Ex). apply String.eqb_eq in Ex. subst x. exact Hx.
  - intros [-> H].
    replace (existsb (String.eqb id) Object_prototype) with true; [reflexivity|].
    symmetry. apply existsb_exists. exists id. split; [exact H | apply String.eqb_refl].
Qed.

(** The cases of a call, taken in the order of the source. *)
Ltac call_cases w :=
  unfold processFrame, processFrame_call;
  destruct (paused (sourceVideo w) || ended (sourceVideo w)) eqn:?;
  [ | destruct (ANAGLYPH_MODES_get (anaglyphMode (script w))) as [?mode | | ] eqn:?;
      cbn [orb];
      try (destruct ((width (outputCanvas w) =? 0) || (height (outputCanvas w) =? 0)) eqn:?);
      try (unfold drawImage;
           destruct (Qeq_bool (inject_Z (videoWidth (sourceVideo w)) / 2) 0
                     || Qeq_bool (inject_Z (height (outputCanvas w))) 0) eqn:?) ].

Ltac list_cases :=
  repeat match goal with
         | |- context [match ?l with [] => _ | _ :: _ => _ end] => destruct l
         end.

Section cycle_facts.

Context {Frame : Type}.
Variable render : Frame -> Q -> Q -> Q -> Q -> Z -> Z -> list Z.
Implicit Types w : World Frame.

Lemma processFrame_call_stopped w :
  paused (sourceVideo w) || ended (sourceVideo w) = true ->
  processFrame_call render w = (set_animationFrameId None w, Returned).
Proof. intros H. unfold processFrame_call. rewrite H. reflexivity. Qed.

Lemma processFrame_stopped w :
  paused (sourceVideo w) || ended (sourceVideo w) = true ->
  processFrame render w = set_animationFrameId None w.
Proof. intros H. unfold processFrame. rewrite processFrame_call_stopped by exact H. reflexivity. Qed.

Lemma processFrame_call_not_ready w :
  paused (sourceVideo w) = false -> ended (sourceVideo w) = false ->
  (ANAGLYPH_MODES_get (anaglyphMode (script w)) = undefined
   \/ width (outputCanvas w) = 0 \/ height (outputCanvas w) = 0) ->
  processFrame_call render w
  = (set_animationFrameId (Some (next_handle (eventLoop w))) (requestAnimationFrame w).1,
     Returned).
Proof.
  intros Hp He H. unfold processFrame_call. rewrite Hp, He. cbn [orb].
  destruct H as [H | [H | H]]; rewrite H; cbn [Z.eqb orb]; rewrite ?orb_true_r;
    reflexivity.
Qed.

Lemma processFrame_not_ready w :
  paused (sourceVideo w) = false -> ended (sourceVideo w) = false ->
  (ANAGLYPH_MODES_get (anaglyphMode (script w)) = undefined
   \/ width (outputCanvas w) = 0 \/ height (outputCanvas w) = 0) ->
  processFrame render w
  = set_animationFrameId (Some (next_handle (eventLoop w))) (requestAnimationFrame w).1.
Proof.
  intros Hp He H. unfold processFrame.
  rewrite processFrame_call_not_ready by assumption. reflexivity.
Qed.

(** A call that returns on a stream that plays ends with the request for
    the next frame. *)
Lemma processFrame_returned w :
  paused (sourceVideo w) || ended (sourceVideo w) = false ->
  (processFrame_call render w).2 = Returned ->
  let h := next_handle (eventLoop w) in
  callbacks (eventLoop (processFrame render w)) = callbacks (eventLoop w) ++ [h]
  /\ animationFrameId (script (processFrame render w)) = Some h
  /\ last (log (processFrame render w)) = Some (RequestAnimationFrame h).
Proof.
  intros H. call_cases w; try discriminate; cbn;
    repeat match goal with
           | |- context [match ?l with [] => _ | _ :: _ => _ end] => destruct l
           end; cbn; intros R; try discriminate R; rewrite ?last_snoc; auto.
Qed.

(** A call throws only on a stream that plays, for an identifier that
    names a member of the prototype, with a canvas of nonzero size; it
    leaves the handle and the callbacks as they were. *)
Lemma processFrame_thrown w :
  (processFrame_call render w).2 = TypeError ->
  paused (sourceVideo w) || ended (sourceVideo w) = false
  /\ ANAGLYPH_MODES_get (anaglyphMode (script w)) = inherited
  /\ width (outputCanvas w) <> 0 /\ height (outputCanvas w) <> 0
  /\ callbacks (eventLoop (processFrame render w)) = callbacks (eventLoop w)
  /\ animationFrameId (script (processFrame render w)) = animationFrameId (script w).
Proof.
  call_cases w; cbn;
    repeat match goal with
           | |- context [match ?l with [] => _ | _ :: _ => _ end] => destruct l
           end; cbn; intros R; try discriminate R;
    match goal with
    | E : (_ =? 0) || (_ =? 0) = false |- _ =>
        apply orb_false_elim in E as [E1 E2];
        apply Z.eqb_neq in E1, E2
    end; auto 10.
Qed.

Lemma processFrame_no_throw w :
  ANAGLYPH_MODES_get (anaglyphMode (script w)) <> inherited ->
  (processFrame_call render w).2 = Returned.
Proof.
  intros H. destruct ((processFrame_call render w).2) eqn:E; [reflexivity|].
  apply processFrame_thrown in E as (_ & K & _). contradiction.
Qed.

Lemma processFrame_running w :
  paused (sourceVideo w) || ended (sourceVideo w) = false ->
  ANAGLYPH_MODES_get (anaglyphMode (script w)) <> inherited ->
  let h := next_handle (eventLoop w) in
  callbacks (eventLoop (processFrame render w)) = callbacks (eventLoop w) ++ [h]
  /\ animationFrameId (script (processFrame render w)) = Some h
  /\ last (log (processFrame render w)) = Some (RequestAnimationFrame h).
Proof.
  intros H K. apply processFrame_returned; [exact H | apply processFrame_no_throw; exact K].
Qed.

Lemma half_width_nonzero (v : Z) : v <> 0 -> Qeq_bool (inject_Z v / 2) 0 = false.
Proof. intros H. destruct v; [congruence|reflexivity|reflexivity]. Qed.

Lemma height_nonzero (v : Z) : v <> 0 -> Qeq_bool (inject_Z v) 0 = false.
Proof. intros H. destruct v; [congruence|reflexivity|reflexivity]. Qed.

(** What a full iteration leaves on the canvas is a function of the video
    frame, the sizes and the preset: the bitmap it finds there plays no
    part. *)
Lemma processFrame_composite w mode :
  paused (sourceVideo w) || ended (sourceVideo w) = false ->
  ANAGLYPH_MODES !! anaglyphMode (script w) = Some mode ->
  width (outputCanvas w) <> 0 -> height (outputCanvas w) <> 0 ->
  videoWidth (sourceVideo w) <> 0 ->
  let f := frame (sourceVideo w) in
  let sw := (inject_Z (videoWidth (sourceVideo w)) / 2)%Q in
  let h := inject_Z (height (outputCanvas w)) in
  pixels (outputCanvas (processFrame render w))
  = anaglyph_conversion mode
      (render f 0 0 sw h (width (outputCanvas w)) (height (outputCanvas w)))
      (render f sw 0 sw h (width (outputCanvas w)) (height (outputCanvas w))).
Proof.
  intros Hrun Hmode Hw Hh Hv f sw h. unfold processFrame, processFrame_call.
  rewrite Hrun, (get_preset _ _ Hmode).
  apply Z.eqb_neq in Hw, Hh. rewrite Hw, Hh. cbn [orb].
  unfold drawImage. cbn.
  rewrite (half_width_nonzero _ Hv), (height_nonzero _ (proj1 (Z.eqb_neq _ _) Hh)).
  reflexivity.
Qed.

Lemma processFrame_inputs w :
  sourceVideo (processFrame render w) = sourceVideo w
  /\ anaglyphMode (script (processFrame render w)) = anaglyphMode (script w)
  /\ width (outputCanvas (processFrame render w)) = width (outputCanvas w)
  /\ height (outputCanvas (processFrame render w)) = height (outputCanvas w).
Proof.
  call_cases w; cbn;
    repeat match goal with
           | |- context [match ?l with [] => _ | _ :: _ => _ end] => destruct l
           end; repeat split.
Qed.

(** Two iterations on the same video frame leave the same composite as
    one. *)
Lemma processFrame_twice w mode :
  paused (sourceVideo w) || ended (sourceVideo w) = false ->
  ANAGLYPH_MODES !! anaglyphMode (script w) = Some mode ->
  width (outputCanvas w) <> 0 -> height (outputCanvas w) <> 0 ->
  videoWidth (sourceVideo w) <> 0 ->
  pixels (outputCanvas (processFrame render (processFrame render w)))
  = pixels (outputCanvas (processFrame render w)).
Proof.
  intros Hrun Hmode Hw Hh Hv.
  destruct (processFrame_inputs w) as (Ev & Em & Ew & Eh).
  rewrite (processFrame_composite (processFrame render w) mode);
    rewrite ?Ev, ?Em, ?Ew, ?Eh; try assumption.
  symmetry. apply processFrame_composite; assumption.
Qed.

End cycle_facts.

(** ** Scheduling *)

Section scheduling.

Context {Frame : Type}.
Variable render : Frame -> Q -> Q -> Q -> Q -> Z -> Z -> list Z.
Implicit Types w : World Frame.

Lemma processFrame_scheduled_once w :
  callbacks (eventLoop w) = [] -> scheduled_once (processFrame render w).
Proof.
  intros H.
  destruct (paused (sourceVideo w) || ended (sourceVideo w)) eqn:E.
  - rewrite processFrame_stopped by exact E. left. exact H.
  - destruct ((processFrame_call render w).2) eqn:R.
    + destruct (processFrame_returned render w E R) as (C & I & _).
      right. exists (next_handle (eventLoop w)). rewrite C, H. auto.
    + apply processFrame_thrown in R as (_ & _ & _ & _ & C & _).
      left. rewrite C. exact H.
Qed.

Lemma processFrame_tracked w :
  callbacks (eventLoop w) = [] ->
  ANAGLYPH_MODES_get (anaglyphMode (script w)) <> inherited ->
  tracked (processFrame render w).
Proof.
  intros H K. unfold tracked.
  destruct (paused (sourceVideo w) || ended (sourceVideo w)) eqn:E.
  - rewrite processFrame_stopped by exact E. exact H.
  - destruct (processFrame_running render w E K) as (C & I & _).
    rewrite C, I, H. reflexivity.
Qed.

Lemma step_scheduled_once w e : scheduled_once w -> scheduled_once (step render w e).
Proof.
  intros Hw. destruct e; cbn [step].
  - (* FileChosen *)
    unfold videoInput_change, scheduled_once.
    destruct (animationFrameId (script w)) as [id|] eqn:Eid; cbn.
    + left. destruct Hw as [->|(h & -> & Hh)]; [reflexivity|].
      rewrite Eid in Hh. injection Hh as <-.
      cbn. rewrite decide_False by (intros K; apply K; reflexivity). reflexivity.
    + left. destruct Hw as [->|(h & _ & Hh)]; [reflexivity|congruence].
  - destruct (src (sourceVideo w)); exact Hw.
  - unfold attemptPlayback, play.
    destruct (src (sourceVideo w)); [destruct allowed|]; exact Hw.
  - unfold togglePlayback, attemptPlayback, play.
    destruct (negb (src (sourceVideo w))); [exact Hw|].
    destruct (paused (sourceVideo w)); [destruct allowed|]; exact Hw.
  - (* PromiseSettled *)
    destruct (promises (eventLoop w)) as [|[|] rest]; [exact Hw| |exact Hw].
    unfold attemptPlayback_then. cbn.
    destruct (animationFrameId (script w)) as [id|] eqn:Eid; [exact Hw|].
    right. exists (next_handle (eventLoop w)). cbn.
    destruct Hw as [->|(h & _ & Hh)]; [auto|congruence].
  - (* AnimationFrame *)
    destruct Hw as [H|(h & H & _)]; rewrite H; cbn [foldl].
    + left. reflexivity.
    + apply processFrame_scheduled_once. reflexivity.
  - exact Hw.
  - destruct (paused (sourceVideo w)); exact Hw.
  - exact Hw.
Qed.

Lemma run_scheduled_once events : forall w,
  scheduled_once w -> scheduled_once (run render w events).
Proof.
  induction events as [|e events IH]; intros w Hw; [exact Hw|].
  apply IH, step_scheduled_once, Hw.
Qed.

(** In every state the page can reach, at most one request for a frame
    callback is outstanding. *)
Lemma at_most_one_outstanding f canvasWidth canvasHeight events :
  (outstanding (run render (initial f canvasWidth canvasHeight) events) <= 1)%nat.
Proof.
  assert (H0 : scheduled_once (initial f canvasWidth canvasHeight)) by (left; reflexivity).
  destruct (run_scheduled_once events _ H0) as [H|(h & H & _)];
    unfold outstanding; rewrite H; simpl; lia.
Qed.

(** While the script's variable is accurate, it stays so under every
    event except the choice of a new file while a request is recorded and
    a refresh while the selected identifier names a member of the
    prototype. *)
Lemma step_tracked w e :
  tracked w ->
  (e = FileChosen -> animationFrameId (script w) = None) ->
  (e = AnimationFrame -> ANAGLYPH_MODES_get (anaglyphMode (script w)) <> inherited) ->
  tracked (step render w e).
Proof.
  unfold tracked at 1. intros Hw He Ha. destruct e; cbn [step].
  - rewrite (He eq_refl) in Hw. unfold videoInput_change, tracked.
    rewrite (He eq_refl). cbn. rewrite (He eq_refl). exact Hw.
  - destruct (src (sourceVideo w)); exact Hw.
  - unfold attemptPlayback, play.
    destruct (src (sourceVideo w)); [destruct allowed|]; exact Hw.
  - unfold togglePlayback, attemptPlayback, play.
    destruct (negb (src (sourceVideo w))); [exact Hw|].
    destruct (paused (sourceVideo w)); [destruct allowed|]; exact Hw.
  - destruct (promises (eventLoop w)) as [|[|] rest]; [exact Hw| |exact Hw].
    unfold attemptPlayback_then, tracked. cbn.
    destruct (animationFrameId (script w)) as [id|] eqn:Eid; cbn.
    + rewrite Eid. exact Hw.
    + rewrite Hw. reflexivity.
  - destruct (animationFrameId (script w)) as [id|] eqn:Eid; rewrite Hw; cbn [foldl].
    + apply processFrame_tracked; [reflexivity | exact (Ha eq_refl)].
    + unfold tracked. cbn. rewrite Eid. reflexivity.
  - exact Hw.
  - destruct (paused (sourceVideo w)); exact Hw.
  - exact Hw.
Qed.

(** The selected identifier changes with a click on a preset button only. *)
Lemma step_anaglyphMode w e :
  anaglyphMode (script (step render w e))
  = match e with ModeClick id => id | _ => anaglyphMode (script w) end.
Proof.
  destruct e; cbn [step]; try reflexivity.
  - unfold videoInput_change. destruct (animationFrameId (script w)); reflexivity.
  - destruct (src (sourceVideo w)); reflexivity.
  - unfold attemptPlayback, play. destruct (src (sourceVideo w)); [destruct allowed|]; reflexivity.
  - unfold togglePlayback, attemptPlayback, play.
    destruct (negb (src (sourceVideo w))); [reflexivity|].
    destruct (paused (sourceVideo w)); [destruct allowed|]; reflexivity.
  - destruct (promises (eventLoop w)) as [|[|] rest]; try reflexivity.
    unfold attemptPlayback_then. cbn. destruct (animationFrameId (script w)); reflexivity.
  - set (w0 := with_eventLoop Frame _ w).
    change (anaglyphMode (script w)) with (anaglyphMode (script w0)).
    generalize w0. induction (callbacks (eventLoop w)) as [|h hs IH]; intros w1; [reflexivity|].
    cbn [foldl]. rewrite IH. apply (processFrame_inputs render w1).
  - destruct (paused (sourceVideo w)); reflexivity.
Qed.

(** It stays accurate along every run in which no file is chosen and no
    such identifier selected. *)
Lemma run_tracked events : forall w,
  Forall keeps_track events -> tracked w ->
  ANAGLYPH_MODES_get (anaglyphMode (script w)) <> inherited ->
  tracked (run render w events)
  /\ ANAGLYPH_MODES_get (anaglyphMode (script (run render w events))) <> inherited.
Proof.
  induction events as [|e events IH]; intros w Hev Hw Hm; [split; assumption|].
  inversion Hev as [|? ? He Hrest]; subst.
  apply IH; [exact Hrest| |].
  - apply step_tracked; [exact Hw| |intros _; exact Hm]. intros ->. contradiction.
  - rewrite step_anaglyphMode. destruct e; try exact Hm. exact He.
Qed.

(** With an accurate variable, a fulfilled [play()] leaves exactly one
    request outstanding. *)
Lemma resume_rearms w :
  tracked w -> outstanding (attemptPlayback_then w) = 1%nat.
Proof.
  unfold tracked, attemptPlayback_then, outstanding. intros Hw. cbn.
  destruct (animationFrameId (script w)) as [id|]; cbn; rewrite Hw; reflexivity.
Qed.

End scheduling.

(** ** Main results on the frame cycle *)

(** C5, on the code: the identifier "constructor" is not in the table of
    presets, yet the cycle does not skip the iteration. The lookup finds the
    member the table inherits, the guard lets the call through, both halves
    are sampled and read, and the first iteration of the loop throws a
    TypeError: nothing is put back and no further frame is requested. *)
Theorem C5_inherited_name_not_skipped :
  let w := run flat_render (initial tt 300 150) inherited_name_selected in
  let w' := step flat_render w AnimationFrame in
  let sw := (inject_Z 4 / 2)%Q in
  paused (sourceVideo w) = false /\ ended (sourceVideo w) = false
  /\ anaglyphMode (script w) = "constructor"
  /\ ANAGLYPH_MODES !! anaglyphMode (script w) = None
  /\ (processFrame_call flat_render w).2 = TypeError
  /\ log w' = log w ++ [DrawImage 0 0 sw (inject_Z 1) 0 0 2 1; GetImageData 0 0 2 1;
                         DrawImage sw 0 sw (inject_Z 1) 0 0 2 1; GetImageData 0 0 2 1]
  /\ outstanding w' = 0%nat.
Proof. vm_compute. repeat split. Qed.

(** C6, on the code: after that invocation the stream is neither paused nor
    ended and the script holds it for playing, yet the cycle has ended
    without rescheduling itself: its last call is a read of the canvas, no
    request is outstanding and further refreshes reach no cycle. *)
Theorem C6_terminated_while_playing :
  let w := run flat_render (initial tt 300 150) (inherited_name_selected ++ [AnimationFrame]) in
  paused (sourceVideo w) = false /\ ended (sourceVideo w) = false
  /\ isVideoPlaying (script w) = true
  /\ last (log w) = Some (GetImageData 0 0 2 1)
  /\ outstanding w = 0%nat
  /\ run flat_render w [AnimationFrame; AnimationFrame] = w.
Proof. vm_compute. repeat split. Qed.

(** C7, on the code: after a second file is chosen while the cycle runs, a
    pause followed by a resume leaves the stream playing with no request
    outstanding, and refreshes of the display no longer reach the cycle. *)
Theorem C7_stalled_after_second_file :
  let w := run flat_render (initial tt 300 150) second_file_then_resume in
  paused (sourceVideo w) = false /\ ended (sourceVideo w) = false
  /\ isVideoPlaying (script w) = true
  /\ animationFrameId (script w) = Some 2%positive
  /\ outstanding w = 0%nat
  /\ run flat_render w [AnimationFrame; AnimationFrame] = w.
Proof. vm_compute. repeat split. Qed.

(** * Further properties of the code *)

(** ** The grayscale *)

Lemma leb_of_units x y :
  in_channel_range x = true -> in_channel_range y = true ->
  units x <= units y -> leb x y = true.
Proof.
  intros Hx Hy U.
  apply in_channel_range_inv in Hx as [-> | (mx & ex & -> & Dx & Ex)];
  apply in_channel_range_inv in Hy as [-> | (my & ey & -> & Dy & Ey)];
    try reflexivity.
  - exfalso. cbn [units] in U. pose proof (mantissa_bounds mx Dx).
    assert (0 < 2 ^ (ex + 56)) by pow2_pos. nia.
  - cbn [units] in U.
    pose proof (mantissa_bounds mx Dx) as Bx. pose proof (mantissa_bounds my Dy) as By.
    unfold leb, SFleb, SFcompare.
    destruct (Z.lt_trichotomy ex ey) as [Hlt | [-> | Hgt]].
    + rewrite (proj2 (Z.compare_lt_iff ex ey) Hlt). reflexivity.
    + rewrite Z.compare_refl.
      destruct (Pos.compare_cont Eq mx my) eqn:Hc; [reflexivity | reflexivity | ].
      exfalso. apply (Pos.compare_gt_iff mx my) in Hc. apply Pos2Z.pos_lt_pos in Hc.
      assert (0 < 2 ^ (ey + 56)) by pow2_pos.
      apply Z.mul_le_mono_pos_r in U; [lia | assumption].
    + exfalso.
      assert (P : 0 < 2 ^ (ey + 56)) by pow2_pos.
      assert (S : 2 ^ (ex + 56) = 2 ^ (ex - ey) * 2 ^ (ey + 56))
        by (rewrite <- Z.pow_add_r by lia; f_equal; lia).
      assert (K : 2 ^ 1 <= 2 ^ (ex - ey)) by (apply Z.pow_le_mono_r; lia).
      change (2 ^ 1) with 2 in K. change (2 ^ 53) with (2 * 2 ^ 52) in *.
      rewrite S, Z.mul_assoc in U. apply Z.mul_le_mono_pos_r in U; [nia | assumption].
Qed.

Lemma product_monotone w v v' :
  product_monotone_ok w = true ->
  0 <= v -> v <= v' -> v' <= 255 ->
  units (mul (of_Z v) w) <= units (mul (of_Z v') w).
Proof.
  intros Hw H0 Hle H255.
  unfold product_monotone_ok in Hw. rewrite forallb_forall in Hw.
  assert (Hstep : forall u, 0 <= u < 255 ->
            units (mul (of_Z u) w) <= units (mul (of_Z (u + 1)) w)).
  { intros u Hu. apply Z.leb_le, Hw, list_elem_of_In, elem_of_seqZ. lia. }
  replace v' with (v + Z.of_nat (Z.to_nat (v' - v))) by lia.
  assert (Hn : v + Z.of_nat (Z.to_nat (v' - v)) <= 255) by lia.
  revert Hn. generalize (Z.to_nat (v' - v)). intros n.
  induction n as [|n IH]; intros Hn.
  - rewrite Z.add_0_r. lia.
  - rewrite Nat2Z.inj_succ in *.
    apply Z.le_trans with (units (mul (of_Z (v + Z.of_nat n)) w)); [apply IH; lia|].
    replace (v + Z.succ (Z.of_nat n)) with (v + Z.of_nat n + 1) by lia.
    apply Hstep. lia.
Qed.

Lemma product_monotone_0_3 : product_monotone_ok lit_0_3 = true.
Proof. computed. Qed.
Lemma product_monotone_0_59 : product_monotone_ok lit_0_59 = true.
Proof. computed. Qed.
Lemma product_monotone_0_11 : product_monotone_ok lit_0_11 = true.
Proof. computed. Qed.

Lemma u8_bounds v : is_u8 v = true -> 0 <= v <= 255.
Proof.
  unfold is_u8. intros H. apply andb_prop in H as [H1 H2].
  apply Z.leb_le in H1, H2. lia.
Qed.

Lemma getGrayscale_units_monotone r g b r' g' b' :
  is_u8 r = true -> is_u8 g = true -> is_u8 b = true ->
  is_u8 r' = true -> is_u8 g' = true -> is_u8 b' = true ->
  r <= r' -> g <= g' -> b <= b' ->
  units (getGrayscale (of_Z r) (of_Z g) (of_Z b))
  <= units (getGrayscale (of_Z r') (of_Z g') (of_Z b')).
Proof.
  intros Hr Hg Hb Hr' Hg' Hb' Lr Lg Lb. unfold getGrayscale.
  pose proof (u8_bounds _ Hr). pose proof (u8_bounds _ Hg). pose proof (u8_bounds _ Hb).
  pose proof (u8_bounds _ Hr'). pose proof (u8_bounds _ Hg'). pose proof (u8_bounds _ Hb').
  pose proof (product_monotone _ r r' product_monotone_0_3 ltac:(lia) Lr ltac:(lia)) as MA.
  pose proof (product_monotone _ g g' product_monotone_0_59 ltac:(lia) Lg ltac:(lia)) as MB.
  pose proof (product_monotone _ b b' product_monotone_0_11 ltac:(lia) Lb ltac:(lia)) as MC.
  destruct (product_table _ r product_table_0_3 Hr) as [GA UA].
  destruct (product_table _ g product_table_0_59 Hg) as [GB UB].
  destruct (product_table _ b product_table_0_11 Hb) as [GC UC].
  destruct (product_table _ r' product_table_0_3 Hr') as [GA' UA'].
  destruct (product_table _ g' product_table_0_59 Hg') as [GB' UB'].
  destruct (product_table _ b' product_table_0_11 Hb') as [GC' UC'].
  set (A := mul (of_Z r) lit_0_3) in *. set (B := mul (of_Z g) lit_0_59) in *.
  set (C := mul (of_Z b) lit_0_11) in *.
  set (A' := mul (of_Z r') lit_0_3) in *. set (B' := mul (of_Z g') lit_0_59) in *.
  set (C' := mul (of_Z b') lit_0_11) in *.
  set (Am := units (mul (of_Z 255) lit_0_3)) in *.
  set (Bm := units (mul (of_Z 255) lit_0_59)) in *.
  set (Cm := units (mul (of_Z 255) lit_0_11)) in *.
  pose proof (units_nonneg A). pose proof (units_nonneg B). pose proof (units_nonneg C).
  pose proof (units_nonneg A'). pose proof (units_nonneg B'). pose proof (units_nonneg C').
  assert (E1 : Am + Bm <= 2 ^ 64 - 2 ^ 11) by (vm_compute; discriminate).
  assert (E2 : round53 (Am + Bm) + Cm <= 2 ^ 64 - 2 ^ 11) by (vm_compute; discriminate).
  destruct (add_units A B GA GB ltac:(lia)) as [GS US].
  destruct (add_units A' B' GA' GB' ltac:(lia)) as [GS' US'].
  assert (LS : units (add A B) <= units (add A' B')).
  { rewrite US, US'. apply round53_mono. lia. }
  assert (LS' : units (add A' B') <= round53 (Am + Bm)).
  { rewrite US'. apply round53_mono. lia. }
  pose proof (units_nonneg (add A B)). pose proof (units_nonneg (add A' B')).
  destruct (add_units (add A B) C GS GC ltac:(lia)) as [GT UT].
  destruct (add_units (add A' B') C' GS' GC' ltac:(lia)) as [GT' UT'].
  rewrite UT, UT'. apply round53_mono. lia.
Qed.

(** X1. The grayscale of 8-bit channels lies between 0 and 255, as its
    documentation says, and so does what a store makes of it. *)
Theorem X1_grayscale_in_range (r g b : Z) :
  is_u8 r = true -> is_u8 g = true -> is_u8 b = true ->
  let gray := getGrayscale (of_Z r) (of_Z g) (of_Z b) in
  leb (of_Z 0) gray = true /\ leb gray (of_Z 255) = true
  /\ ToUint8Clamp gray = nearest_integer gray.
Proof.
  intros Hr Hg Hb gray.
  destruct (getGrayscale_range r g b Hr Hg Hb) as [G U].
  split; [apply leb_zero; exact G|].
  split; [apply leb_255; assumption|].
  apply nearest_integer_clamp; assumption.
Qed.

Lemma X1_grayscale_in_range_witness :
  let gray := getGrayscale (of_Z 12) (of_Z 250) (of_Z 99) in
  is_u8 12 = true /\ is_u8 250 = true /\ is_u8 99 = true
  /\ leb (of_Z 0) gray = true /\ leb gray (of_Z 255) = true
  /\ ToUint8Clamp gray = nearest_integer gray.
Proof.
  intros gray.
  assert (H1 : is_u8 12 = true) by reflexivity.
  assert (H2 : is_u8 250 = true) by reflexivity.
  assert (H3 : is_u8 99 = true) by reflexivity.
  split; [exact H1|]. split; [exact H2|]. split; [exact H3|].
  exact (X1_grayscale_in_range 12 250 99 H1 H2 H3).
Defined.

(** X2. The grayscale is monotone: raising any of the three 8-bit channels
    never lowers it. *)
Theorem X2_grayscale_monotone (r g b r' g' b' : Z) :
  is_u8 r = true -> is_u8 g = true -> is_u8 b = true ->
  is_u8 r' = true -> is_u8 g' = true -> is_u8 b' = true ->
  r <= r' -> g <= g' -> b <= b' ->
  leb (getGrayscale (of_Z r) (of_Z g) (of_Z b))
      (getGrayscale (of_Z r') (of_Z g') (of_Z b')) = true.
Proof.
  intros Hr Hg Hb Hr' Hg' Hb' Lr Lg Lb.
  apply leb_of_units.
  - apply getGrayscale_range; assumption.
  - apply getGrayscale_range; assumption.
  - apply getGrayscale_units_monotone; assumption.
Qed.

Lemma X2_grayscale_monotone_witness :
  is_u8 10 = true /\ is_u8 20 = true /\ is_u8 30 = true /\ is_u8 11 = true
  /\ 10 <= 11 /\ 20 <= 20 /\ 30 <= 30
  /\ leb (getGrayscale (of_Z 10) (of_Z 20) (of_Z 30))
         (getGrayscale (of_Z 11) (of_Z 20) (of_Z 30)) = true.
Proof.
  assert (H1 : is_u8 10 = true) by reflexivity.
  assert (H2 : is_u8 20 = true) by reflexivity.
  assert (H3 : is_u8 30 = true) by reflexivity.
  assert (H4 : is_u8 11 = true) by reflexivity.
  assert (L1 : 10 <= 11) by lia.
  assert (L2 : 20 <= 20) by lia.
  assert (L3 : 30 <= 30) by lia.
  repeat (split; [assumption|]).
  exact (X2_grayscale_monotone 10 20 30 11 20 30 H1 H2 H3 H4 H2 H3 L1 L2 L3).
Defined.

Lemma gray_pixel_stored v :
  is_u8 v = true -> ToUint8Clamp (getGrayscale (of_Z v) (of_Z v) (of_Z v)) = v.
Proof.
  intros Hv.
  apply (forall_u8 (fun v => ToUint8Clamp (getGrayscale (of_Z v) (of_Z v) (of_Z v)) =? v)) in Hv.
  - apply Z.eqb_eq. exact Hv.
  - computed.
Qed.

(** X3. The weights add up to one where it matters: the grayscale of a pixel
    whose three 8-bit channels are equal is stored as that same value,
    although the number itself may fall just short of it. *)
Theorem X3_gray_pixel_keeps_intensity (v : Z) :
  is_u8 v = true ->
  ToUint8Clamp (getGrayscale (of_Z v) (of_Z v) (of_Z v)) = v.
Proof. apply gray_pixel_stored. Qed.

Lemma X3_gray_pixel_keeps_intensity_witness :
  is_u8 1 = true /\ ToUint8Clamp (getGrayscale (of_Z 1) (of_Z 1) (of_Z 1)) = 1.
Proof.
  assert (H : is_u8 1 = true) by reflexivity.
  split; [exact H|]. exact (X3_gray_pixel_keeps_intensity 1 H).
Defined.

(** ** The composite frame *)

(** What the loop leaves in channel [c] of pixel [p], for a preset and 8-bit
    images: the left value where the left mask selects the channel, the
    stored grayscale of the right pixel elsewhere. *)
Lemma anaglyph_conversion_preset id mode (L R : list Z) (n p c : nat) :
  ANAGLYPH_MODES !! id = Some mode ->
  Forall (fun v => is_u8 v = true) L -> Forall (fun v => is_u8 v = true) R ->
  length L = (4 * n)%nat -> length R = (4 * n)%nat ->
  (p < n)%nat -> (c < 3)%nat ->
  exists x0 x1 x2,
    R !! (4 * p)%nat = Some x0 /\ R !! (4 * p + 1)%nat = Some x1
    /\ R !! (4 * p + 2)%nat = Some x2
    /\ anaglyph_conversion mode L R !! (4 * p + c)%nat
       = if is_one (left mode) c then L !! (4 * p + c)%nat
         else Some (ToUint8Clamp (getGrayscale (of_Z x0) (of_Z x1) (of_Z x2))).
Proof.
  intros Hm HL HR LL LR Hp Hc.
  destruct (pixel_at_u8 L p HL ltac:(lia)) as (l0 & l1 & l2 & EL & L0 & L1 & L2 & U0 & U1 & U2).
  destruct (pixel_at_u8 R p HR ltac:(lia)) as (x0 & x1 & x2 & ER & R0 & R1 & R2 & V0 & V1 & V2).
  exists x0, x1, x2. repeat (split; [assumption|]).
  rewrite anaglyph_conversion_channel by lia.
  rewrite EL, ER, (channel_output_preset id mode c l0 l1 l2 _ Hm Hc U0 U1 U2).
  cbn [fst snd].
  destruct (is_one (left mode) c).
  - destruct (of_Z_u8 _ (channel_u8 c l0 l1 l2 U0 U1 U2)) as (_ & _ & ->).
    destruct c as [|[|[|c]]]; try lia; rewrite ?Nat.add_0_r; congruence.
  - destruct (getGrayscale_range x0 x1 x2 V0 V1 V2) as [G _].
    rewrite (mul_one _ G), (add_zero_l _ G). reflexivity.
Qed.

(** X4. For a preset and 8-bit images of one size, the channel the left mask
    selects goes through from the left image unchanged, and every other
    colour channel is the stored grayscale of the right pixel: nothing else
    of the left image reaches the composite. *)
Theorem X4_composite_channels id mode (L R : list Z) (n p c : nat) :
  ANAGLYPH_MODES !! id = Some mode ->
  Forall (fun v => is_u8 v = true) L -> Forall (fun v => is_u8 v = true) R ->
  length L = (4 * n)%nat -> length R = (4 * n)%nat ->
  (p < n)%nat -> (c < 3)%nat ->
  exists x0 x1 x2,
    R !! (4 * p)%nat = Some x0 /\ R !! (4 * p + 1)%nat = Some x1
    /\ R !! (4 * p + 2)%nat = Some x2
    /\ anaglyph_conversion mode L R !! (4 * p + c)%nat
       = if is_one (left mode) c then L !! (4 * p + c)%nat
         else Some (ToUint8Clamp (getGrayscale (of_Z x0) (of_Z x1) (of_Z x2))).
Proof. apply anaglyph_conversion_preset. Qed.

Lemma X4_composite_channels_witness :
  let mode := {| left := [0; 1; 0]; right := [1; 0; 1] |} in
  let L := [200; 50; 50; 255] in
  let R := [50; 200; 50; 255] in
  ANAGLYPH_MODES !! "green_magenta" = Some mode
  /\ Forall (fun v => is_u8 v = true) L /\ Forall (fun v => is_u8 v = true) R
  /\ length L = (4 * 1)%nat /\ length R = (4 * 1)%nat /\ (0 < 1)%nat /\ (2 < 3)%nat
  /\ exists x0 x1 x2,
       R !! (4 * 0)%nat = Some x0 /\ R !! (4 * 0 + 1)%nat = Some x1
       /\ R !! (4 * 0 + 2)%nat = Some x2
       /\ anaglyph_conversion mode L R !! (4 * 0 + 2)%nat
          = if is_one (left mode) 2 then L !! (4 * 0 + 2)%nat
            else Some (ToUint8Clamp (getGrayscale (of_Z x0) (of_Z x1) (of_Z x2))).
Proof.
  intros mode L R.
  assert (H1 : ANAGLYPH_MODES !! "green_magenta" = Some mode) by computed.
  assert (H2 : Forall (fun v => is_u8 v = true) L) by (repeat constructor).
  assert (H3 : Forall (fun v => is_u8 v = true) R) by (repeat constructor).
  assert (H4 : length L = (4 * 1)%nat) by reflexivity.
  assert (H5 : length R = (4 * 1)%nat) by reflexivity.
  assert (H6 : (0 < 1)%nat) by lia.
  assert (H7 : (2 < 3)%nat) by lia.
  repeat (split; [assumption|]).
  exact (X4_composite_channels "green_magenta" mode L R 1 0 2 H1 H2 H3 H4 H5 H6 H7).
Defined.

(** X5. A stereo pair without colour and without disparity comes out as it
    went in: for every preset, if the left and right images are the same
    8-bit image and each of its pixels is gray, the composite is that
    image. A black pair gives a black composite. *)
Theorem X5_gray_pair_unchanged id mode (L : list Z) (n : nat) :
  ANAGLYPH_MODES !! id = Some mode ->
  Forall (fun v => is_u8 v = true) L -> length L = (4 * n)%nat ->
  gray_image L ->
  anaglyph_conversion mode L L = L.
Proof.
  intros Hm HL Hlen Hg. apply list_eq. intros k.
  destruct (decide (k < length L)%nat) as [Hlt|Hge].
  2: { rewrite !lookup_ge_None_2; [reflexivity| |]; rewrite ?anaglyph_conversion_length; lia. }
  pose proof (Nat.div_mod_eq k 4) as Dk.
  pose proof (Nat.mod_upper_bound k 4 ltac:(lia)) as Bk.
  set (p := (k / 4)%nat) in *. set (c := (k mod 4)%nat) in *.
  rewrite Dk.
  destruct (decide (c = 3)%nat) as [E3|N3].
  { rewrite E3. apply anaglyph_conversion_alpha. }
  assert (Hc : (c < 3)%nat) by lia.
  destruct (anaglyph_conversion_preset id mode L L n p c Hm HL HL Hlen Hlen ltac:(lia) Hc)
    as (x0 & x1 & x2 & R0 & R1 & R2 & ->).
  destruct (is_one (left mode) c); [reflexivity|].
  assert (E1 : x1 = x0).
  { pose proof (Hg p 1%nat x1 ltac:(lia) R1) as K. congruence. }
  assert (E2 : x2 = x0).
  { pose proof (Hg p 2%nat x2 ltac:(lia) R2) as K. congruence. }
  subst x1 x2.
  assert (U : is_u8 x0 = true).
  { rewrite Forall_lookup in HL. exact (HL _ _ R0). }
  rewrite (gray_pixel_stored x0 U).
  destruct (lookup_lt_is_Some_2 L (4 * p + c)) as [v Ev]; [lia|].
  rewrite Ev. f_equal. pose proof (Hg p c v Hc Ev) as K. congruence.
Qed.

Lemma X5_gray_pair_unchanged_witness :
  let mode := {| left := [0; 0; 1]; right := [1; 1; 0] |} in
  let L := [0; 0; 0; 255; 90; 90; 90; 17] in
  ANAGLYPH_MODES !! "blue_yellow" = Some mode
  /\ Forall (fun v => is_u8 v = true) L /\ length L = (4 * 2)%nat /\ gray_image L
  /\ anaglyph_conversion mode L L = L.
Proof.
  intros mode L.
  assert (H1 : ANAGLYPH_MODES !! "blue_yellow" = Some mode) by computed.
  assert (H2 : Forall (fun v => is_u8 v = true) L) by (repeat constructor).
  assert (H3 : length L = (4 * 2)%nat) by reflexivity.
  assert (H4 : gray_image L).
  { intros p c v Hc E.
    assert (Hp : (p < 2)%nat) by (apply lookup_lt_Some in E; simpl in E; lia).
    destruct p as [|[|p]]; [| |lia]; destruct c as [|[|[|c]]]; try lia;
      cbn in E |- *; congruence. }
  repeat (split; [assumption|]).
  exact (X5_gray_pair_unchanged "blue_yellow" mode L 2 H1 H2 H3 H4).
Defined.

(** ** The cycle and its scheduling *)

Section cycle_extras.

Context {Frame : Type}.
Variable render : Frame -> Q -> Q -> Q -> Q -> Z -> Z -> list Z.
Implicit Types w : World Frame.

(** What no event but the choice of a file can change while there is no
    source. *)
Lemma step_without_source w e :
  e <> FileChosen ->
  src (sourceVideo w) = false -> paused (sourceVideo w) = true ->
  callbacks (eventLoop w) = [] -> promises (eventLoop w) = [] ->
  let w' := step render w e in
  src (sourceVideo w') = false /\ paused (sourceVideo w') = true
  /\ callbacks (eventLoop w') = [] /\ promises (eventLoop w') = []
  /\ animationFrameId (script w') = animationFrameId (script w)
  /\ isVideoPlaying (script w') = isVideoPlaying (script w)
  /\ outputCanvas w' = outputCanvas w /\ log w' = log w.
Proof.
  intros He Hs Hp Hc Hpr.
  destruct e; cbn [step]; try congruence.
  - rewrite Hs. cbv zeta. auto 10.
  - rewrite Hs. cbv zeta. auto 10.
  - unfold togglePlayback. rewrite Hs. cbn. auto 10.
  - rewrite Hpr. cbv zeta. auto 10.
  - rewrite Hc. cbn. auto 10.
  - cbn. auto 10.
  - rewrite Hp. cbv zeta. auto 10.
  - cbn. auto 10.
Qed.

Lemma run_without_source events : forall w,
  Forall (fun e => e <> FileChosen) events ->
  src (sourceVideo w) = false -> paused (sourceVideo w) = true ->
  callbacks (eventLoop w) = [] -> promises (eventLoop w) = [] ->
  let w' := run render w events in
  src (sourceVideo w') = false /\ paused (sourceVideo w') = true
  /\ callbacks (eventLoop w') = [] /\ promises (eventLoop w') = []
  /\ animationFrameId (script w') = animationFrameId (script w)
  /\ isVideoPlaying (script w') = isVideoPlaying (script w)
  /\ outputCanvas w' = outputCanvas w /\ log w' = log w.
Proof.
  induction events as [|e events IH]; intros w Hev Hs Hp Hc Hpr; [cbn; auto 10|].
  inversion Hev as [|? ? He Hrest]; subst.
  destruct (step_without_source w e He Hs Hp Hc Hpr) as (S1 & S2 & S3 & S4 & S5 & S6 & S7 & S8).
  destruct (IH (step render w e) Hrest S1 S2 S3 S4) as (T1 & T2 & T3 & T4 & T5 & T6 & T7 & T8).
  cbv zeta in *. unfold run in *. cbn [foldl].
  repeat split; congruence.
Qed.

(** An iteration touches the canvas bitmap, the handle and the event loop
    only. *)
Lemma processFrame_keeps w :
  sourceVideo (processFrame render w) = sourceVideo w
  /\ anaglyphMode (script (processFrame render w)) = anaglyphMode (script w)
  /\ isVideoPlaying (script (processFrame render w)) = isVideoPlaying (script w)
  /\ width (outputCanvas (processFrame render w)) = width (outputCanvas w)
  /\ height (outputCanvas (processFrame render w)) = height (outputCanvas w)
  /\ promises (eventLoop (processFrame render w)) = promises (eventLoop w).
Proof. call_cases w; cbn; list_cases; repeat split. Qed.

(** Refreshes while the page is not ready. *)
Lemma idle_frames n : forall w h,
  paused (sourceVideo w) || ended (sourceVideo w) = false ->
  (ANAGLYPH_MODES_get (anaglyphMode (script w)) = undefined
   \/ width (outputCanvas w) = 0 \/ height (outputCanvas w) = 0) ->
  callbacks (eventLoop w) = [h] ->
  let w' := run render w (replicate n AnimationFrame) in
  outstanding w' = 1%nat
  /\ outputCanvas w' = outputCanvas w
  /\ sourceVideo w' = sourceVideo w
  /\ anaglyphMode (script w') = anaglyphMode (script w)
  /\ exists handles, length handles = n
       /\ log w' = log w ++ map RequestAnimationFrame handles.
Proof.
  induction n as [|n IH]; intros w h Hrun Hnr Hcb.
  - cbn. unfold outstanding. rewrite Hcb. repeat split.
    exists []. split; [reflexivity|]. cbn. rewrite app_nil_r. reflexivity.
  - cbn [replicate]. unfold run. cbn [foldl]. fold (run render).
    set (w0 := with_eventLoop Frame {| callbacks := []; next_handle := next_handle (eventLoop w);
                                       promises := promises (eventLoop w) |} w).
    assert (E : step render w AnimationFrame = processFrame render w0).
    { cbn [step]. rewrite Hcb. reflexivity. }
    rewrite E.
    assert (Hp : paused (sourceVideo w0) = false /\ ended (sourceVideo w0) = false).
    { apply orb_false_elim in Hrun. exact Hrun. }
    destruct Hp as [Hp He].
    pose proof (processFrame_not_ready render w0 Hp He Hnr) as PF.
    set (w1 := processFrame render w0) in *.
    assert (K1 : callbacks (eventLoop w1) = [next_handle (eventLoop w)]) by (rewrite PF; reflexivity).
    assert (K2 : outputCanvas w1 = outputCanvas w) by (rewrite PF; reflexivity).
    assert (K3 : sourceVideo w1 = sourceVideo w) by (rewrite PF; reflexivity).
    assert (K4 : anaglyphMode (script w1) = anaglyphMode (script w)) by (rewrite PF; reflexivity).
    assert (K5 : log w1 = log w ++ [RequestAnimationFrame (next_handle (eventLoop w))])
      by (rewrite PF; reflexivity).
    destruct (IH w1 (next_handle (eventLoop w))) as (R1 & R2 & R3 & R4 & hs & Hl & Hlog).
    + rewrite K3. exact Hrun.
    + rewrite K4, K2. exact Hnr.
    + exact K1.
    + cbv zeta in *. unfold run in *. split; [exact R1|]. split; [congruence|]. split; [congruence|].
      split; [congruence|].
      exists (next_handle (eventLoop w) :: hs). split; [cbn; lia|].
      rewrite Hlog, K5, <- app_assoc. reflexivity.
Qed.

End cycle_extras.

(** X6. In every state the page can reach, whatever the user and the
    platform do, at most one request for a frame callback is outstanding:
    the cycle never runs twice in one refresh. *)
Theorem X6_at_most_one_request {Frame : Type}
    (render : Frame -> Q -> Q -> Q -> Q -> Z -> Z -> list Z)
    (f : Frame) (canvasWidth canvasHeight : Z) (events : list (Event Frame)) :
  (outstanding (run render (initial f canvasWidth canvasHeight) events) <= 1)%nat.
Proof. apply at_most_one_outstanding. Qed.

(** X7. Until a file is chosen nothing starts: no click, media notification
    or refresh makes the page play, request a frame, call the platform or
    touch the canvas. *)
Theorem X7_nothing_starts_without_file {Frame : Type}
    (render : Frame -> Q -> Q -> Q -> Q -> Z -> Z -> list Z)
    (f : Frame) (canvasWidth canvasHeight : Z) (events : list (Event Frame)) :
  Forall (fun e => e <> FileChosen) events ->
  let w0 := initial f canvasWidth canvasHeight in
  let w := run render w0 events in
  paused (sourceVideo w) = true /\ isVideoPlaying (script w) = false
  /\ outstanding w = 0%nat /\ animationFrameId (script w) = None
  /\ log w = [] /\ outputCanvas w = outputCanvas w0.
Proof.
  intros Hev w0 w.
  destruct (run_without_source render events w0 Hev eq_refl eq_refl eq_refl eq_refl)
    as (_ & S2 & S3 & _ & S5 & S6 & S7 & S8).
  fold w in S2, S3, S5, S6, S7, S8. unfold outstanding. rewrite S3.
  repeat split; assumption.
Qed.

Lemma X7_nothing_starts_without_file_witness :
  let events : list (Event unit) :=
    [PlayPauseClick true; CanPlay true; AnimationFrame; PromiseSettled; ModeClick "blue_yellow"] in
  let w0 := initial tt 300 150 in
  let w := run flat_render w0 events in
  Forall (fun e => e <> FileChosen) events
  /\ paused (sourceVideo w) = true /\ isVideoPlaying (script w) = false
  /\ outstanding w = 0%nat /\ animationFrameId (script w) = None
  /\ log w = [] /\ outputCanvas w = outputCanvas w0.
Proof.
  intros events w0 w.
  assert (H : Forall (fun e => e <> FileChosen) events) by (repeat constructor; discriminate).
  split; [exact H|].
  exact (X7_nothing_starts_without_file flat_render tt 300 150 events H).
Defined.

(** X8. As long as no file is chosen while a handle is recorded and no
    preset identifier that names a member of [Object.prototype] is
    selected, the script's variable tells exactly which callback waits, and
    a fulfilled [play()] leaves exactly one request outstanding: pausing
    and resuming neither doubles the cycle nor loses it. *)
Theorem X8_resume_keeps_one_request {Frame : Type}
    (render : Frame -> Q -> Q -> Q -> Q -> Z -> Z -> list Z)
    (w : World Frame) (events : list (Event Frame)) :
  tracked w ->
  ANAGLYPH_MODES_get (anaglyphMode (script w)) <> inherited ->
  Forall keeps_track events ->
  let w' := run render w events in
  tracked w' /\ outstanding (attemptPlayback_then w') = 1%nat.
Proof.
  intros Hw Hm Hev w'.
  destruct (run_tracked render events w Hev Hw Hm) as [T _].
  split; [exact T | apply resume_rearms; exact T].
Qed.

Lemma X8_resume_keeps_one_request_witness :
  let events : list (Event unit) :=
    [PlayPauseClick true; AnimationFrame; ModeClick "blue_yellow"; ModeClick "sepia";
     PlayPauseClick true; PromiseSettled; AnimationFrame] in
  let w' := run flat_render playing_page events in
  tracked playing_page
  /\ ANAGLYPH_MODES_get (anaglyphMode (script playing_page)) <> inherited
  /\ Forall keeps_track events
  /\ tracked w' /\ outstanding (attemptPlayback_then w') = 1%nat.
Proof.
  intros events w'.
  assert (H1 : tracked playing_page) by reflexivity.
  assert (H2 : ANAGLYPH_MODES_get (anaglyphMode (script playing_page)) <> inherited)
    by (vm_compute; discriminate).
  assert (H3 : Forall keeps_track events)
    by (repeat constructor; vm_compute; discriminate).
  split; [exact H1|]. split; [exact H2|]. split; [exact H3|].
  exact (X8_resume_keeps_one_request flat_render playing_page events H1 H2 H3).
Defined.

(** X9. Pausing stops the cycle at the next refresh: with a source playing
    and the cycle's request waiting, a click on play/pause followed by one
    refresh leaves the stream paused, no request outstanding and the handle
    cleared, and that refresh leaves the canvas and the call log alone. *)
Theorem X9_pause_stops_cycle {Frame : Type}
    (render : Frame -> Q -> Q -> Q -> Q -> Z -> Z -> list Z)
    (w : World Frame) (h : positive) (allowed : bool) :
  src (sourceVideo w) = true -> paused (sourceVideo w) = false ->
  callbacks (eventLoop w) = [h] ->
  let w' := run render w [PlayPauseClick allowed; AnimationFrame] in
  paused (sourceVideo w') = true /\ isVideoPlaying (script w') = false
  /\ outstanding w' = 0%nat /\ animationFrameId (script w') = None
  /\ outputCanvas w' = outputCanvas w /\ log w' = log w.
Proof.
  intros Hs Hp Hc w'. unfold w', run. cbn [foldl step].
  unfold togglePlayback. rewrite Hs, Hp. cbn. rewrite Hc. cbn.
  repeat split.
Qed.

Lemma X9_pause_stops_cycle_witness :
  let w' := run flat_render playing_page [PlayPauseClick true; AnimationFrame] in
  src (sourceVideo playing_page) = true /\ paused (sourceVideo playing_page) = false
  /\ callbacks (eventLoop playing_page) = [1%positive]
  /\ paused (sourceVideo w') = true /\ isVideoPlaying (script w') = false
  /\ outstanding w' = 0%nat /\ animationFrameId (script w') = None
  /\ outputCanvas w' = outputCanvas playing_page /\ log w' = log playing_page.
Proof.
  intros w'.
  assert (H1 : src (sourceVideo playing_page) = true) by reflexivity.
  assert (H2 : paused (sourceVideo playing_page) = false) by reflexivity.
  assert (H3 : callbacks (eventLoop playing_page) = [1%positive]) by reflexivity.
  split; [exact H1|]. split; [exact H2|]. split; [exact H3|].
  exact (X9_pause_stops_cycle flat_render playing_page 1 true H1 H2 H3).
Defined.

(** X10. An iteration of the cycle never acts on the stream or the settings:
    the media element (its source, play state, position and size), the
    selected preset, the playing flag, the canvas size and the waiting
    promises are as before it. *)
Theorem X10_cycle_leaves_stream_alone {Frame : Type}
    (render : Frame -> Q -> Q -> Q -> Q -> Z -> Z -> list Z) (w : World Frame) :
  let w' := processFrame render w in
  sourceVideo w' = sourceVideo w
  /\ anaglyphMode (script w') = anaglyphMode (script w)
  /\ isVideoPlaying (script w') = isVideoPlaying (script w)
  /\ width (outputCanvas w') = width (outputCanvas w)
  /\ height (outputCanvas w') = height (outputCanvas w)
  /\ promises (eventLoop w') = promises (eventLoop w).
Proof. apply processFrame_keeps. Qed.

(** X11. What a full iteration leaves on the canvas is the conversion of the
    two halves sampled from the current video frame, whatever the canvas
    held before; a second iteration on the same frame leaves the same
    composite. *)
Theorem X11_cycle_composite {Frame : Type}
    (render : Frame -> Q -> Q -> Q -> Q -> Z -> Z -> list Z) (w : World Frame) mode :
  paused (sourceVideo w) || ended (sourceVideo w) = false ->
  ANAGLYPH_MODES !! anaglyphMode (script w) = Some mode ->
  width (outputCanvas w) <> 0 -> height (outputCanvas w) <> 0 ->
  videoWidth (sourceVideo w) <> 0 ->
  let f := frame (sourceVideo w) in
  let sw := (inject_Z (videoWidth (sourceVideo w)) / 2)%Q in
  let h := inject_Z (height (outputCanvas w)) in
  pixels (outputCanvas (processFrame render w))
  = anaglyph_conversion mode
      (render f 0%Q 0%Q sw h (width (outputCanvas w)) (height (outputCanvas w)))
      (render f sw 0%Q sw h (width (outputCanvas w)) (height (outputCanvas w)))
  /\ pixels (outputCanvas (processFrame render (processFrame render w)))
     = pixels (outputCanvas (processFrame render w)).
Proof.
  intros Hrun Hmode Hw Hh Hv f sw h. split.
  - apply processFrame_composite; assumption.
  - apply (processFrame_twice render w mode); assumption.
Qed.

Lemma X11_cycle_composite_witness :
  let w := playing_page in
  let mode := {| left := [1; 0; 0]; right := [0; 1; 1] |} in
  paused (sourceVideo w) || ended (sourceVideo w) = false
  /\ ANAGLYPH_MODES !! anaglyphMode (script w) = Some mode
  /\ width (outputCanvas w) <> 0 /\ height (outputCanvas w) <> 0
  /\ videoWidth (sourceVideo w) <> 0
  /\ pixels (outputCanvas (processFrame flat_render w))
     = anaglyph_conversion mode
         (flat_render tt 0 0 (inject_Z 2 / 2) (inject_Z 1) 1 1)
         (flat_render tt (inject_Z 2 / 2) 0 (inject_Z 2 / 2) (inject_Z 1) 1 1)
  /\ pixels (outputCanvas (processFrame flat_render (processFrame flat_render w)))
     = pixels (outputCanvas (processFrame flat_render w)).
Proof.
  intros w mode.
  assert (H1 : paused (sourceVideo w) || ended (sourceVideo w) = false) by reflexivity.
  assert (H2 : ANAGLYPH_MODES !! anaglyphMode (script w) = Some mode) by computed.
  assert (H3 : width (outputCanvas w) <> 0) by discriminate.
  assert (H4 : height (outputCanvas w) <> 0) by discriminate.
  assert (H5 : videoWidth (sourceVideo w) <> 0) by discriminate.
  repeat (split; [assumption|]).
  exact (X11_cycle_composite flat_render w mode H1 H2 H3 H4 H5).
Defined.

(** X12. A change of preset takes effect at the very next refresh and leaves
    the cycle running: with the stream playing and the cycle's request
    waiting, a click on a preset button followed by a refresh puts on the
    canvas the conversion under the newly selected preset, and one request
    is outstanding again. *)
Theorem X12_preset_switch_next_frame {Frame : Type}
    (render : Frame -> Q -> Q -> Q -> Q -> Z -> Z -> list Z)
    (w : World Frame) (h : positive) (id : string) mode :
  paused (sourceVideo w) || ended (sourceVideo w) = false ->
  callbacks (eventLoop w) = [h] ->
  ANAGLYPH_MODES !! id = Some mode ->
  width (outputCanvas w) <> 0 -> height (outputCanvas w) <> 0 ->
  videoWidth (sourceVideo w) <> 0 ->
  let w' := run render w [ModeClick id; AnimationFrame] in
  let f := frame (sourceVideo w) in
  let sw := (inject_Z (videoWidth (sourceVideo w)) / 2)%Q in
  let hh := inject_Z (height (outputCanvas w)) in
  pixels (outputCanvas w')
  = anaglyph_conversion mode
      (render f 0%Q 0%Q sw hh (width (outputCanvas w)) (height (outputCanvas w)))
      (render f sw 0%Q sw hh (width (outputCanvas w)) (height (outputCanvas w)))
  /\ outstanding w' = 1%nat
  /\ anaglyphMode (script w') = id.
Proof.
  intros Hrun Hcb Hmode Hw Hh Hv w' f sw hh.
  unfold w', run. cbn [foldl step].
  change (callbacks (eventLoop (set_anaglyphMode Frame id w))) with (callbacks (eventLoop w)).
  rewrite Hcb. cbn [foldl].
  set (w0 := with_eventLoop Frame _ _).
  assert (R0 : paused (sourceVideo w0) || ended (sourceVideo w0) = false) by exact Hrun.
  assert (M0 : ANAGLYPH_MODES !! anaglyphMode (script w0) = Some mode) by exact Hmode.
  split; [|split].
  - apply (processFrame_composite render w0 mode R0 M0 Hw Hh Hv).
  - assert (K : ANAGLYPH_MODES_get (anaglyphMode (script w0)) <> inherited)
      by (rewrite (get_preset _ _ M0); discriminate).
    destruct (processFrame_running render w0 R0 K) as (C & _ & _).
    unfold outstanding. rewrite C. reflexivity.
  - destruct (processFrame_keeps render w0) as (_ & M & _). rewrite M. reflexivity.
Qed.

Lemma X12_preset_switch_next_frame_witness :
  let w := playing_page in
  let mode := {| left := [0; 1; 0]; right := [1; 0; 1] |} in
  let w' := run flat_render w [ModeClick "green_magenta"; AnimationFrame] in
  paused (sourceVideo w) || ended (sourceVideo w) = false
  /\ callbacks (eventLoop w) = [1%positive]
  /\ ANAGLYPH_MODES !! "green_magenta" = Some mode
  /\ width (outputCanvas w) <> 0 /\ height (outputCanvas w) <> 0
  /\ videoWidth (sourceVideo w) <> 0
  /\ pixels (outputCanvas w')
     = anaglyph_conversion mode
         (flat_render tt 0 0 (inject_Z 2 / 2) (inject_Z 1) 1 1)
         (flat_render tt (inject_Z 2 / 2) 0 (inject_Z 2 / 2) (inject_Z 1) 1 1)
  /\ outstanding w' = 1%nat
  /\ anaglyphMode (script w') = "green_magenta".
Proof.
  intros w mode w'.
  assert (H1 : paused (sourceVideo w) || ended (sourceVideo w) = false) by reflexivity.
  assert (H2 : callbacks (eventLoop w) = [1%positive]) by reflexivity.
  assert (H3 : ANAGLYPH_MODES !! "green_magenta" = Some mode) by computed.
  assert (H4 : width (outputCanvas w) <> 0) by discriminate.
  assert (H5 : height (outputCanvas w) <> 0) by discriminate.
  assert (H6 : videoWidth (sourceVideo w) <> 0) by discriminate.
  repeat (split; [assumption|]).
  exact (X12_preset_switch_next_frame flat_render w 1 "green_magenta" mode H1 H2 H3 H4 H5 H6).
Defined.

(** X13. Not being ready never ends the cycle and never costs more than
    the request: while the stream plays and the lookup of the selected
    identifier gives [undefined], or the canvas has zero width or height,
    any number of refreshes leaves exactly one request outstanding, the
    canvas and the stream as they were, and nothing in the call log but one
    frame request per refresh. *)
Theorem X13_idle_refreshes {Frame : Type}
    (render : Frame -> Q -> Q -> Q -> Q -> Z -> Z -> list Z)
    (w : World Frame) (h : positive) (n : nat) :
  paused (sourceVideo w) || ended (sourceVideo w) = false ->
  (ANAGLYPH_MODES_get (anaglyphMode (script w)) = undefined
   \/ width (outputCanvas w) = 0 \/ height (outputCanvas w) = 0) ->
  callbacks (eventLoop w) = [h] ->
  let w' := run render w (replicate n AnimationFrame) in
  outstanding w' = 1%nat
  /\ outputCanvas w' = outputCanvas w
  /\ sourceVideo w' = sourceVideo w
  /\ anaglyphMode (script w') = anaglyphMode (script w)
  /\ exists handles, length handles = n
       /\ log w' = log w ++ map RequestAnimationFrame handles.
Proof. apply idle_frames. Qed.

Lemma X13_idle_refreshes_witness :
  let w := step flat_render playing_page (ModeClick "sepia") in
  let w' := run flat_render w (replicate 3 AnimationFrame) in
  paused (sourceVideo w) || ended (sourceVideo w) = false
  /\ ANAGLYPH_MODES_get (anaglyphMode (script w)) = undefined
  /\ callbacks (eventLoop w) = [1%positive]
  /\ outstanding w' = 1%nat
  /\ outputCanvas w' = outputCanvas w
  /\ sourceVideo w' = sourceVideo w
  /\ anaglyphMode (script w') = anaglyphMode (script w)
  /\ exists handles, length handles = 3%nat
       /\ log w' = log w ++ map RequestAnimationFrame handles.
Proof.
  intros w w'.
  assert (H1 : paused (sourceVideo w) || ended (sourceVideo w) = false) by reflexivity.
  assert (H2 : ANAGLYPH_MODES_get (anaglyphMode (script w)) = undefined) by computed.
  assert (H3 : callbacks (eventLoop w) = [1%positive]) by reflexivity.
  split; [exact H1|]. split; [exact H2|]. split; [exact H3|].
  exact (X13_idle_refreshes flat_render w 1 3 H1 (or_introl H2) H3).
Defined.

(** ** The canvas and the two halves *)

Section canvas_extras.

Context {Frame : Type}.
Variable render : Frame -> Q -> Q -> Q -> Q -> Z -> Z -> list Z.
Implicit Types w : World Frame.

Lemma processFrame_calls w mode :
  paused (sourceVideo w) || ended (sourceVideo w) = false ->
  ANAGLYPH_MODES !! anaglyphMode (script w) = Some mode ->
  width (outputCanvas w) <> 0 -> height (outputCanvas w) <> 0 ->
  let W := width (outputCanvas w) in
  let H := height (outputCanvas w) in
  let sw := (inject_Z (videoWidth (sourceVideo w)) / 2)%Q in
  log (processFrame render w)
  = log w ++ [DrawImage 0 0 sw (inject_Z H) 0 0 W H; GetImageData 0 0 W H;
              DrawImage sw 0 sw (inject_Z H) 0 0 W H; GetImageData 0 0 W H;
              PutImageData 0 0; RequestAnimationFrame (next_handle (eventLoop w))].
Proof.
  intros Hrun Hmode Hw Hh W H sw. unfold processFrame, processFrame_call.
  rewrite Hrun, (get_preset _ _ Hmode).
  apply Z.eqb_neq in Hw, Hh. rewrite Hw, Hh. cbn [orb].
  unfold drawImage. fold sw.
  destruct (Qeq_bool sw 0 || Qeq_bool (inject_Z (height (outputCanvas w))) 0);
    cbn; rewrite <- !app_assoc; reflexivity.
Qed.

Lemma halves_cover (n : Z) : (inject_Z n / 2 + inject_Z n / 2 == inject_Z n)%Q.
Proof. field. Qed.

(** The canvas has one eye's size once the stream has a size. *)
Lemma step_canvas_size w e :
  (videoWidth (sourceVideo w) = 0 /\ videoHeight (sourceVideo w) = 0
   \/ width (outputCanvas w) = videoWidth (sourceVideo w) / 2
      /\ height (outputCanvas w) = videoHeight (sourceVideo w)) ->
  let w' := step render w e in
  videoWidth (sourceVideo w') = 0 /\ videoHeight (sourceVideo w') = 0
  \/ width (outputCanvas w') = videoWidth (sourceVideo w') / 2
     /\ height (outputCanvas w') = videoHeight (sourceVideo w').
Proof.
  intros H. destruct e; cbn [step]; cbv zeta.
  - left. unfold videoInput_change. destruct (animationFrameId (script w)); cbn; auto.
  - destruct (src (sourceVideo w)); [right; cbn; auto | exact H].
  - destruct (src (sourceVideo w)); [|exact H].
    unfold attemptPlayback, play. destruct allowed; exact H.
  - unfold togglePlayback.
    destruct (negb (src (sourceVideo w))); [exact H|].
    destruct (paused (sourceVideo w)); [|exact H].
    unfold attemptPlayback, play. destruct allowed; exact H.
  - destruct (promises (eventLoop w)) as [|[|] rest]; [exact H| |exact H].
    unfold attemptPlayback_then. cbn.
    destruct (animationFrameId (script w)); exact H.
  - set (w0 := with_eventLoop Frame _ w).
    assert (H0 : videoWidth (sourceVideo w0) = 0 /\ videoHeight (sourceVideo w0) = 0
                 \/ width (outputCanvas w0) = videoWidth (sourceVideo w0) / 2
                    /\ height (outputCanvas w0) = videoHeight (sourceVideo w0)) by exact H.
    clearbody w0. revert w0 H0.
    induction (callbacks (eventLoop w)) as [|h hs IH]; intros w0 H0; [exact H0|].
    cbn [foldl]. apply IH.
    destruct (processFrame_keeps render w0) as (Ev & _ & _ & Ew & Eh & _).
    rewrite Ev, Ew, Eh. exact H0.
  - exact H.
  - destruct (paused (sourceVideo w)); exact H.
  - exact H.
Qed.

Lemma run_canvas_size events : forall w,
  (videoWidth (sourceVideo w) = 0 /\ videoHeight (sourceVideo w) = 0
   \/ width (outputCanvas w) = videoWidth (sourceVideo w) / 2
      /\ height (outputCanvas w) = videoHeight (sourceVideo w)) ->
  let w' := run render w events in
  videoWidth (sourceVideo w') = 0 /\ videoHeight (sourceVideo w') = 0
  \/ width (outputCanvas w') = videoWidth (sourceVideo w') / 2
     /\ height (outputCanvas w') = videoHeight (sourceVideo w').
Proof.
  induction events as [|e events IH]; intros w H; [exact H|].
  unfold run. cbn [foldl]. apply IH. apply step_canvas_size. exact H.
Qed.

End canvas_extras.

(** X14. A full iteration makes six platform calls in this order: draw, read,
    draw, read, write back, request the next frame. The two draws sample
    two source rectangles of the same width that lie side by side and
    together span the native width of the frame (the second starts where
    the first ends, and twice their width is [videoWidth]), each at the
    canvas height, onto the whole canvas. *)
Theorem X14_iteration_samples_both_halves {Frame : Type}
    (render : Frame -> Q -> Q -> Q -> Q -> Z -> Z -> list Z) (w : World Frame) mode :
  paused (sourceVideo w) || ended (sourceVideo w) = false ->
  ANAGLYPH_MODES !! anaglyphMode (script w) = Some mode ->
  width (outputCanvas w) <> 0 -> height (outputCanvas w) <> 0 ->
  let W := width (outputCanvas w) in
  let H := height (outputCanvas w) in
  exists sw : Q,
    (sw + sw == inject_Z (videoWidth (sourceVideo w)))%Q
    /\ log (processFrame render w)
       = log w ++ [DrawImage 0 0 sw (inject_Z H) 0 0 W H; GetImageData 0 0 W H;
                   DrawImage sw 0 sw (inject_Z H) 0 0 W H; GetImageData 0 0 W H;
                   PutImageData 0 0; RequestAnimationFrame (next_handle (eventLoop w))].
Proof.
  intros Hrun Hmode Hw Hh W H.
  exists (inject_Z (videoWidth (sourceVideo w)) / 2)%Q.
  split; [apply halves_cover|].
  rewrite (processFrame_calls render w mode Hrun Hmode Hw Hh). reflexivity.
Qed.

Lemma X14_iteration_samples_both_halves_witness :
  let w := playing_page in
  paused (sourceVideo w) || ended (sourceVideo w) = false
  /\ ANAGLYPH_MODES !! anaglyphMode (script w) = Some {| left := [1; 0; 0]; right := [0; 1; 1] |}
  /\ width (outputCanvas w) <> 0 /\ height (outputCanvas w) <> 0
  /\ exists sw : Q,
       (sw + sw == inject_Z (videoWidth (sourceVideo w)))%Q
       /\ log (processFrame flat_render w)
          = log w ++ [DrawImage 0 0 sw (inject_Z 1) 0 0 1 1; GetImageData 0 0 1 1;
                      DrawImage sw 0 sw (inject_Z 1) 0 0 1 1; GetImageData 0 0 1 1;
                      PutImageData 0 0; RequestAnimationFrame 2%positive].
Proof.
  intros w.
  assert (H1 : paused (sourceVideo w) || ended (sourceVideo w) = false) by reflexivity.
  assert (H2 : ANAGLYPH_MODES !! anaglyphMode (script w)
               = Some {| left := [1; 0; 0]; right := [0; 1; 1] |}) by computed.
  assert (H3 : width (outputCanvas w) <> 0) by discriminate.
  assert (H4 : height (outputCanvas w) <> 0) by discriminate.
  repeat (split; [assumption|]).
  exact (X14_iteration_samples_both_halves flat_render w _ H1 H2 H3 H4).
Defined.

(** X15. The canvas always has one eye's size: in every state the page can
    reach, once the stream has a size the canvas is [videoWidth / 2]
    (rounded down) wide and [videoHeight] high. *)
Theorem X15_canvas_one_eye_size {Frame : Type}
    (render : Frame -> Q -> Q -> Q -> Q -> Z -> Z -> list Z)
    (f : Frame) (canvasWidth canvasHeight : Z) (events : list (Event Frame)) :
  let w := run render (initial f canvasWidth canvasHeight) events in
  videoWidth (sourceVideo w) = 0 /\ videoHeight (sourceVideo w) = 0
  \/ width (outputCanvas w) = videoWidth (sourceVideo w) / 2
     /\ height (outputCanvas w) = videoHeight (sourceVideo w).
Proof. apply run_canvas_size. left. split; reflexivity. Qed.

(** ** How a call of the cycle ends *)

Lemma prototype_names_not_presets id :
  In id Object_prototype -> ANAGLYPH_MODES_get id = inherited.
Proof.
  intros H. apply get_inherited. split; [|exact H].
  unfold Object_prototype in H. cbn [In] in H.
  repeat (destruct H as [<- | H]; [computed|]). contradiction.
Qed.

Section outcome_extras.

Context {Frame : Type}.
Variable render : Frame -> Q -> Q -> Q -> Q -> Z -> Z -> list Z.
Implicit Types w : World Frame.

Lemma processFrame_thrown_log w :
  (processFrame_call render w).2 = TypeError ->
  let W := width (outputCanvas w) in
  let H := height (outputCanvas w) in
  let sw := (inject_Z (videoWidth (sourceVideo w)) / 2)%Q in
  log (processFrame render w)
  = log w ++ [DrawImage 0 0 sw (inject_Z H) 0 0 W H; GetImageData 0 0 W H;
              DrawImage sw 0 sw (inject_Z H) 0 0 W H; GetImageData 0 0 W H].
Proof.
  call_cases w; cbn; list_cases; cbn; intros R; try discriminate R;
    rewrite <- !app_assoc; reflexivity.
Qed.

Lemma call_outcomes w :
  let w' := processFrame render w in
  let c := (processFrame_call render w).2 in
  let h := next_handle (eventLoop w) in
  let W := width (outputCanvas w) in
  let H := height (outputCanvas w) in
  let sw := (inject_Z (videoWidth (sourceVideo w)) / 2)%Q in
  (paused (sourceVideo w) || ended (sourceVideo w) = true ->
     c = Returned /\ callbacks (eventLoop w') = callbacks (eventLoop w)
     /\ animationFrameId (script w') = None /\ log w' = log w)
  /\ (paused (sourceVideo w) || ended (sourceVideo w) = false -> c = Returned ->
        callbacks (eventLoop w') = callbacks (eventLoop w) ++ [h]
        /\ animationFrameId (script w') = Some h
        /\ last (log w') = Some (RequestAnimationFrame h))
  /\ (c = TypeError ->
        paused (sourceVideo w) || ended (sourceVideo w) = false
        /\ ANAGLYPH_MODES_get (anaglyphMode (script w)) = inherited
        /\ W <> 0 /\ H <> 0
        /\ callbacks (eventLoop w') = callbacks (eventLoop w)
        /\ animationFrameId (script w') = animationFrameId (script w)
        /\ log w' = log w ++ [DrawImage 0 0 sw (inject_Z H) 0 0 W H; GetImageData 0 0 W H;
                              DrawImage sw 0 sw (inject_Z H) 0 0 W H; GetImageData 0 0 W H])
  /\ (ANAGLYPH_MODES_get (anaglyphMode (script w)) <> inherited -> c = Returned).
Proof.
  intros w' c h W H sw. repeat split.
  - unfold c. rewrite processFrame_call_stopped by assumption. reflexivity.
  - unfold w'. rewrite processFrame_stopped by assumption. reflexivity.
  - unfold w'. rewrite processFrame_stopped by assumption. reflexivity.
  - unfold w'. rewrite processFrame_stopped by assumption. reflexivity.
  - apply (processFrame_returned render w); assumption.
  - apply (processFrame_returned render w); assumption.
  - apply (processFrame_returned render w); assumption.
  - apply (processFrame_thrown render w); assumption.
  - apply (processFrame_thrown render w); assumption.
  - apply (processFrame_thrown render w); assumption.
  - apply (processFrame_thrown render w); assumption.
  - apply (processFrame_thrown render w); assumption.
  - apply (processFrame_thrown render w); assumption.
  - apply processFrame_thrown_log; assumption.
  - apply processFrame_no_throw.
Qed.

Lemma inherited_name_throws w :
  paused (sourceVideo w) || ended (sourceVideo w) = false ->
  In (anaglyphMode (script w)) Object_prototype ->
  width (outputCanvas w) <> 0 -> height (outputCanvas w) <> 0 ->
  videoWidth (sourceVideo w) <> 0 ->
  let f := frame (sourceVideo w) in
  let sw := (inject_Z (videoWidth (sourceVideo w)) / 2)%Q in
  let h := inject_Z (height (outputCanvas w)) in
  render f 0%Q 0%Q sw h (width (outputCanvas w)) (height (outputCanvas w)) <> [] ->
  (processFrame_call render w).2 = TypeError
  /\ pixels (outputCanvas (processFrame render w))
     = render f sw 0%Q sw h (width (outputCanvas w)) (height (outputCanvas w))
  /\ callbacks (eventLoop (processFrame render w)) = callbacks (eventLoop w)
  /\ animationFrameId (script (processFrame render w)) = animationFrameId (script w).
Proof.
  intros Hrun Hin Hw Hh Hv f sw h Hne. unfold processFrame, processFrame_call.
  rewrite Hrun, (prototype_names_not_presets _ Hin).
  apply Z.eqb_neq in Hw, Hh. rewrite Hw, Hh. cbn [orb].
  unfold drawImage. cbn.
  rewrite (half_width_nonzero _ Hv), (height_nonzero _ (proj1 (Z.eqb_neq _ _) Hh)).
  cbn. fold f sw h.
  destruct (render f 0%Q 0%Q sw h (width (outputCanvas w)) (height (outputCanvas w)));
    [contradiction|]. cbn. auto.
Qed.

End outcome_extras.

(** X25. How a call of [processFrame] ends. On a paused or ended stream it
    returns having only cleared the handle. On a stream that plays, a call
    that returns has requested the next frame as its last act. A call
    throws only on a stream that plays, when the selected identifier names
    a member of [Object.prototype] and the canvas has a nonzero size; it has
    then sampled and read both halves, put nothing back and requested
    nothing, and the handle is left as it was. No other identifier makes it
    throw. *)
Theorem X25_call_outcomes {Frame : Type}
    (render : Frame -> Q -> Q -> Q -> Q -> Z -> Z -> list Z) (w : World Frame) :
  let w' := processFrame render w in
  let c := (processFrame_call render w).2 in
  let h := next_handle (eventLoop w) in
  let W := width (outputCanvas w) in
  let H := height (outputCanvas w) in
  let sw := (inject_Z (videoWidth (sourceVideo w)) / 2)%Q in
  (paused (sourceVideo w) || ended (sourceVideo w) = true ->
     c = Returned /\ callbacks (eventLoop w') = callbacks (eventLoop w)
     /\ animationFrameId (script w') = None /\ log w' = log w)
  /\ (paused (sourceVideo w) || ended (sourceVideo w) = false -> c = Returned ->
        callbacks (eventLoop w') = callbacks (eventLoop w) ++ [h]
        /\ animationFrameId (script w') = Some h
        /\ last (log w') = Some (RequestAnimationFrame h))
  /\ (c = TypeError ->
        paused (sourceVideo w) || ended (sourceVideo w) = false
        /\ ANAGLYPH_MODES_get (anaglyphMode (script w)) = inherited
        /\ W <> 0 /\ H <> 0
        /\ callbacks (eventLoop w') = callbacks (eventLoop w)
        /\ animationFrameId (script w') = animationFrameId (script w)
        /\ log w' = log w ++ [DrawImage 0 0 sw (inject_Z H) 0 0 W H; GetImageData 0 0 W H;
                              DrawImage sw 0 sw (inject_Z H) 0 0 W H; GetImageData 0 0 W H])
  /\ (ANAGLYPH_MODES_get (anaglyphMode (script w)) <> inherited -> c = Returned).
Proof. apply call_outcomes. Qed.

(** X26. Every name a plain object inherits defeats the guard: with the
    stream playing, the selected identifier one of the twelve members of
    [Object.prototype], a canvas of nonzero size and a nonzero native width,
    a call that samples a nonempty left half throws; the canvas is left
    showing the raw right half, and no frame is requested. *)
Theorem X26_inherited_name_throws {Frame : Type}
    (render : Frame -> Q -> Q -> Q -> Q -> Z -> Z -> list Z) (w : World Frame) :
  paused (sourceVideo w) || ended (sourceVideo w) = false ->
  In (anaglyphMode (script w)) Object_prototype ->
  width (outputCanvas w) <> 0 -> height (outputCanvas w) <> 0 ->
  videoWidth (sourceVideo w) <> 0 ->
  let f := frame (sourceVideo w) in
  let sw := (inject_Z (videoWidth (sourceVideo w)) / 2)%Q in
  let h := inject_Z (height (outputCanvas w)) in
  render f 0%Q 0%Q sw h (width (outputCanvas w)) (height (outputCanvas w)) <> [] ->
  (processFrame_call render w).2 = TypeError
  /\ pixels (outputCanvas (processFrame render w))
     = render f sw 0%Q sw h (width (outputCanvas w)) (height (outputCanvas w))
  /\ callbacks (eventLoop (processFrame render w)) = callbacks (eventLoop w)
  /\ animationFrameId (script (processFrame render w)) = animationFrameId (script w).
Proof. apply inherited_name_throws. Qed.

Lemma X26_inherited_name_throws_witness :
  let w := step flat_render playing_page (ModeClick "toString") in
  paused (sourceVideo w) || ended (sourceVideo w) = false
  /\ In (anaglyphMode (script w)) Object_prototype
  /\ width (outputCanvas w) <> 0 /\ height (outputCanvas w) <> 0
  /\ videoWidth (sourceVideo w) <> 0
  /\ flat_render tt 0 0 (inject_Z 2 / 2) (inject_Z 1) 1 1 <> []
  /\ (processFrame_call flat_render w).2 = TypeError
  /\ pixels (outputCanvas (processFrame flat_render w))
     = flat_render tt (inject_Z 2 / 2) 0 (inject_Z 2 / 2) (inject_Z 1) 1 1
  /\ callbacks (eventLoop (processFrame flat_render w)) = callbacks (eventLoop w)
  /\ animationFrameId (script (processFrame flat_render w)) = animationFrameId (script w).
Proof.
  intros w.
  assert (H1 : paused (sourceVideo w) || ended (sourceVideo w) = false) by reflexivity.
  assert (H2 : In (anaglyphMode (script w)) Object_prototype)
    by (cbn; auto 20).
  assert (H3 : width (outputCanvas w) <> 0) by discriminate.
  assert (H4 : height (outputCanvas w) <> 0) by discriminate.
  assert (H5 : videoWidth (sourceVideo w) <> 0) by discriminate.
  assert (H6 : flat_render tt 0 0 (inject_Z 2 / 2) (inject_Z 1) 1 1 <> []) by discriminate.
  repeat (split; [assumption|]).
  exact (X26_inherited_name_throws flat_render w H1 H2 H3 H4 H5 H6).
Defined.

(** ** The end of the stream and refused playback *)

Section playback_extras.

Context {Frame : Type}.
Variable render : Frame -> Q -> Q -> Q -> Q -> Z -> Z -> list Z.
Implicit Types w : World Frame.

Lemma ended_then_replayed w h :
  src (sourceVideo w) = true -> paused (sourceVideo w) = false ->
  callbacks (eventLoop w) = [h] -> promises (eventLoop w) = [] ->
  let w1 := run render w [PlaybackEnded; AnimationFrame] in
  let w2 := run render w1 [PlayPauseClick true; PromiseSettled] in
  (paused (sourceVideo w1) = true /\ ended (sourceVideo w1) = true
   /\ outstanding w1 = 0%nat /\ animationFrameId (script w1) = None
   /\ isVideoPlaying (script w1) = isVideoPlaying (script w)
   /\ outputCanvas w1 = outputCanvas w /\ log w1 = log w)
  /\ (paused (sourceVideo w2) = false /\ ended (sourceVideo w2) = false
      /\ outstanding w2 = 1%nat /\ isVideoPlaying (script w2) = true
      /\ animationFrameId (script w2) = Some (next_handle (eventLoop w))).
Proof.
  intros Hs Hp Hc Hpr. unfold run. cbn [foldl step].
  rewrite Hp. cbn. rewrite Hc. cbn.
  unfold togglePlayback. cbn. rewrite Hs. cbn. rewrite Hpr. cbn.
  auto 20.
Qed.

Lemma playback_not_started w (allowed : bool) :
  src (sourceVideo w) = true -> paused (sourceVideo w) = true ->
  callbacks (eventLoop w) = [] -> promises (eventLoop w) = [] ->
  let refused := run render w [PlayPauseClick false; PromiseSettled] in
  let overtaken := run render w [PlayPauseClick true; PlayPauseClick allowed; PromiseSettled] in
  (paused (sourceVideo refused) = true /\ isVideoPlaying (script refused) = false
   /\ outstanding refused = 0%nat
   /\ animationFrameId (script refused) = animationFrameId (script w)
   /\ outputCanvas refused = outputCanvas w /\ log refused = log w)
  /\ (paused (sourceVideo overtaken) = true /\ isVideoPlaying (script overtaken) = false
      /\ outstanding overtaken = 0%nat
      /\ animationFrameId (script overtaken) = animationFrameId (script w)
      /\ outputCanvas overtaken = outputCanvas w /\ log overtaken = log w).
Proof.
  intros Hs Hp Hc Hpr. unfold run. cbn [foldl step].
  unfold togglePlayback. rewrite Hs, Hp. cbn. rewrite Hs, Hpr. cbn.
  unfold outstanding. cbn. rewrite Hc. auto 20.
Qed.

End playback_extras.

(** X16. The end of the stream stops the cycle at the next refresh, without
    touching the canvas, the call log or the playing flag, which keeps its
    value although the stream is paused; a click on play/pause whose
    [play()] is fulfilled then restarts the stream and the cycle with
    exactly one request. *)
Theorem X16_end_of_stream_and_replay {Frame : Type}
    (render : Frame -> Q -> Q -> Q -> Q -> Z -> Z -> list Z)
    (w : World Frame) (h : positive) :
  src (sourceVideo w) = true -> paused (sourceVideo w) = false ->
  callbacks (eventLoop w) = [h] -> promises (eventLoop w) = [] ->
  let w1 := run render w [PlaybackEnded; AnimationFrame] in
  let w2 := run render w1 [PlayPauseClick true; PromiseSettled] in
  (paused (sourceVideo w1) = true /\ ended (sourceVideo w1) = true
   /\ outstanding w1 = 0%nat /\ animationFrameId (script w1) = None
   /\ isVideoPlaying (script w1) = isVideoPlaying (script w)
   /\ outputCanvas w1 = outputCanvas w /\ log w1 = log w)
  /\ (paused (sourceVideo w2) = false /\ ended (sourceVideo w2) = false
      /\ outstanding w2 = 1%nat /\ isVideoPlaying (script w2) = true
      /\ animationFrameId (script w2) = Some (next_handle (eventLoop w))).
Proof. apply ended_then_replayed. Qed.

Lemma X16_end_of_stream_and_replay_witness :
  let w := playing_page in
  let w1 := run flat_render w [PlaybackEnded; AnimationFrame] in
  let w2 := run flat_render w1 [PlayPauseClick true; PromiseSettled] in
  src (sourceVideo w) = true /\ paused (sourceVideo w) = false
  /\ callbacks (eventLoop w) = [1%positive] /\ promises (eventLoop w) = []
  /\ (paused (sourceVideo w1) = true /\ ended (sourceVideo w1) = true
      /\ outstanding w1 = 0%nat /\ animationFrameId (script w1) = None
      /\ isVideoPlaying (script w1) = isVideoPlaying (script w)
      /\ outputCanvas w1 = outputCanvas w /\ log w1 = log w)
  /\ (paused (sourceVideo w2) = false /\ ended (sourceVideo w2) = false
      /\ outstanding w2 = 1%nat /\ isVideoPlaying (script w2) = true
      /\ animationFrameId (script w2) = Some (next_handle (eventLoop w))).
Proof.
  intros w w1 w2.
  assert (H1 : src (sourceVideo w) = true) by reflexivity.
  assert (H2 : paused (sourceVideo w) = false) by reflexivity.
  assert (H3 : callbacks (eventLoop w) = [1%positive]) by reflexivity.
  assert (H4 : promises (eventLoop w) = []) by reflexivity.
  repeat (split; [assumption|]).
  exact (X16_end_of_stream_and_replay flat_render w 1 H1 H2 H3 H4).
Defined.

(** X17. A [play()] that fails starts nothing: on a paused page with a
    source and nothing waiting, a click on play/pause whose [play()] the
    platform refuses, or whose [play()] is overtaken by a second click
    before it settles, ends with the stream paused, the playing flag off,
    no frame request, and the canvas and the call log untouched. *)
Theorem X17_failed_play_starts_nothing {Frame : Type}
    (render : Frame -> Q -> Q -> Q -> Q -> Z -> Z -> list Z)
    (w : World Frame) (allowed : bool) :
  src (sourceVideo w) = true -> paused (sourceVideo w) = true ->
  callbacks (eventLoop w) = [] -> promises (eventLoop w) = [] ->
  let refused := run render w [PlayPauseClick false; PromiseSettled] in
  let overtaken := run render w [PlayPauseClick true; PlayPauseClick allowed; PromiseSettled] in
  (paused (sourceVideo refused) = true /\ isVideoPlaying (script refused) = false
   /\ outstanding refused = 0%nat
   /\ animationFrameId (script refused) = animationFrameId (script w)
   /\ outputCanvas refused = outputCanvas w /\ log refused = log w)
  /\ (paused (sourceVideo overtaken) = true /\ isVideoPlaying (script overtaken) = false
      /\ outstanding overtaken = 0%nat
      /\ animationFrameId (script overtaken) = animationFrameId (script w)
      /\ outputCanvas overtaken = outputCanvas w /\ log overtaken = log w).
Proof. apply playback_not_started. Qed.

Lemma X17_failed_play_starts_nothing_witness :
  let w := run flat_render (initial tt 300 150) [FileChosen; LoadedMetadata 4 1 tt] in
  let refused := run flat_render w [PlayPauseClick false; PromiseSettled] in
  let overtaken := run flat_render w [PlayPauseClick true; PlayPauseClick true; PromiseSettled] in
  src (sourceVideo w) = true /\ paused (sourceVideo w) = true
  /\ callbacks (eventLoop w) = [] /\ promises (eventLoop w) = []
  /\ (paused (sourceVideo refused) = true /\ isVideoPlaying (script refused) = false
      /\ outstanding refused = 0%nat
      /\ animationFrameId (script refused) = animationFrameId (script w)
      /\ outputCanvas refused = outputCanvas w /\ log refused = log w)
  /\ (paused (sourceVideo overtaken) = true /\ isVideoPlaying (script overtaken) = false
      /\ outstanding overtaken = 0%nat
      /\ animationFrameId (script overtaken) = animationFrameId (script w)
      /\ outputCanvas overtaken = outputCanvas w /\ log overtaken = log w).
Proof.
  intros w refused overtaken.
  assert (H1 : src (sourceVideo w) = true) by reflexivity.
  assert (H2 : paused (sourceVideo w) = true) by reflexivity.
  assert (H3 : callbacks (eventLoop w) = []) by reflexivity.
  assert (H4 : promises (eventLoop w) = []) by reflexivity.
  repeat (split; [assumption|]).
  exact (X17_failed_play_starts_nothing flat_render w true H1 H2 H3 H4).
Defined.

(** ** A new file *)

Lemma videoInput_change_stops {Frame : Type} (w : World Frame) :
  scheduled_once w ->
  let w' := videoInput_change w in
  outstanding w' = 0%nat
  /\ src (sourceVideo w') = true /\ paused (sourceVideo w') = true
  /\ ended (sourceVideo w') = false
  /\ Forall (fun fulfilled => fulfilled = false) (promises (eventLoop w'))
  /\ outputCanvas w' = outputCanvas w
  /\ anaglyphMode (script w') = anaglyphMode (script w)
  /\ animationFrameId (script w') = animationFrameId (script w).
Proof.
  intros Hw. unfold videoInput_change, outstanding.
  assert (Hp : forall l : list bool, Forall (fun fulfilled => fulfilled = false) (map (fun _ => false) l)).
  { intros l. induction l; cbn; constructor; auto. }
  destruct Hw as [Hc | (h & Hc & Hid)].
  - destruct (animationFrameId (script w)) as [id|] eqn:E; cbn; rewrite Hc, ?E; cbn; auto 10.
  - rewrite Hid. cbn. rewrite Hc, Hid. cbn.
    destruct (decide (h <> h)) as [N|_]; [contradiction|]. cbn. auto 10.
Qed.

(** X18. Choosing a file always stops the cycle: in every state the page can
    reach, the change handler leaves no frame request waiting, the stream
    loaded and paused, every waiting [play()] rejected and the canvas and
    the preset as they were. It does not reset the recorded handle. *)
Theorem X18_new_file_stops_cycle {Frame : Type}
    (render : Frame -> Q -> Q -> Q -> Q -> Z -> Z -> list Z)
    (f : Frame) (canvasWidth canvasHeight : Z) (events : list (Event Frame)) :
  let w := run render (initial f canvasWidth canvasHeight) events in
  let w' := step render w FileChosen in
  outstanding w' = 0%nat
  /\ src (sourceVideo w') = true /\ paused (sourceVideo w') = true
  /\ ended (sourceVideo w') = false
  /\ Forall (fun fulfilled => fulfilled = false) (promises (eventLoop w'))
  /\ outputCanvas w' = outputCanvas w
  /\ anaglyphMode (script w') = anaglyphMode (script w)
  /\ animationFrameId (script w') = animationFrameId (script w).
Proof.
  intros w w'. apply videoInput_change_stops.
  apply run_scheduled_once. left. reflexivity.
Qed.

(** ** Seeking *)

Lemma shr_exact_nonneg M e n :
  0 <= M -> 0 <= shr_m (fst (shr (shr_record_of_loc M loc_Exact) e n)).
Proof.
  intros HM. destruct (Z_le_gt_dec 0 n) as [Hn | Hn].
  - destruct (shr_exact_inv M e n HM Hn) as [[H _] _]. exact H.
  - destruct n; try lia. simpl. exact HM.
Qed.

Lemma round_nearest_even_nonneg m l : 0 <= m -> 0 <= round_nearest_even m l.
Proof.
  intros Hm. destruct l as [|[| |]]; simpl; try lia.
  destruct (Z.even m); lia.
Qed.

(** Rounding keeps the sign and yields no NaN. *)
Lemma binary_round_aux_sign sx M e :
  0 <= M ->
  let r := binary_round_aux prec emax sx M e loc_Exact in
  r = S754_zero sx \/ r = S754_infinity sx \/ exists m' e', r = S754_finite sx m' e'.
Proof.
  intros HM. unfold binary_round_aux, shr_fexp. cbv zeta.
  pose proof (shr_exact_nonneg M e (fexp prec emax (Zdigits2 M + e) - e) HM) as H1.
  destruct (shr (shr_record_of_loc M loc_Exact) e _) as [mrs1 e1]. cbn [fst] in H1.
  pose proof (round_nearest_even_nonneg (shr_m mrs1) (loc_of_shr_record mrs1) H1) as H2.
  set (q := round_nearest_even (shr_m mrs1) (loc_of_shr_record mrs1)) in *.
  pose proof (shr_exact_nonneg q e1 (fexp prec emax (Zdigits2 q + e1) - e1) H2) as H3.
  destruct (shr (shr_record_of_loc q loc_Exact) e1 _) as [mrs2 e2]. cbn [fst] in H3.
  destruct (shr_m mrs2) as [|m'|m']; [left; reflexivity | | lia].
  destruct (e2 <=? emax - prec); eauto.
Qed.

Lemma binary_round_sign sx m e :
  let r := binary_round prec emax sx m e in
  r = S754_zero sx \/ r = S754_infinity sx \/ exists m' e', r = S754_finite sx m' e'.
Proof.
  unfold binary_round.
  destruct (shl_align m e _) as [mz ez].
  apply binary_round_aux_sign. lia.
Qed.

(** The sign of a normalised integer is that of the integer. *)
Lemma binary_normalize_sign M e :
  let r := binary_normalize prec emax M e false in
  r = S754_zero false \/ r = S754_infinity (M <? 0) \/ r = S754_zero (M <? 0)
  \/ exists m' e', r = S754_finite (M <? 0) m' e'.
Proof.
  destruct M as [|p|p]; cbn [binary_normalize]; cbv zeta.
  - left. reflexivity.
  - change (Z.pos p <? 0) with false.
    destruct (binary_round_sign false p e) as [H | [H | H]]; auto.
  - change (Z.neg p <? 0) with true.
    destruct (binary_round_sign true p e) as [H | [H | H]]; auto.
Qed.

Lemma of_Z_not_nan z : of_Z z <> NaN.
Proof.
  unfold of_Z.
  destruct (binary_normalize_sign z 0) as [H | [H | [H | (m & e & H)]]];
    cbv zeta in H; rewrite H; discriminate.
Qed.

(** A finite time plus any number of seconds is a number. *)
Lemma add_finite_not_nan t y : is_finite t = true -> y <> NaN -> add t y <> NaN.
Proof.
  intros Ht Hy. unfold add, NaN in *.
  destruct t as [st | st | | st mt et]; try discriminate;
    destruct y as [sy | sy | | sy my ey]; try congruence; cbn [SFadd]; try discriminate.
  - destruct st, sy; discriminate.
  - destruct (binary_normalize_sign
                (cond_Zopp st (Z.pos (fst (shl_align mt et (Z.min et ey))))
                 + cond_Zopp sy (Z.pos (fst (shl_align my ey (Z.min et ey))))) (Z.min et ey))
      as [H | [H | [H | (m & e & H)]]]; cbv zeta in H; rewrite H; discriminate.
Qed.

(** [Math.max(0, y)] is NaN or not below zero. *)
Lemma Math_max_zero y : y <> NaN ->
  Math_max (of_Z 0) y <> NaN /\ leb (of_Z 0) (Math_max (of_Z 0) y) = true.
Proof.
  intros Hy. change (of_Z 0) with (S754_zero false). unfold NaN in *.
  destruct y as [[|] | [|] | | [|] m e]; try congruence; split; (discriminate || reflexivity).
Qed.

Lemma Math_max_zero_nonpositive y :
  (y = S754_zero false \/ y = S754_zero true \/ y = S754_infinity true
   \/ exists m e, y = S754_finite true m e) ->
  Math_max (of_Z 0) y = S754_zero false.
Proof.
  change (of_Z 0) with (S754_zero false).
  intros [-> | [-> | [-> | (m & e & ->)]]]; reflexivity.
Qed.

Lemma skipVideo_assigned seconds src t :
  is_finite t = true ->
  match skipVideo seconds src t with
  | Some t' => src = true /\ t' <> NaN /\ leb (of_Z 0) t' = true
  | None => src = false
  end.
Proof.
  intros Ht. unfold skipVideo. destruct src; [|reflexivity].
  split; [reflexivity|].
  apply Math_max_zero, add_finite_not_nan; [exact Ht | apply of_Z_not_nan].
Qed.

Lemma of_Z_minus_10 : of_Z (-10) = S754_finite true 5629499534213120 (-49).
Proof. computed. Qed.

Lemma of_Z_10 : of_Z 10 = S754_finite false 5629499534213120 (-49).
Proof. computed. Qed.

(** Ten seconds back from a time up to ten seconds. *)
Lemma add_minus_10 t :
  valid_binary prec emax t = true -> leb t (of_Z 10) = true ->
  Math_max (of_Z 0) (add t (of_Z (-10))) = S754_zero false.
Proof.
  intros Hv Hle. rewrite of_Z_minus_10. rewrite of_Z_10 in Hle.
  apply Math_max_zero_nonpositive.
  destruct t as [st | st | | st mt et]; unfold add; cbn [SFadd].
  - eauto 10.
  - destruct st; [auto | discriminate].
  - discriminate.
  - set (ez := Z.min et (-49)).
    set (S := cond_Zopp st (Z.pos (fst (shl_align mt et ez)))
              + cond_Zopp true (Z.pos (fst (shl_align 5629499534213120 (-49) ez)))).
    assert (HS : S <= 0).
    { unfold S. destruct st; cbn [cond_Zopp]; [lia|].
      unfold leb, SFleb in Hle. cbn [SFcompare] in Hle.
      cbn [valid_binary] in Hv. unfold bounded, canonical_mantissa in Hv.
      apply andb_true_iff in Hv. destruct Hv as [Hc _].
      apply Z.eqb_eq in Hc.
      pose proof (digits2_pos_bounds mt) as Hb.
      assert (Hd : Z.pos (digits2_pos mt) <= prec).
      { unfold fexp, SpecFloat.emin, prec, emax in *. lia. }
      assert (Hm : Z.pos mt < 2 ^ 53).
      { eapply Z.lt_le_trans; [apply Hb|]. apply Z.pow_le_mono_r; unfold prec in Hd; lia. }
      destruct (Z.compare_spec et (-49)) as [E | L | G]; [| |discriminate Hle].
      - subst et. unfold ez. rewrite Z.min_id, !shl_align_value by lia.
        rewrite Z.sub_diag, Z.pow_0_r.
        destruct (Pos.compare_cont Eq mt 5629499534213120) eqn:Hcmp; try discriminate Hle.
        + apply Pos.compare_eq in Hcmp. subst mt. lia.
        + pose proof (proj1 (Pos.compare_lt_iff _ _) Hcmp) as Hlt.
          apply Pos2Z.pos_lt_pos in Hlt. clear - Hlt. lia.
      - unfold ez. rewrite Z.min_l by lia.
        rewrite !shl_align_value by lia.
        replace (et - et) with 0 by lia. rewrite Z.pow_0_r.
        assert (2 ^ 1 <= 2 ^ (-49 - et)) by (apply Z.pow_le_mono_r; lia).
        change (2 ^ 1) with 2 in *. change (2 ^ 53) with 9007199254740992 in Hm. nia. }
    destruct (binary_normalize_sign S ez) as [H | [H | [H | (m & e & H)]]];
      cbv zeta in H; fold (binary_normalize prec emax S ez false);
      destruct (Z.ltb_spec S 0) as [Hneg | Hpos]; rewrite H; eauto 10.
    + assert (S = 0) by lia. exfalso. subst S. 
      revert H. rewrite H0. cbn. discriminate.
    + exfalso. revert H. replace S with 0 by lia. cbn. discriminate.
Qed.

(** X19. Seeking never asks for an invalid time: with a finite current time,
    a skip by any number of seconds, from a button or a double click
    anywhere, assigns a time that is a number and not below zero; without a
    source nothing is assigned. *)
Theorem X19_skip_time_valid (seconds : Z) (src : bool) (t clientX rect_left rect_width : Number) :
  is_finite t = true ->
  match skipVideo seconds src t with
  | Some t' => src = true /\ t' <> NaN /\ leb (of_Z 0) t' = true
  | None => src = false
  end
  /\ match outputCanvas_dblclick clientX rect_left rect_width src t with
     | Some t' => src = true /\ t' <> NaN /\ leb (of_Z 0) t' = true
     | None => src = false
     end.
Proof.
  intros Ht. split; [apply skipVideo_assigned; exact Ht|].
  unfold outputCanvas_dblclick. cbv zeta.
  destruct (SFltb _ _); apply skipVideo_assigned; exact Ht.
Qed.

Lemma X19_skip_time_valid_witness :
  is_finite (of_Z 4) = true
  /\ match skipVideo (-10) true (of_Z 4) with
     | Some t' => true = true /\ t' <> NaN /\ leb (of_Z 0) t' = true
     | None => true = false
     end
  /\ match outputCanvas_dblclick (of_Z 300) (of_Z 20) (of_Z 400) true (of_Z 4) with
     | Some t' => true = true /\ t' <> NaN /\ leb (of_Z 0) t' = true
     | None => true = false
     end.
Proof.
  assert (H : is_finite (of_Z 4) = true) by computed.
  split; [exact H|].
  exact (X19_skip_time_valid (-10) true (of_Z 4) (of_Z 300) (of_Z 20) (of_Z 400) H).
Defined.

(** X20. Skipping back from within the first ten seconds goes to the very
    start: for every binary64 time not above 10 (negative ones included)
    [skipVideo(-10)] assigns exactly +0. *)
Theorem X20_skip_back_to_start (t : Number) :
  valid_binary prec emax t = true -> leb t (of_Z 10) = true ->
  skipVideo (-10) true t = Some (S754_zero false).
Proof.
  intros Hv Hle. unfold skipVideo. f_equal. apply add_minus_10; assumption.
Qed.

Lemma X20_skip_back_to_start_witness :
  valid_binary prec emax (of_Z 7) = true /\ leb (of_Z 7) (of_Z 10) = true
  /\ skipVideo (-10) true (of_Z 7) = Some (S754_zero false).
Proof.
  assert (H1 : valid_binary prec emax (of_Z 7) = true) by computed.
  assert (H2 : leb (of_Z 7) (of_Z 10) = true) by computed.
  split; [exact H1|]. split; [exact H2|].
  exact (X20_skip_back_to_start (of_Z 7) H1 H2).
Defined.

(** ** The size of the canvas on screen *)

Lemma sizing_literals_nearest :
  lit_0_9 = SFdiv prec emax (of_Z 9) (of_Z 10)
  /\ lit_0_7 = SFdiv prec emax (of_Z 7) (of_Z 10).
Proof. split; computed. Qed.

(** A quotient by zero is infinite or NaN. *)
Lemma div_by_zero x :
  SFdiv prec emax x (of_Z 0) = NaN \/ exists s, SFdiv prec emax x (of_Z 0) = S754_infinity s.
Proof.
  change (of_Z 0) with (S754_zero false). unfold NaN.
  destruct x as [s | s | | s m e]; cbn [SFdiv]; eauto.
Qed.

Lemma zero_times_min_of_infinite a b :
  (a = NaN \/ exists s, a = S754_infinity s) ->
  (b = NaN \/ exists s, b = S754_infinity s) ->
  mul (of_Z 0) (Math_min a b) = NaN.
Proof.
  change (of_Z 0) with (S754_zero false). unfold NaN.
  intros [-> | [[|] ->]] [-> | [[|] ->]]; reflexivity.
Qed.

(** X21. A stream without a picture divides by zero: when the metadata give
    a native size of 0 x 0 (or 1 x 0, whose half rounds down to 0), the
    canvas is 0 x 0 and both sizes computed for it on screen are NaN,
    whatever the size of the window. *)
Theorem X21_no_picture_sizes_nan (innerWidth innerHeight : Number)
    (originalWidth originalHeight : Z) :
  0 <= originalWidth < 2 -> originalHeight = 0 ->
  canvas_css_size innerWidth innerHeight originalWidth originalHeight = (NaN, NaN).
Proof.
  intros Hw ->. unfold canvas_css_size.
  replace (originalWidth / 2) with 0 by (symmetry; apply Z.div_small; lia).
  cbv zeta.
  rewrite (zero_times_min_of_infinite _ _ (div_by_zero _) (div_by_zero _)).
  reflexivity.
Qed.

Lemma X21_no_picture_sizes_nan_witness :
  0 <= 1 < 2 /\ 0 = 0
  /\ canvas_css_size (of_Z 1280) (of_Z 720) 1 0 = (NaN, NaN).
Proof.
  assert (H1 : 0 <= 1 < 2) by lia.
  assert (H2 : 0 = 0) by reflexivity.
  split; [exact H1|]. split; [exact H2|].
  exact (X21_no_picture_sizes_nan (of_Z 1280) (of_Z 720) 1 0 H1 H2).
Defined.

(** ** The full-window view *)

Section view_facts.

Variable accepts : string -> bool.

Lemma style_set_settable value current :
  settable accepts current = true -> settable accepts (style_set accepts value current) = true.
Proof. unfold style_set. destruct (settable accepts value) eqn:E; auto. Qed.

Lemma style_set_taken value current :
  settable accepts value = true -> style_set accepts value current = value.
Proof. unfold style_set. intros ->. reflexivity. Qed.

Lemma toggle_off_invariant v :
  settable accepts (style_width v) = true -> settable accepts (style_height v) = true ->
  view_invariant accepts (toggleSimulatedFullscreen accepts false v).
Proof.
  intros Sw Sh. unfold view_invariant. cbn.
  split; [reflexivity|]. split; [apply style_set_settable; exact Sw|].
  split; [apply style_set_settable; exact Sh|].
  intros _. split; apply style_set_taken.
Qed.

Lemma view_step_invariant v e :
  view_invariant accepts v -> view_invariant accepts (view_step accepts v e).
Proof.
  intros (Hf & Sw & Sh & Hw).
  destruct e as [ | element | ws hs]; cbn [view_step].
  - unfold fullscreenToggle_click.
    destruct (fullscreenElement v); [exact (conj Hf (conj Sw (conj Sh Hw)))|].
    destruct (isFullscreenSimulated v) eqn:E.
    + apply (toggle_off_invariant v Sw Sh).
    + unfold view_invariant. cbn. repeat split; try reflexivity; discriminate.
  - unfold document_fullscreenchange. cbn [fullscreenElement isFullscreenSimulated].
    destruct element; cbn [negb andb]; [exact (conj Hf (conj Sw (conj Sh Hw)))|].
    destruct (isFullscreenSimulated v) eqn:E.
    + apply (toggle_off_invariant _ Sw Sh).
    + exact (conj Hf (conj Sw (conj Sh Hw))).
  - unfold view_invariant. cbn.
    split; [exact Hf|]. split; [apply style_set_settable; exact Sw|].
    split; [apply style_set_settable; exact Sh|].
    intros _. split; apply style_set_taken.
Qed.

Lemma view_run_invariant events : forall v,
  view_invariant accepts v -> view_invariant accepts (view_run accepts v events).
Proof.
  induction events as [|e events IH]; intros v Hv; [exact Hv|].
  unfold view_run. cbn [foldl]. apply IH, view_step_invariant, Hv.
Qed.

Lemma view_initial_invariant : view_invariant accepts view_initial.
Proof. unfold view_invariant. cbn. repeat split; reflexivity. Qed.

Lemma view_run_app v es1 es2 :
  view_run accepts v (es1 ++ es2) = view_run accepts (view_run accepts v es1) es2.
Proof. unfold view_run. apply foldl_app. Qed.

Lemma native_exit v :
  view_invariant accepts v ->
  let v' := view_step accepts v (FullscreenChange false) in
  isFullscreenSimulated v' = false /\ fullscreen_active v' = false
  /\ initialCanvasWidthStyle v' = initialCanvasWidthStyle v
  /\ initialCanvasHeightStyle v' = initialCanvasHeightStyle v
  /\ style_width v' = style_set accepts (initialCanvasWidthStyle v) (style_width v)
  /\ style_height v' = style_set accepts (initialCanvasHeightStyle v) (style_height v).
Proof.
  intros (Hf & Sw & Sh & Hw). cbn [view_step]. unfold document_fullscreenchange.
  cbn [fullscreenElement isFullscreenSimulated negb andb].
  destruct (isFullscreenSimulated v) eqn:E.
  - cbn. repeat split.
  - cbn. destruct (Hw eq_refl) as [Kw Kh].
    split; [reflexivity|]. split; [symmetry; exact Hf|].
    split; [reflexivity|]. split; [reflexivity|]. unfold style_set. split.
    + destruct (settable accepts (initialCanvasWidthStyle v)); auto.
    + destruct (settable accepts (initialCanvasHeightStyle v)); auto.
Qed.

Lemma click_twice v :
  fullscreenElement v = false -> windowed accepts v ->
  let v1 := fullscreenToggle_click accepts v in
  let v2 := fullscreenToggle_click accepts v1 in
  fullscreen_active v1 = true /\ style_width v1 = "100vw" /\ style_height v1 = "100vh"
  /\ windowed accepts v2
  /\ style_width v2 = style_width v /\ style_height v2 = style_height v.
Proof.
  intros He (A & B & Sw & Sh & C & D). unfold fullscreenToggle_click.
  rewrite He, A. cbn. rewrite He. cbn. unfold windowed. cbn.
  rewrite !style_set_taken by assumption. auto 10.
Qed.

Lemma stuck_full_window ws hs :
  settable accepts ws = false -> settable accepts hs = false ->
  let v := view_run accepts view_initial
             [FullscreenClick; MetadataLoaded ws hs; FullscreenChange false] in
  isFullscreenSimulated v = false /\ fullscreen_active v = false
  /\ initialCanvasWidthStyle v = ws /\ initialCanvasHeightStyle v = hs
  /\ style_width v = "100vw" /\ style_height v = "100vh".
Proof.
  intros Hw Hh. unfold view_run. cbn -[style_set].
  rewrite (style_set_taken "100vw"), (style_set_taken "100vh") by reflexivity.
  unfold style_set. rewrite Hw, Hh. repeat split.
Qed.

End view_facts.

(** X22. Whatever the platform's parser and whatever sequence of clicks on
    the full-screen button, full-screen changes and loaded videos: the
    script's flag tells exactly whether the canvas carries the full-window
    class; the canvas only ever holds sizes the setter takes; and whenever
    the flag is off, a stored size that the setter takes is the size of the
    canvas. With both stored sizes taken, the layout is the windowed one. *)
Theorem X22_view_flag_matches_class (accepts : string -> bool) (events : list ViewEvent) :
  let v := view_run accepts view_initial events in
  isFullscreenSimulated v = fullscreen_active v
  /\ settable accepts (style_width v) = true
  /\ settable accepts (style_height v) = true
  /\ (isFullscreenSimulated v = false ->
      (settable accepts (initialCanvasWidthStyle v) = true ->
       style_width v = initialCanvasWidthStyle v)
      /\ (settable accepts (initialCanvasHeightStyle v) = true ->
          style_height v = initialCanvasHeightStyle v)).
Proof. exact (view_run_invariant accepts events view_initial (view_initial_invariant accepts)). Qed.

(** X23. Leaving native full screen (the Escape key, say): after any
    history, a full-screen change that leaves no full-screen element ends
    with the class removed, the flag off and the stored sizes unchanged;
    each stored size that the setter takes is applied, and where it does
    not take one the canvas keeps the size it had. *)
Theorem X23_native_exit_restores_window (accepts : string -> bool)
    (events : list ViewEvent) :
  let v := view_run accepts view_initial events in
  let v' := view_run accepts view_initial (events ++ [FullscreenChange false]) in
  isFullscreenSimulated v' = false /\ fullscreen_active v' = false
  /\ initialCanvasWidthStyle v' = initialCanvasWidthStyle v
  /\ initialCanvasHeightStyle v' = initialCanvasHeightStyle v
  /\ style_width v' = style_set accepts (initialCanvasWidthStyle v) (style_width v)
  /\ style_height v' = style_set accepts (initialCanvasHeightStyle v) (style_height v).
Proof.
  cbv zeta. rewrite view_run_app.
  exact (native_exit accepts _
           (view_run_invariant accepts events view_initial (view_initial_invariant accepts))).
Qed.

(** X24. Without native full screen the button is a toggle: from the windowed
    layout one click sets the class and the 100vw x 100vh size, and a
    second click gives back the windowed layout with the very sizes the
    canvas had. *)
Theorem X24_full_window_round_trip (accepts : string -> bool) (v : View) :
  fullscreenElement v = false -> windowed accepts v ->
  let v1 := fullscreenToggle_click accepts v in
  let v2 := fullscreenToggle_click accepts v1 in
  fullscreen_active v1 = true /\ style_width v1 = "100vw" /\ style_height v1 = "100vh"
  /\ windowed accepts v2
  /\ style_width v2 = style_width v /\ style_height v2 = style_height v.
Proof. apply click_twice. Qed.

Lemma X24_full_window_round_trip_witness :
  let accepts := fun s => negb (String.eqb s "NaNpx") in
  let v := view_step accepts view_initial (MetadataLoaded "640px" "360px") in
  let v1 := fullscreenToggle_click accepts v in
  let v2 := fullscreenToggle_click accepts v1 in
  fullscreenElement v = false /\ windowed accepts v
  /\ fullscreen_active v1 = true /\ style_width v1 = "100vw" /\ style_height v1 = "100vh"
  /\ windowed accepts v2
  /\ style_width v2 = style_width v /\ style_height v2 = style_height v.
Proof.
  intros accepts v v1 v2.
  assert (H1 : fullscreenElement v = false) by reflexivity.
  assert (H2 : windowed accepts v) by (repeat split).
  split; [exact H1|]. split; [exact H2|].
  exact (X24_full_window_round_trip accepts v H1 H2).
Defined.

(** X27. A video whose computed sizes the setter does not take leaves the
    canvas at the full-window size for good: enter the full-window view,
    load such a video, leave the view; the class is removed and the flag
    off, but the canvas keeps 100vw x 100vh, the stored sizes being
    ignored. *)
Theorem X27_full_window_size_kept (accepts : string -> bool) (ws hs : string) :
  settable accepts ws = false -> settable accepts hs = false ->
  let v := view_run accepts view_initial
             [FullscreenClick; MetadataLoaded ws hs; FullscreenChange false] in
  isFullscreenSimulated v = false /\ fullscreen_active v = false
  /\ initialCanvasWidthStyle v = ws /\ initialCanvasHeightStyle v = hs
  /\ style_width v = "100vw" /\ style_height v = "100vh".
Proof. apply stuck_full_window. Qed.

Lemma X27_full_window_size_kept_witness :
  let accepts := fun s => negb (String.eqb s "NaNpx") in
  let v := view_run accepts view_initial
             [FullscreenClick; MetadataLoaded "NaNpx" "NaNpx"; FullscreenChange false] in
  settable accepts "NaNpx" = false
  /\ isFullscreenSimulated v = false /\ fullscreen_active v = false
  /\ initialCanvasWidthStyle v = "NaNpx" /\ initialCanvasHeightStyle v = "NaNpx"
  /\ style_width v = "100vw" /\ style_height v = "100vh".
Proof.
  intros accepts v.
  assert (H : settable accepts "NaNpx" = false) by reflexivity.
  split; [exact H|].
  exact (X27_full_window_size_kept accepts "NaNpx" "NaNpx" H H).
Defined.
